(** * onelua: dependency resolution, rewriting and bundling

    A shallow embedding of [onelua.js]: the classes [LuaPackage] and
    [LuaScript], the resolver [OLProcessor.#getRequiredModule], the traversal
    [recurseResolve] with its three luaparse node hooks, the emitter
    [OLProcessor.#createFinalAst], and the loader function [__OL__require]
    that the emitted program carries. *)

From Stdlib Require Import Ascii String DecimalString.
From stdpp Require Import gmap strings list fin_maps sorting.

Local Open Scope string_scope.
Local Open Scope list_scope.
Local Open Scope Z_scope.

(** ** Syntax trees

    luaparse nodes are JavaScript objects tagged by a [type] field. The
    constructors below are the node kinds that [onelua.js] builds or inspects;
    every other kind luaparse produces is an [OtherNode] carrying its children
    in the order luaparse constructs them. Source locations ([loc]) are not
    kept: the code only prints them. *)

(** The [value] field of a numeric literal: a JavaScript number where the
    code stores a module id, a string where it stores an [Object.keys] key. *)
Inductive js_value :=
| JsNumber (z : Z)
| JsString (s : string).

#[warnings="-register-all"]
Inductive node :=
| Identifier (name : string) (isLocal : option bool)
| StringLiteral (value : string) (raw : string)
| NumericLiteral (value : js_value) (raw : string)
| VarargLiteral (value : string) (raw : string)
| MemberExpression (indexer : string) (identifier : node) (base : node)
| IndexExpression (base : node) (index : node)
| CallExpression (base : node) (arguments : list node)
| TableCallExpression (base : node) (arguments : node)
| StringCallExpression (base : node) (argument : node)
| TableConstructorExpression (fields : list node)
| FunctionDeclaration (identifier : option node) (isLocal : bool)
    (parameters : list node) (body : list node)
| LocalStatement (variables : list node) (init : list node)
| AssignmentStatement (variables : list node) (init : list node)
| CallStatement (expression : node)
| ReturnStatement (arguments : list node)
| IfStatement (clauses : list node)
| IfClause (condition : node) (body : list node)
| OtherNode (type : string) (children : list node).

Record Chunk := mkChunk {
  chunk_body : list node;
  chunk_comments : list node;
  chunk_globals : list node
}.

(** [node.type] *)
Definition node_type (n : node) : string :=
  match n with
  | Identifier _ _ => "Identifier"
  | StringLiteral _ _ => "StringLiteral"
  | NumericLiteral _ _ => "NumericLiteral"
  | VarargLiteral _ _ => "VarargLiteral"
  | MemberExpression _ _ _ => "MemberExpression"
  | IndexExpression _ _ => "IndexExpression"
  | CallExpression _ _ => "CallExpression"
  | TableCallExpression _ _ => "TableCallExpression"
  | StringCallExpression _ _ => "StringCallExpression"
  | TableConstructorExpression _ => "TableConstructorExpression"
  | FunctionDeclaration _ _ _ _ => "FunctionDeclaration"
  | LocalStatement _ _ => "LocalStatement"
  | AssignmentStatement _ _ => "AssignmentStatement"
  | CallStatement _ => "CallStatement"
  | ReturnStatement _ => "ReturnStatement"
  | IfStatement _ => "IfStatement"
  | IfClause _ _ => "IfClause"
  | OtherNode t _ => t
  end.

(** Property reads used by the hooks; [None] is JavaScript's [undefined]. *)
Definition node_base (n : node) : option node :=
  match n with
  | MemberExpression _ _ b | IndexExpression b _ | CallExpression b _
  | TableCallExpression b _ | StringCallExpression b _ => Some b
  | _ => None
  end.

Definition node_name (n : node) : option string :=
  match n with Identifier s _ => Some s | _ => None end.

Definition node_identifier (n : node) : option node :=
  match n with
  | MemberExpression _ i _ => Some i
  | FunctionDeclaration i _ _ _ => i
  | _ => None
  end.

Definition node_index (n : node) : option node :=
  match n with IndexExpression _ i => Some i | _ => None end.

(** [node.value] compared with a string by [==]. *)
Definition node_value_is (n : node) (s : string) : bool :=
  match n with
  | StringLiteral v _ | VarargLiteral v _ => bool_decide (v = s)
  | NumericLiteral (JsString v) _ => bool_decide (v = s)
  | _ => false
  end.

(** [Number.prototype.toString] on an integer. *)
Definition toString (z : Z) : string := NilZero.string_of_int (Z.to_int z).

(** ** Packages and scripts *)

Record onelua_config := { onelua_main : option string }.

(** The parsed [package.json] object, as far as the code reads it. *)
Record package_json := { pkg_onelua : option onelua_config }.

Record LuaPackage := {
  packageConfig : package_json;
  packageDir : string;
  mainScriptPath : string;
  mainDir : string
}.

Record LuaScript := {
  path : string;
  package : option LuaPackage;
  baseDir : string
}.

(** What [require(package_json_path)] gives. *)
Inductive json_load :=
| JsonThrows
| JsonFalsy
| JsonObject (cfg : package_json).

(** What the [resolve] package's [sync] leaves behind: the path it returns
    ([None] when it throws, which the code catches) and the directory last
    handed to the [packageFilter] callback ([None] when it was never
    called). *)
Record resolver_result := {
  nodeModPath : option string;
  pkgPath : option string
}.

(** The collaborators of one build: Node's [fs] and [path] modules, the
    [resolve] package, luaparse's untouched parser on a file's contents
    ([None] when it raises a syntax error) and the two printers. The
    parser builds each node with a constructor of [luaparse.ast] as soon as
    it has read it, so that on a file it rejects it has completed some
    trees before it raises the error: [luaparse_built] gives them in the
    order of their completion, each one a largest tree completed by then. *)
Record Env := {
  fs_existsSync : string → bool;
  path_dirname : string → string;
  path_join : string → string → string;
  path_resolve : string → string;
  path_resolve2 : string → string → string;
  require_json : string → json_load;
  resolver : string → string → resolver_result;
  luaparse_parse : string → option Chunk;
  luaparse_built : string → list node;
  luamin_minify : Chunk → string;
  luaprint : Chunk → string
}.

Section Resolver.
Context (env : Env).

Definition new_LuaPackage (pkg_config : package_json) (pkg_dir pkg_script : string)
  : LuaPackage :=
  {| packageConfig := pkg_config;
     packageDir := pkg_dir;
     mainScriptPath := pkg_script;
     mainDir := path_dirname env pkg_script |}.

Definition new_LuaScript (path_absol : string) (pkg : option LuaPackage) : LuaScript :=
  {| path := path_absol; package := pkg; baseDir := path_dirname env path_absol |}.

Definition script_exists (s : LuaScript) : bool := fs_existsSync env (path s).

(** JavaScript truthiness of [pkg_cfg.onelua.main]. *)
Definition declared_main (cfg : package_json) : option string :=
  match pkg_onelua cfg with
  | Some o =>
      match onelua_main o with
      | Some m => if bool_decide (m = "") then None else Some m
      | None => None
      end
  | None => None
  end.

(** [LuaPackage.fromPackageJson]; the outer [None] is an uncaught
    exception of [require]. *)
Definition fromPackageJson (package_json_path : string) : option (option LuaPackage) :=
  match require_json env package_json_path with
  | JsonThrows => None
  | JsonFalsy => Some None
  | JsonObject pkg_cfg =>
      match declared_main pkg_cfg with
      | None => Some None
      | Some m =>
          let pkg_path := path_dirname env package_json_path in
          let pkg_script := path_resolve2 env pkg_path m in
          if fs_existsSync env pkg_script
          then Some (Some (new_LuaPackage pkg_cfg pkg_path pkg_script))
          else Some None
      end
  end.

(** [module.replace(/\./g, "/")] *)
Fixpoint dots_to_slashes (s : string) : string :=
  match s with
  | EmptyString => EmptyString
  | String c r =>
      String (if bool_decide (c = "."%char) then "/"%char else c) (dots_to_slashes r)
  end.

Inductive lookup :=
| Found (s : LuaScript)
| NotFound
| LookupThrows.

(** The last part of [#getRequiredModule]: the lookup among installed
    packages. *)
Definition installed_lookup (base_dir module : string) : lookup :=
  let r := resolver env module base_dir in
  match nodeModPath r with
  | None => NotFound
  | Some p =>
      match pkgPath r with
      | None => LookupThrows
      | Some dir =>
          match fromPackageJson (path_join env dir "/package.json") with
          | None => LookupThrows
          | Some None => NotFound
          | Some (Some pkg) => Found (new_LuaScript p (Some pkg))
          end
      end
  end.

(** [OLProcessor.#getRequiredModule] *)
Definition getRequiredModule (entryScript base_script : LuaScript) (module : string)
  : lookup :=
  let base_dir := baseDir base_script in
  let module := dots_to_slashes module in
  let script_path := path_join env base_dir (module +:+ ".lua") in
  if fs_existsSync env script_path
  then Found (new_LuaScript script_path (package base_script))
  else
    match package base_script with
    | Some pkg =>
        let script_path := path_join env (mainDir pkg) (module +:+ ".lua") in
        if fs_existsSync env script_path
        then Found (new_LuaScript script_path (package base_script))
        else installed_lookup base_dir module
    | None =>
        let entry_dir := baseDir entryScript in
        let script_path := path_join env entry_dir (module +:+ ".lua") in
        if fs_existsSync env script_path
        then Found (new_LuaScript script_path None)
        else installed_lookup base_dir module
    end.
End Resolver.

(** ** The build state

    [modulesIds], [modulesAst], [mainAst] and [currModuleId] are the four
    variables of [process()] that the closure [recurseResolve] updates.
    [parsed] and [sites] are a trace the source does not keep: [parsed] lists,
    in call order, every path handed to [luaparse.parse] with the id held by
    [thisModuleId] at that moment, and [sites] lists, for every loader call
    [new_astnode] returns, the required path and the id written in the call. *)
Record state := mkState {
  modulesIds : gmap string Z;
  modulesAst : gmap Z Chunk;
  mainAst : option Chunk;
  currModuleId : Z;
  parsed : list (string * Z);
  sites : list (string * Z)
}.

Definition init_state : state :=
  {| modulesIds := ∅; modulesAst := ∅; mainAst := None; currModuleId := 0;
     parsed := []; sites := [] |}.

Definition set_modulesIds (p : string) (v : Z) (st : state) : state :=
  {| modulesIds := <[p := v]> (modulesIds st); modulesAst := modulesAst st;
     mainAst := mainAst st; currModuleId := currModuleId st;
     parsed := parsed st; sites := sites st |}.

Definition set_modulesAst (k : Z) (ast : Chunk) (st : state) : state :=
  {| modulesIds := modulesIds st; modulesAst := <[k := ast]> (modulesAst st);
     mainAst := mainAst st; currModuleId := currModuleId st;
     parsed := parsed st; sites := sites st |}.

Definition set_mainAst (ast : Chunk) (st : state) : state :=
  {| modulesIds := modulesIds st; modulesAst := modulesAst st;
     mainAst := Some ast; currModuleId := currModuleId st;
     parsed := parsed st; sites := sites st |}.

Definition set_currModuleId (v : Z) (st : state) : state :=
  {| modulesIds := modulesIds st; modulesAst := modulesAst st;
     mainAst := mainAst st; currModuleId := v;
     parsed := parsed st; sites := sites st |}.

Definition log_parsed (p : string) (id : Z) (st : state) : state :=
  {| modulesIds := modulesIds st; modulesAst := modulesAst st;
     mainAst := mainAst st; currModuleId := currModuleId st;
     parsed := parsed st ++ [(p, id)]; sites := sites st |}.

Definition log_site (p : string) (id : Z) (st : state) : state :=
  {| modulesIds := modulesIds st; modulesAst := modulesAst st;
     mainAst := mainAst st; currModuleId := currModuleId st;
     parsed := parsed st; sites := sites st ++ [(p, id)] |}.

(** ** Exceptions

    The strings the code throws, by kind, and [TypeError] for a JavaScript
    exception raised by a property read on [undefined] or by a collaborator. *)
Inductive error :=
| EntryNotFound
| CircularDependency (script_path previous_path : string)
| ModuleNotFound (module script_path : string)
| InvalidRequireArgument (got_type : string)
| InvalidExportPosition
| SyntaxError (script_path : string)
| TypeError.

Inductive res (A : Type) :=
| Ok (a : A)
| Throw (e : error)
| OutOfFuel.
Arguments Ok {A} a.
Arguments Throw {A} e.
Arguments OutOfFuel {A}.

(** Computations that read and update the build state and may throw. *)
Definition M (A : Type) : Type := state → res (A * state).

Definition ret {A} (a : A) : M A := fun st => Ok (a, st).

Definition throw {A} (e : error) : M A := fun _ => Throw e.

Definition bind {A B} (m : M A) (k : A → M B) : M B :=
  fun st =>
    match m st with
    | Ok (a, st') => k a st'
    | Throw e => Throw e
    | OutOfFuel => OutOfFuel
    end.

Notation "'do' x <- m ; k" := (bind m (fun x => k))
  (at level 10, x name, m at level 100, k at level 200).

Definition mapM {A B} (f : A → M B) : list A → M (list B) :=
  fix go (l : list A) : M (list B) :=
    match l with
    | [] => ret []
    | x :: tl => do x' <- f x; do tl' <- go tl; ret (x' :: tl')
    end.

Definition optM {A B} (f : A → M B) (o : option A) : M (option B) :=
  match o with
  | None => ret None
  | Some x => do x' <- f x; ret (Some x')
  end.

(** ** The rewrite pass of one script

    [recurseResolve] installs three hooks on luaparse's node factories and
    parses the script; each hook sees a node right after luaparse has built
    it, that is, after all of the node's children were built (and hooked).
    [rewrite] replays this on the tree the untouched parser would return: a
    left-to-right, children-first walk that applies the hooks. The closure
    variables of one [recurseResolve] activation are the section's context;
    [recurseResolve'] is the recursive call of [new_astnode] with the
    [previousScript] argument already passed. *)
Section Hooks.
Context (env : Env) (entryScript : LuaScript).
Context (script : LuaScript) (is_entry : bool) (thisModuleId : Z).
Context (recurseResolve' : LuaScript → M (option Z)).

(** The node [new_astnode] returns. *)
Definition loader_call (module_id : Z) : node :=
  CallExpression (Identifier "__OL__require" (Some true))
    [NumericLiteral (JsNumber module_id) (toString module_id)].

Definition new_astnode (module : string) : M node :=
  match getRequiredModule env entryScript script module with
  | NotFound => throw (ModuleNotFound module (path script))
  | LookupThrows => throw TypeError
  | Found required =>
      do module_id <- recurseResolve' required;
      match module_id with
      | Some module_id =>
          fun st => Ok (loader_call module_id, log_site (path required) module_id st)
      | None => throw TypeError
      end
  end.

(** [node.base.type == "Identifier" && node.base.name == "require"] *)
Definition is_require (base : node) : bool :=
  bool_decide (node_type base = "Identifier")
  && bool_decide (node_name base = Some "require").

(** [arg.value] where the code goes on to call [module.replace] on it. *)
Definition node_value_string (n : node) : option string :=
  match n with
  | StringLiteral v _ | VarargLiteral v _ => Some v
  | NumericLiteral (JsString v) _ => Some v
  | _ => None
  end.

Definition stringCallExpression_hook (n : node) : M node :=
  match n with
  | StringCallExpression base arg =>
      if is_require base then
        match node_value_string arg with
        | Some v => new_astnode v
        | None => throw TypeError
        end
      else ret n
  | _ => ret n
  end.

Definition callExpression_hook (n : node) : M node :=
  match n with
  | CallExpression base args =>
      if is_require base then
        match args with
        | [] => throw TypeError
        | first_arg :: _ =>
            if bool_decide (node_type first_arg ≠ "StringLiteral")
            then throw (InvalidRequireArgument (node_type first_arg))
            else
              match node_value_string first_arg with
              | Some v => new_astnode v
              | None => throw TypeError
              end
        end
      else ret n
  | _ => ret n
  end.

(** The condition of the [if] in the assignment hook, on [node.variables]. *)
Definition is_export_slot (variables : list node) : bool :=
  let v0 : option node := head variables in
  let v0_base : option node := v0 ≫= node_base in
  let v0_index : option node := v0 ≫= node_index in
  let v0_base_base : option node := v0_base ≫= node_base in
  let v0_base_identifier : option node := v0_base ≫= node_identifier in
  bool_decide (node_type <$> v0_base = Some "MemberExpression")
  && bool_decide (v0_base_base ≫= node_name = Some "package")
  && bool_decide (v0_base_identifier ≫= node_name = Some "loaded")
  && bool_decide (node_type <$> v0_index = Some "VarargLiteral")
  && from_option (fun i => node_value_is i "...") false v0_index.

(** The target that replaces [node.variables]. *)
Definition cache_write (id : Z) : node :=
  IndexExpression (Identifier "__OL__cached_packages" None)
    (NumericLiteral (JsNumber id) (toString id)).

Definition assignmentStatement_hook (n : node) : M node :=
  match n with
  | AssignmentStatement variables init =>
      if is_export_slot variables then
        if is_entry then throw InvalidExportPosition
        else fun st =>
          Ok (AssignmentStatement [cache_write thisModuleId] init,
              set_modulesIds (path script) thisModuleId st)
      else ret n
  | _ => ret n
  end.

Fixpoint rewrite (n : node) : M node :=
  match n with
  | Identifier _ _ | StringLiteral _ _ | NumericLiteral _ _ | VarargLiteral _ _ => ret n
  | MemberExpression ix idn b =>
      do b' <- rewrite b; do idn' <- rewrite idn; ret (MemberExpression ix idn' b')
  | IndexExpression b i =>
      do b' <- rewrite b; do i' <- rewrite i; ret (IndexExpression b' i')
  | CallExpression b args =>
      do b' <- rewrite b; do args' <- mapM rewrite args;
      callExpression_hook (CallExpression b' args')
  | TableCallExpression b arg =>
      do b' <- rewrite b; do arg' <- rewrite arg; ret (TableCallExpression b' arg')
  | StringCallExpression b arg =>
      do b' <- rewrite b; do arg' <- rewrite arg;
      stringCallExpression_hook (StringCallExpression b' arg')
  | TableConstructorExpression fields =>
      do fields' <- mapM rewrite fields; ret (TableConstructorExpression fields')
  | FunctionDeclaration idn loc params body =>
      do idn' <- optM rewrite idn; do params' <- mapM rewrite params;
      do body' <- mapM rewrite body; ret (FunctionDeclaration idn' loc params' body')
  | LocalStatement vars init =>
      do vars' <- mapM rewrite vars; do init' <- mapM rewrite init;
      ret (LocalStatement vars' init')
  | AssignmentStatement vars init =>
      do vars' <- mapM rewrite vars; do init' <- mapM rewrite init;
      assignmentStatement_hook (AssignmentStatement vars' init')
  | CallStatement e => do e' <- rewrite e; ret (CallStatement e')
  | ReturnStatement args => do args' <- mapM rewrite args; ret (ReturnStatement args')
  | IfStatement clauses => do clauses' <- mapM rewrite clauses; ret (IfStatement clauses')
  | IfClause c body =>
      do c' <- rewrite c; do body' <- mapM rewrite body; ret (IfClause c' body')
  | OtherNode t children => do children' <- mapM rewrite children; ret (OtherNode t children')
  end.

(** [luaparse.parse(script.contents, ...)] with the hooks installed. The
    hooks are the parser's own node constructors: they run while the file
    is read. On a file the parser rejects they have run on the trees
    completed before the error, so an exception of a hook there is raised
    instead of the syntax error. *)
Definition parse_with_hooks : M Chunk :=
  fun st =>
    match luaparse_parse env (path script) with
    | None =>
        (do built' <- mapM rewrite (luaparse_built env (path script));
         throw (SyntaxError (path script))) st
    | Some c =>
        (do body' <- mapM rewrite (chunk_body c);
         ret (mkChunk body' (chunk_comments c) (chunk_globals c))) st
    end.
End Hooks.

(** ** The traversal *)

(** [recurseResolve]; the fuel bounds the depth of nested activations. The
    entry activation returns [undefined], here [None]. *)
Fixpoint recurseResolve (env : Env) (entryScript : LuaScript) (fuel : nat)
    (script : LuaScript) (previousScript : option LuaScript) : M (option Z) :=
  match fuel with
  | O => fun _ => OutOfFuel
  | S fuel' => fun st =>
      let is_entry := bool_decide (previousScript = None) in
      let go : M (option Z) := fun st =>
        let thisModuleId := if is_entry then 0 else currModuleId st + 1 in
        let st := if is_entry then st else set_currModuleId (currModuleId st + 1) st in
        let st := set_modulesIds (path script) (-1) st in
        let st := log_parsed (path script) thisModuleId st in
        match parse_with_hooks env entryScript script is_entry thisModuleId
                (fun required => recurseResolve env entryScript fuel' required (Some script))
                st with
        | Ok (ast, st) =>
            if is_entry then Ok (None, set_mainAst ast st)
            else Ok (Some thisModuleId,
                     set_modulesAst thisModuleId ast
                       (set_modulesIds (path script) thisModuleId st))
        | Throw e => Throw e
        | OutOfFuel => OutOfFuel
        end in
      match modulesIds st !! path script with
      | Some resolvedId =>
          if bool_decide (0 < resolvedId) then Ok (Some resolvedId, st)
          else if bool_decide (resolvedId < 0) then
            match previousScript with
            | Some previous => Throw (CircularDependency (path script) (path previous))
            | None => Throw TypeError
            end
          else go st
      | None => go st
      end
  end.

(** ** The emitter *)

(** [Object.keys] of an object whose keys are module ids: JavaScript lists
    integer keys in ascending order, whatever the insertion order. *)
Definition Object_keys (m : gmap Z Chunk) : list Z :=
  merge_sort Z.le (map_to_list m).*1.

Definition local_identifier (name : string) : node := Identifier name (Some true).

(** [local <name>] with the given initialisers. *)
Definition local_statement (name : string) (init : list node) : node :=
  LocalStatement [local_identifier name] init.

(** [createRequireDef]; [key] comes from [Object.keys], so it is a string
    and the literal's [value] is that string. *)
Definition createRequireDef (key : Z) (ast : list node) : node :=
  AssignmentStatement
    [IndexExpression (local_identifier "__OL__packages")
       (NumericLiteral (JsString (toString key)) (toString key))]
    [FunctionDeclaration None false [] ast].

(** [__OL__cached_packages[id]] inside the loader *)
Definition cached_at_id : node :=
  IndexExpression (local_identifier "__OL__cached_packages") (local_identifier "id").

(** The four statements of the loader's body. *)
Definition loader_body : list node :=
  [ IfStatement [IfClause cached_at_id [ReturnStatement [cached_at_id]]];
    local_statement "package"
      [CallExpression
         (IndexExpression (local_identifier "__OL__packages") (local_identifier "id")) []];
    AssignmentStatement [cached_at_id] [local_identifier "package"];
    ReturnStatement [local_identifier "package"] ].

Definition loader_definition : node :=
  AssignmentStatement [local_identifier "__OL__require"]
    [FunctionDeclaration None false [local_identifier "id"] loader_body].

Definition push_body (finalAst : Chunk) (stmts : list node) : Chunk :=
  mkChunk (chunk_body finalAst ++ stmts) (chunk_comments finalAst) (chunk_globals finalAst).

Definition push_globals (finalAst : Chunk) (gs : list node) : Chunk :=
  mkChunk (chunk_body finalAst) (chunk_comments finalAst) (chunk_globals finalAst ++ gs).

(** [OLProcessor.#createFinalAst] *)
Definition createFinalAst (modulesIds : gmap string Z) (modulesAst : gmap Z Chunk)
    (mainAst : Chunk) : Chunk :=
  let finalAst := mkChunk [local_statement "__OL__require" []] [] [] in
  let finalAst :=
    push_body finalAst [local_statement "__OL__packages" [TableConstructorExpression []]] in
  let finalAst :=
    push_body finalAst
      [local_statement "__OL__cached_packages" [TableConstructorExpression []]] in
  let finalAst :=
    foldl (fun finalAst id =>
             match modulesAst !! id with
             | Some ast =>
                 push_globals
                   (push_body finalAst [createRequireDef id (chunk_body ast)])
                   (chunk_globals ast)
             | None => finalAst
             end)
      finalAst (Object_keys modulesAst) in
  let finalAst := push_body finalAst [loader_definition] in
  let finalAst := push_body finalAst (chunk_body mainAst) in
  push_globals finalAst (chunk_globals mainAst).

(** ** The processor *)

Record options := { debug : bool; minify : bool }.

(** The constructor of [OLProcessor]: the entry script, or the throw. *)
Definition OLProcessor_new (env : Env) (entry : string) : res LuaScript :=
  let entryScript := new_LuaScript env (path_resolve env entry) None in
  if script_exists env entryScript then Ok entryScript else Throw EntryNotFound.

(** The traversal from the entry script, started on empty tables. *)
Definition build (env : Env) (entry : string) (fuel : nat) : res state :=
  match OLProcessor_new env entry with
  | Ok entryScript =>
      match recurseResolve env entryScript fuel entryScript None init_state with
      | Ok (_, st) => Ok st
      | Throw e => Throw e
      | OutOfFuel => OutOfFuel
      end
  | Throw e => Throw e
  | OutOfFuel => OutOfFuel
  end.

(** [process()] up to [finalAst]. *)
Definition bundle (env : Env) (entry : string) (fuel : nat) : res Chunk :=
  match build env entry fuel with
  | Ok st =>
      match mainAst st with
      | Some main => Ok (createFinalAst (modulesIds st) (modulesAst st) main)
      | None => Throw TypeError
      end
  | Throw e => Throw e
  | OutOfFuel => OutOfFuel
  end.

(** [process()] *)
Definition process (env : Env) (entry : string) (opts : options) (fuel : nat) : res string :=
  match bundle env entry fuel with
  | Ok finalAst =>
      Ok (if minify opts then luamin_minify env finalAst else luaprint env finalAst)
  | Throw e => Throw e
  | OutOfFuel => OutOfFuel
  end.

(** ** The emitted loader at run time

    A Lua value is [nil], a boolean or a reference to an object; only [nil]
    and [false] are falsy. The run-time state is the table
    [__OL__cached_packages] (assigning [nil] to a key removes it) and a trace
    of the module bodies that started executing. A module body is a function
    of the loader it may call and of the state. *)
Module Runtime.
Inductive value :=
| VNil
| VBool (b : bool)
| VRef (addr : nat).

Definition truthy (v : value) : bool :=
  match v with VNil | VBool false => false | _ => true end.

Record rt := mkRt {
  cached_packages : gmap Z value;
  executed : list Z
}.

Definition rt_init : rt := mkRt ∅ [].

(** [t[k]] *)
Definition table_get (t : gmap Z value) (k : Z) : value := default VNil (t !! k).

(** [t[k] = v] *)
Definition table_set (t : gmap Z value) (k : Z) (v : value) : gmap Z value :=
  match v with VNil => delete k t | _ => <[k := v]> t end.

Definition set_cached (k : Z) (v : value) (s : rt) : rt :=
  mkRt (table_set (cached_packages s) k v) (executed s).

Definition log_executed (k : Z) (s : rt) : rt :=
  mkRt (cached_packages s) (executed s ++ [k]).

Definition loader := Z → rt → option (value * rt).

(** A module body: given the loader, runs on the state and returns the
    factory's result; [None] is a run-time error or an exhausted fuel. *)
Definition factory := loader → rt → option (value * rt).

(** [__OL__require]; [packages] is the table [__OL__packages]. The body of
    a factory is entered through [__OL__packages[id]()], where the trace
    records it. *)
Fixpoint OL_require (packages : gmap Z factory) (fuel : nat) (id : Z) (s : rt)
  : option (value * rt) :=
  match fuel with
  | O => None
  | S fuel' =>
      if truthy (table_get (cached_packages s) id)
      then Some (table_get (cached_packages s) id, s)
      else
        match packages !! id with
        | None => None
        | Some f =>
            match f (OL_require packages fuel') (log_executed id s) with
            | None => None
            | Some (package, s') => Some (package, set_cached id package s')
            end
        end
  end.
End Runtime.

(** ** Properties of the build state *)

#[global] Instance js_value_eq_dec : EqDecision js_value.
Proof. solve_decision. Defined.

#[global] Instance onelua_config_eq_dec : EqDecision onelua_config.
Proof. solve_decision. Defined.

#[global] Instance package_json_eq_dec : EqDecision package_json.
Proof. solve_decision. Defined.

#[global] Instance LuaPackage_eq_dec : EqDecision LuaPackage.
Proof. solve_decision. Defined.

#[global] Instance LuaScript_eq_dec : EqDecision LuaScript.
Proof. solve_decision. Defined.

(** The record of [p] is the marker [-1]: resolving in progress. *)
Definition in_progress (st : state) (p : string) : Prop :=
  modulesIds st !! p = Some (-1).

(** The record of [p] is its positive id. *)
Definition resolved (st : state) (p : string) (id : Z) : Prop :=
  modulesIds st !! p = Some id ∧ 0 < id.

(** What holds of the state all along a build whose entry script is at
    path [e]. *)
Record Inv (e : string) (st : state) : Prop := {
  inv_entry : ∃ rest, parsed st = (e, 0) :: rest;
  inv_cur : 0 ≤ currModuleId st;
  inv_ids : (parsed st).*2 = seqZ 0 (currModuleId st + 1);
  inv_nodup : NoDup (parsed st).*1;
  inv_dom : ∀ p, p ∈ (parsed st).*1 ↔ is_Some (modulesIds st !! p);
  inv_val : ∀ p v, modulesIds st !! p = Some v → v = -1 ∨ (0 < v ∧ (p, v) ∈ parsed st);
  inv_ast : ∀ k, is_Some (modulesAst st !! k) → 0 < k ∧ ∃ p, (p, k) ∈ parsed st;
  inv_sites : ∀ p i, (p, i) ∈ sites st → resolved st p i
}.

(** How a later state of the same build relates to an earlier one. *)
Record ext (st st' : state) : Prop := {
  ext_parsed : parsed st `prefix_of` parsed st';
  ext_sites : sites st `prefix_of` sites st';
  ext_cur : currModuleId st ≤ currModuleId st';
  ext_resolved : ∀ p v, resolved st p v → resolved st' p v;
  ext_back : ∀ p, in_progress st' p → in_progress st p;
  ext_ast : ∀ k, is_Some (modulesAst st !! k) → is_Some (modulesAst st' !! k);
  ext_done : ∀ p k, (p, k) ∈ parsed st' →
                    (p, k) ∈ parsed st ∨ is_Some (modulesAst st' !! k)
}.

(** Records in progress stay so, except maybe that of [s]. *)
Definition keeps_in_progress (s : string) (st st' : state) : Prop :=
  ∀ p, p ≠ s → in_progress st p → in_progress st' p.

(** ** Well-formed, acyclic projects *)

(** Every import call of the tree has a string literal as (first) argument,
    and [check] accepts the specifier. *)
Fixpoint imports_ok (check : string → bool) (n : node) : bool :=
  match n with
  | Identifier _ _ | StringLiteral _ _ | NumericLiteral _ _ | VarargLiteral _ _ => true
  | MemberExpression _ idn b => imports_ok check b && imports_ok check idn
  | IndexExpression b i => imports_ok check b && imports_ok check i
  | CallExpression b args =>
      imports_ok check b && forallb (imports_ok check) args
      && (if is_require b then
            match args with
            | StringLiteral v _ :: _ => check v
            | _ => false
            end
          else true)
  | TableCallExpression b arg => imports_ok check b && imports_ok check arg
  | StringCallExpression b arg =>
      imports_ok check b && imports_ok check arg
      && (if is_require b then
            match arg with
            | StringLiteral v _ => check v
            | _ => false
            end
          else true)
  | TableConstructorExpression fields => forallb (imports_ok check) fields
  | FunctionDeclaration idn _ params body =>
      from_option (imports_ok check) true idn
      && forallb (imports_ok check) params && forallb (imports_ok check) body
  | LocalStatement vars init =>
      forallb (imports_ok check) vars && forallb (imports_ok check) init
  | AssignmentStatement vars init =>
      forallb (imports_ok check) vars && forallb (imports_ok check) init
  | CallStatement e => imports_ok check e
  | ReturnStatement args => forallb (imports_ok check) args
  | IfStatement clauses => forallb (imports_ok check) clauses
  | IfClause c body => imports_ok check c && forallb (imports_ok check) body
  | OtherNode _ children => forallb (imports_ok check) children
  end.

(** No assignment of the tree has the export slot as its first target. *)
Fixpoint no_export (n : node) : bool :=
  match n with
  | Identifier _ _ | StringLiteral _ _ | NumericLiteral _ _ | VarargLiteral _ _ => true
  | MemberExpression _ idn b => no_export b && no_export idn
  | IndexExpression b i => no_export b && no_export i
  | CallExpression b args => no_export b && forallb no_export args
  | TableCallExpression b arg => no_export b && no_export arg
  | StringCallExpression b arg => no_export b && no_export arg
  | TableConstructorExpression fields => forallb no_export fields
  | FunctionDeclaration idn _ params body =>
      from_option no_export true idn && forallb no_export params && forallb no_export body
  | LocalStatement vars init => forallb no_export vars && forallb no_export init
  | AssignmentStatement vars init =>
      negb (is_export_slot vars) && forallb no_export vars && forallb no_export init
  | CallStatement e => no_export e
  | ReturnStatement args => forallb no_export args
  | IfStatement clauses => forallb no_export clauses
  | IfClause c body => no_export c && forallb no_export body
  | OtherNode _ children => forallb no_export children
  end.

Section Acyclic.
Context (env : Env) (entryScript : LuaScript).
Context (rank : string → nat) (scripts : list LuaScript).

(** The specifier resolves, from [s], to a script of the project that
    ranks strictly below [s]. *)
Definition import_target_ok (s : LuaScript) (module : string) : bool :=
  match getRequiredModule env entryScript s module with
  | Found c => bool_decide (c ∈ scripts) && bool_decide (rank (path c) < rank (path s))%nat
  | _ => false
  end.

Definition script_ok (s : LuaScript) : bool :=
  match luaparse_parse env (path s) with
  | Some c => forallb (imports_ok (import_target_ok s)) (chunk_body c)
  | None => false
  end.
End Acyclic.

(** The project reachable from [entry] is among [scripts], every import in
    it is well formed and leads to a lower rank (so the dependency graph has
    no cycle), every file parses, and the entry script has no export
    assignment. *)
Definition acyclic_project (env : Env) (entry : string) (rank : string → nat)
    (scripts : list LuaScript) : bool :=
  let entryScript := new_LuaScript env (path_resolve env entry) None in
  script_exists env entryScript
  && bool_decide (entryScript ∈ scripts)
  && forallb (script_ok env entryScript rank scripts) scripts
  && match luaparse_parse env (path entryScript) with
     | Some c => forallb no_export (chunk_body c)
     | None => false
     end.

(** ** The resolver, by the order of its strategies *)

Section Strategies.
Context (env : Env).

Definition file_candidate (dir file : string) (pkg : option LuaPackage)
  : option LuaScript :=
  let p := path_join env dir file in
  if fs_existsSync env p then Some (new_LuaScript env p pkg) else None.

Fixpoint first_match (candidates : list (option LuaScript)) (last : lookup) : lookup :=
  match candidates with
  | [] => last
  | Some s :: _ => Found s
  | None :: rest => first_match rest last
  end.

(** The four strategies, in order: beside the requiring script; in the
    entry directory of its package, when it has one; in the directory of
    the entry script, when it has none; among the installed packages. *)
Definition resolve_in_order (entryScript base_script : LuaScript) (module : string)
  : lookup :=
  let file := dots_to_slashes module +:+ ".lua" in
  first_match
    [ file_candidate (baseDir base_script) file (package base_script);
      pkg ← package base_script; file_candidate (mainDir pkg) file (Some pkg);
      match package base_script with
      | None => file_candidate (baseDir entryScript) file None
      | Some _ => None
      end ]
    (installed_lookup env (baseDir base_script) (dots_to_slashes module)).
End Strategies.

(** The constructor of a node, with a string call counted as a call: the
    hooks turn one into the other. *)
Definition kind (n : node) : nat :=
  match n with
  | Identifier _ _ => 0
  | StringLiteral _ _ => 1
  | NumericLiteral _ _ => 2
  | VarargLiteral _ _ => 3
  | MemberExpression _ _ _ => 4
  | IndexExpression _ _ => 5
  | CallExpression _ _ | StringCallExpression _ _ => 6
  | TableCallExpression _ _ => 7
  | TableConstructorExpression _ => 8
  | FunctionDeclaration _ _ _ _ => 9
  | LocalStatement _ _ => 10
  | AssignmentStatement _ _ => 11
  | CallStatement _ => 12
  | ReturnStatement _ => 13
  | IfStatement _ => 14
  | IfClause _ _ => 15
  | OtherNode _ _ => 16
  end%nat.

(** What one step of the rewrite pass of the script at path [s], whose id
    is [tid], does to a state that satisfies the invariant. *)
Definition script_rel (e s : string) (tid : Z) (st st' : state) : Prop :=
  Inv e st → (s, tid) ∈ parsed st →
  Inv e st' ∧ ext st st' ∧ keeps_in_progress s st st'.

(** What an activation that returns does. *)
Definition activation_post (e : string) (c : LuaScript) (st : state)
    (r : option Z) (st' : state) : Prop :=
  ∃ id, r = Some id ∧ Inv e st' ∧ ext st st'
        ∧ (∀ p, in_progress st p → in_progress st' p)
        ∧ resolved st' (path c) id.

(** What one step of the rewrite pass of the script at path [s] does when
    that script has no export assignment: its record stays in progress. *)
Definition stays_in_progress (e s : string) (tid : Z) (st st' : state) : Prop :=
  Inv e st → (s, tid) ∈ parsed st → in_progress st s →
  Inv e st' ∧ ext st st' ∧ in_progress st' s.

(** What the rewrite pass of a script keeps, from the state [st3] in which
    the pass started. *)
Definition pass_inv (e : string) (st3 st : state) : Prop := Inv e st ∧ ext st3 st.

(** The computation returned. *)
Definition succeeded {A} (r : res A) : bool :=
  match r with Ok _ => true | _ => false end.

(** No import call and no export assignment in the tree: nothing for the
    hooks to replace. *)
Definition untouched (n : node) : bool :=
  imports_ok (λ _, false) n && no_export n.

(** ** The bundle, told from the parser's trees

    What the rewritten tree of a script is, told from the tree the
    untouched parser gives and from the table [ids] of the ids recorded for
    the paths, with no reference to the hooks, to the state or to the order
    of the traversal. A call of [require] whose first argument is a string
    literal is the call of the loader on the id recorded for the path the
    specifier resolves to, by the four strategies in their order. A string
    call of [require] likewise; the code has no check on its argument,
    whose value is the specifier whatever literal it is. An assignment
    whose first target is [package.loaded[...]] is the write of its
    right-hand sides into the cache table at the id of the script. Every
    other node is as the parser gave it, around its linked children. There
    is no linked tree ([None]) where an import call has no string to
    resolve, where no positive id is recorded for the path it resolves to,
    or where the entry script has an export assignment. *)

Definition mapO {A B} (f : A → option B) : list A → option (list B) :=
  fix go (l : list A) : option (list B) :=
    match l with
    | [] => Some []
    | x :: tl => x' ← f x; tl' ← go tl; Some (x' :: tl')
    end.

Definition optO {A B} (f : A → option B) (o : option A) : option (option B) :=
  match o with
  | None => Some None
  | Some x => x' ← f x; Some (Some x')
  end.

(** The callee of an import call: the identifier [require]. *)
Definition is_import_callee (b : node) : bool :=
  match b with
  | Identifier name _ => String.eqb name "require"
  | _ => false
  end.

(** The export slot: [package.loaded[...]]. *)
Definition is_export_target (v : node) : bool :=
  match v with
  | IndexExpression (MemberExpression _ (Identifier field _) (Identifier table _))
      (VarargLiteral dots _) =>
      String.eqb table "package" && String.eqb field "loaded" && String.eqb dots "..."
  | _ => false
  end.

Section Linked.
Context (env : Env) (entryScript : LuaScript).
Context (script : LuaScript) (is_entry : bool) (thisModuleId : Z).
Context (ids : gmap string Z).

(** The loader call for a specifier. *)
Definition linked_import (module : string) : option node :=
  match resolve_in_order env entryScript script module with
  | Found required =>
      id ← ids !! path required;
      if bool_decide (0 < id)
      then Some (CallExpression (Identifier "__OL__require" (Some true))
                   [NumericLiteral (JsNumber id) (toString id)])
      else None
  | _ => None
  end.

Fixpoint linked (n : node) : option node :=
  match n with
  | Identifier _ _ | StringLiteral _ _ | NumericLiteral _ _ | VarargLiteral _ _ => Some n
  | MemberExpression ix idn b =>
      b' ← linked b; idn' ← linked idn; Some (MemberExpression ix idn' b')
  | IndexExpression b i =>
      b' ← linked b; i' ← linked i; Some (IndexExpression b' i')
  | CallExpression b args =>
      b' ← linked b; args' ← mapO linked args;
      if is_import_callee b then
        match args with
        | StringLiteral v _ :: _ => linked_import v
        | _ => None
        end
      else Some (CallExpression b' args')
  | TableCallExpression b arg =>
      b' ← linked b; arg' ← linked arg; Some (TableCallExpression b' arg')
  | StringCallExpression b arg =>
      b' ← linked b; arg' ← linked arg;
      if is_import_callee b then
        match arg with
        | StringLiteral v _ => linked_import v
        | VarargLiteral v _ => linked_import v
        | NumericLiteral (JsString v) _ => linked_import v
        | _ => None
        end
      else Some (StringCallExpression b' arg')
  | TableConstructorExpression fields =>
      fields' ← mapO linked fields; Some (TableConstructorExpression fields')
  | FunctionDeclaration idn loc params body =>
      idn' ← optO linked idn; params' ← mapO linked params;
      body' ← mapO linked body; Some (FunctionDeclaration idn' loc params' body')
  | LocalStatement vars init =>
      vars' ← mapO linked vars; init' ← mapO linked init;
      Some (LocalStatement vars' init')
  | AssignmentStatement vars init =>
      vars' ← mapO linked vars; init' ← mapO linked init;
      if from_option is_export_target false (head vars) then
        if is_entry then None
        else Some (AssignmentStatement
                     [IndexExpression (Identifier "__OL__cached_packages" None)
                        (NumericLiteral (JsNumber thisModuleId)
                           (toString thisModuleId))]
                     init')
      else Some (AssignmentStatement vars' init')
  | CallStatement e => e' ← linked e; Some (CallStatement e')
  | ReturnStatement args => args' ← mapO linked args; Some (ReturnStatement args')
  | IfStatement clauses => clauses' ← mapO linked clauses; Some (IfStatement clauses')
  | IfClause c body =>
      c' ← linked c; body' ← mapO linked body; Some (IfClause c' body')
  | OtherNode t children =>
      children' ← mapO linked children; Some (OtherNode t children')
  end.

(** The linked chunk of a parsed file: its statements linked, its
    comments and its globals as the parser gave them. *)
Definition linked_chunk (c : Chunk) : option Chunk :=
  body' ← mapO linked (chunk_body c);
  Some (mkChunk body' (chunk_comments c) (chunk_globals c)).
End Linked.

(** The table [ids] holds every positive id that [st] records. *)
Definition covers (st : state) (ids : gmap string Z) : Prop :=
  ∀ p v, resolved st p v → ids !! p = Some v.

(** Every tree stored in [modulesAst] is the linked chunk of the file of a
    script on the trace, for its id. *)
Definition stored_linked (env : Env) (entryScript : LuaScript) (st : state) : Prop :=
  ∀ k ast, modulesAst st !! k = Some ast →
    ∃ s c, (path s, k) ∈ parsed st
           ∧ luaparse_parse env (path s) = Some c
           ∧ ∀ ids, covers st ids → linked_chunk env entryScript s false k ids c = Some ast.

(** What holds of the state all along the rewrite pass of the script at
    path [s] with id [tid]. *)
Definition pass_state (env : Env) (entryScript : LuaScript) (e s : string) (tid : Z)
    (st : state) : Prop :=
  Inv e st ∧ (s, tid) ∈ parsed st ∧ stored_linked env entryScript st.

(** The step [m] of that pass keeps [pass_state], extends the state, and
    returns what [lk] gives from any table that holds the ids recorded when
    the step ends. *)
Definition step_ok {A} (env : Env) (entryScript : LuaScript) (e s : string) (tid : Z)
    (lk : gmap string Z → option A) (m : M A) : Prop :=
  ∀ st a st',
    pass_state env entryScript e s tid st → m st = Ok (a, st') →
    pass_state env entryScript e s tid st' ∧ ext st st'
    ∧ ∀ ids, covers st' ids → lk ids = Some a.

(** ** Sample projects

    A file system given by a list of parsed files, with plain POSIX paths;
    installed packages are given by their manifest and by what the [resolve]
    package answers for a specifier. *)
Module Sample.
Fixpoint dirname_aux (s : string) : option string :=
  match s with
  | EmptyString => None
  | String c r =>
      match dirname_aux r with
      | Some d => Some (String c d)
      | None => if bool_decide (c = "/"%char) then Some EmptyString else None
      end
  end.

Definition dirname (s : string) : string :=
  match dirname_aux s with
  | Some EmptyString => "/"
  | Some d => d
  | None => "."
  end.

Definition join (a b : string) : string :=
  if bool_decide (String.substring 0 1 b = "/") then a +:+ b else a +:+ "/" +:+ b.

Definition mk_env (files : list (string * Chunk))
    (manifests : list (string * package_json))
    (installed : list (string * resolver_result)) : Env :=
  {| fs_existsSync := fun p => bool_decide (is_Some ((list_to_map files : gmap string Chunk) !! p));
     path_dirname := dirname;
     path_join := join;
     path_resolve := fun p => p;
     path_resolve2 := join;
     require_json := fun p =>
       match (list_to_map manifests : gmap string package_json) !! p with
       | Some cfg => JsonObject cfg
       | None => JsonThrows
       end;
     resolver := fun module _ =>
       default {| nodeModPath := None; pkgPath := None |}
         ((list_to_map installed : gmap string resolver_result) !! module);
     luaparse_parse := fun p => (list_to_map files : gmap string Chunk) !! p;
     luaparse_built := fun _ => [];
     luamin_minify := fun _ => "";
     luaprint := fun _ => "" |}.

Definition chunk (body : list node) : Chunk := mkChunk body [] [].

Definition global (name : string) : node := Identifier name (Some false).

Definition str (s : string) : node := StringLiteral s ("'" +:+ s +:+ "'").

(** [require("<s>")] *)
Definition require_call (s : string) : node :=
  CallExpression (global "require") [str s].

(** [package.loaded[...]] *)
Definition export_slot : node :=
  IndexExpression (MemberExpression "." (Identifier "loaded" None) (global "package"))
    (VarargLiteral "..." "...").

(** [local <name> = {}] *)
Definition local_table (name : string) : node :=
  local_statement name [TableConstructorExpression []].

(** [return {}] *)
Definition return_table : node := ReturnStatement [TableConstructorExpression []].

(** [main.lua] requires [a] and [b]; [a.lua] requires [b]. *)
Definition shared : Env :=
  mk_env
    [ ("/proj/main.lua",
        chunk [ local_statement "a" [require_call "a"];
                local_statement "b" [require_call "b"] ]);
      ("/proj/a.lua", chunk [ local_statement "b" [require_call "b"]; return_table ]);
      ("/proj/b.lua", chunk [ return_table ]) ]
    [] [].

(** The state in which the build of [shared] ends. *)
Definition shared_state : state :=
  Eval vm_compute in
    match build shared "/proj/main.lua" 3 with
    | Ok st => st
    | _ => init_state
    end.

Definition shared_rank (p : string) : nat :=
  if bool_decide (p = "/proj/main.lua") then 2%nat
  else if bool_decide (p = "/proj/a.lua") then 1%nat else 0%nat.

Definition shared_scripts : list LuaScript :=
  [ new_LuaScript shared "/proj/main.lua" None;
    new_LuaScript shared "/proj/a.lua" None;
    new_LuaScript shared "/proj/b.lua" None ].

(** [a.lua] requires [b] and [b.lua] requires [a]. *)
Definition cycle : Env :=
  mk_env
    [ ("/proj/main.lua", chunk [ CallStatement (require_call "a") ]);
      ("/proj/a.lua", chunk [ CallStatement (require_call "b"); return_table ]);
      ("/proj/b.lua", chunk [ CallStatement (require_call "a"); return_table ]) ]
    [] [].

(** The same cycle, but [a.lua] starts with
    [local M = {}; package.loaded[...] = M]. *)
Definition cycle_after_export : Env :=
  mk_env
    [ ("/proj/main.lua", chunk [ CallStatement (require_call "a") ]);
      ("/proj/a.lua",
        chunk [ local_table "M";
                AssignmentStatement [export_slot] [local_identifier "M"];
                CallStatement (require_call "b") ]);
      ("/proj/b.lua", chunk [ CallStatement (require_call "a"); return_table ]) ]
    [] [].

(** [main.lua] is [require("m", x)]. *)
Definition extra_argument : Env :=
  mk_env
    [ ("/proj/main.lua",
        chunk [ CallStatement (CallExpression (global "require") [str "m"; global "x"]) ]);
      ("/proj/m.lua", chunk [ return_table ]) ]
    [] [].

(** [main.lua] is [require(x)]. *)
Definition variable_argument : Env :=
  mk_env
    [ ("/proj/main.lua",
        chunk [ CallStatement (CallExpression (global "require") [global "x"]) ]) ]
    [] [].

(** [main.lua] is [package.loaded[...] = M]. *)
Definition entry_exports : Env :=
  mk_env
    [ ("/proj/main.lua", chunk [ AssignmentStatement [export_slot] [global "M"] ]) ]
    [] [].

(** [main.lua] is [require("m"); require("m")] and [m.lua] is
    [local M = {}; print("loaded"); package.loaded[...] = M], with no
    [return]. *)
Definition required_twice : Env :=
  mk_env
    [ ("/proj/main.lua",
        chunk [ CallStatement (require_call "m"); CallStatement (require_call "m") ]);
      ("/proj/m.lua",
        chunk [ local_table "M";
                CallStatement (CallExpression (global "print") [str "loaded"]);
                AssignmentStatement [export_slot] [local_identifier "M"] ]) ]
    [] [].

(** The body of [m.lua] once bundled with id 1, as a factory: it runs
    [__OL__cached_packages[1] = M], where [M] is the table it made, and
    returns nothing. *)
Definition m_factory (M : Runtime.value) : Runtime.factory :=
  fun _ s => Some (Runtime.VNil, Runtime.set_cached 1 M s).

(** An installed package [dep] whose manifest names [src/start.lua]. *)
Definition dep_manifest : package_json :=
  {| pkg_onelua := Some {| onelua_main := Some "src/start.lua" |} |}.

Definition with_package : Env :=
  mk_env
    [ ("/proj/main.lua", chunk [ CallStatement (require_call "dep") ]);
      ("/proj/node_modules/dep/src/start.lua",
        chunk [ CallStatement (require_call "util"); return_table ]);
      ("/proj/node_modules/dep/src/util.lua", chunk [ return_table ]) ]
    [ ("/proj/node_modules/dep/package.json", dep_manifest) ]
    [ ("dep", {| nodeModPath := Some "/proj/node_modules/dep/src/start.lua";
                 pkgPath := Some "/proj/node_modules/dep" |}) ].

(** [main.lua] is [require("nope")], and there is no such file. *)
Definition missing_module : Env :=
  mk_env [ ("/proj/main.lua", chunk [ CallStatement (require_call "nope") ]) ] [] [].

(** [main.lua] is [require "m"]. *)
Definition string_call : Env :=
  mk_env
    [ ("/proj/main.lua",
        chunk [ CallStatement (StringCallExpression (global "require") (str "m")) ]);
      ("/proj/m.lua", chunk [ return_table ]) ]
    [] [].

(** [require{}], [obj.require("x")] and [package.loaded["x"] = M]: none of
    them is an import call or an export assignment for the hooks. *)
Definition lookalikes : list node :=
  [ CallStatement (TableCallExpression (global "require") (TableConstructorExpression []));
    CallStatement
      (CallExpression (MemberExpression "." (Identifier "require" None) (global "obj"))
         [str "x"]);
    AssignmentStatement
      [IndexExpression (MemberExpression "." (Identifier "loaded" None) (global "package"))
         (str "x")]
      [global "M"] ].

(** The resolver answers with a file that no manifest came with: a file
    put directly into [node_modules]. *)
Definition stray_file : Env :=
  mk_env
    [ ("/proj/main.lua", chunk [ CallStatement (require_call "stray") ]);
      ("/proj/node_modules/stray.lua", chunk [ return_table ]) ]
    []
    [ ("stray", {| nodeModPath := Some "/proj/node_modules/stray.lua";
                   pkgPath := None |}) ].

(** [main.lua] requires [a], and [a.lua] requires [main]. *)
Definition requires_entry : Env :=
  mk_env
    [ ("/proj/main.lua", chunk [ CallStatement (require_call "a") ]);
      ("/proj/a.lua", chunk [ CallStatement (require_call "main"); return_table ]) ]
    [] [].

(** [main.lua] requires [broken], a file the parser rejects after it has
    completed the trees [built]. *)
Definition rejecting (built : list node) : Env :=
  {| fs_existsSync := fun p =>
       bool_decide (p = "/proj/main.lua") || bool_decide (p = "/proj/broken.lua");
     path_dirname := dirname;
     path_join := join;
     path_resolve := fun p => p;
     path_resolve2 := join;
     require_json := fun _ => JsonThrows;
     resolver := fun _ _ => {| nodeModPath := None; pkgPath := None |};
     luaparse_parse := fun p =>
       if bool_decide (p = "/proj/main.lua")
       then Some (chunk [ CallStatement (require_call "broken") ])
       else None;
     luaparse_built := fun p =>
       if bool_decide (p = "/proj/broken.lua") then built else [];
     luamin_minify := fun _ => "";
     luaprint := fun _ => "" |}.

(** [broken.lua] is [print("x")] followed by text that is no statement. *)
Definition broken_module : Env :=
  rejecting [ CallStatement (CallExpression (global "print") [str "x"]) ].

(** [broken.lua] is [require("missing")] followed by text that is no
    statement, and there is no file for [missing]. *)
Definition broken_after_import : Env :=
  rejecting [ CallStatement (require_call "missing") ].

(** A factory that returns a table. *)
Definition table_factory : Runtime.factory :=
  fun _ s => Some (Runtime.VRef 0, s).
End Sample.

(** * Proofs *)

(** ** Induction on syntax trees, children included *)

Lemma node_induction (P : node → Prop) :
  (∀ name l, P (Identifier name l)) →
  (∀ v raw, P (StringLiteral v raw)) →
  (∀ v raw, P (NumericLiteral v raw)) →
  (∀ v raw, P (VarargLiteral v raw)) →
  (∀ ix idn b, P idn → P b → P (MemberExpression ix idn b)) →
  (∀ b i, P b → P i → P (IndexExpression b i)) →
  (∀ b args, P b → Forall P args → P (CallExpression b args)) →
  (∀ b arg, P b → P arg → P (TableCallExpression b arg)) →
  (∀ b arg, P b → P arg → P (StringCallExpression b arg)) →
  (∀ fields, Forall P fields → P (TableConstructorExpression fields)) →
  (∀ idn l params body, from_option P True idn → Forall P params → Forall P body →
     P (FunctionDeclaration idn l params body)) →
  (∀ vars init, Forall P vars → Forall P init → P (LocalStatement vars init)) →
  (∀ vars init, Forall P vars → Forall P init → P (AssignmentStatement vars init)) →
  (∀ e, P e → P (CallStatement e)) →
  (∀ args, Forall P args → P (ReturnStatement args)) →
  (∀ clauses, Forall P clauses → P (IfStatement clauses)) →
  (∀ c body, P c → Forall P body → P (IfClause c body)) →
  (∀ t children, Forall P children → P (OtherNode t children)) →
  ∀ n, P n.
Proof.
  intros HId HStr HNum HVar HMem HIdx HCall HTab HSCall HTCon HFun HLoc HAsg HCSt HRet
    HIf HCl HOth.
  fix IH 1.
  assert (IHl : ∀ l : list node, Forall P l).
  { fix IHl 1. intros [|x l]; constructor; [apply IH | apply IHl]. }
  intros [name l|v raw|v raw|v raw|ix idn b|b i|b args|b arg|b arg|fields
         |idn l params body|vars init|vars init|e|args|clauses|c body|t children].
  - apply HId.
  - apply HStr.
  - apply HNum.
  - apply HVar.
  - apply HMem; apply IH.
  - apply HIdx; apply IH.
  - apply HCall; [apply IH | apply IHl].
  - apply HTab; apply IH.
  - apply HSCall; apply IH.
  - apply HTCon, IHl.
  - apply HFun; [destruct idn; simpl; [apply IH | exact I] | apply IHl | apply IHl].
  - apply HLoc; apply IHl.
  - apply HAsg; apply IHl.
  - apply HCSt, IH.
  - apply HRet, IHl.
  - apply HIf, IHl.
  - apply HCl; [apply IH | apply IHl].
  - apply HOth, IHl.
Qed.

(** ** Running a computation to a result *)

Lemma bind_Ok {A B} (m : M A) (k : A → M B) st b st' :
  bind m k st = Ok (b, st') ↔ ∃ a st1, m st = Ok (a, st1) ∧ k a st1 = Ok (b, st').
Proof.
  unfold bind. split.
  - destruct (m st) as [[a st1]| |]; [eauto | discriminate | discriminate].
  - intros (a & st1 & -> & Hk). exact Hk.
Qed.

Lemma bind_Throw {A B} (m : M A) (k : A → M B) st e :
  m st = Throw e → bind m k st = Throw e.
Proof. unfold bind. intros ->. reflexivity. Qed.

Lemma bind_throw_Ok {A B} (m : M A) (e : error) st (r : B * state) :
  bind m (λ _, throw e) st = Ok r → False.
Proof. unfold bind, throw. destruct (m st) as [[a st1]| |]; discriminate. Qed.

Lemma bind_step {A B} (m : M A) (k : A → M B) st a st1 :
  m st = Ok (a, st1) → bind m k st = k a st1.
Proof. unfold bind. intros ->. reflexivity. Qed.

Lemma ret_Ok {A} (a b : A) st st' : ret a st = Ok (b, st') ↔ a = b ∧ st = st'.
Proof. unfold ret. split; [intros [= -> ->] | intros [-> ->]]; auto. Qed.

Lemma mapM_nil {A B} (f : A → M B) : mapM f [] = ret [].
Proof. reflexivity. Qed.

Lemma mapM_cons {A B} (f : A → M B) x l :
  mapM f (x :: l) = do x' <- f x; do l' <- mapM f l; ret (x' :: l').
Proof. reflexivity. Qed.

Arguments mapM : simpl never.

(** Splits a hypothesis [(do x <- m; k) st = Ok _] into its steps. *)
Ltac inv_M H :=
  repeat
    match type of H with
    | bind _ _ _ = Ok _ =>
        let a := fresh "a" in
        let st1 := fresh "st" in
        let H1 := fresh "Hstep" in
        apply bind_Ok in H; destruct H as (a & st1 & H1 & H)
    | ret _ _ = Ok _ => apply ret_Ok in H; destruct H as [<- <-]
    | throw _ _ = Ok _ => discriminate H
    end.

Lemma mapM_length {A B} (f : A → M B) l st l' st' :
  mapM f l st = Ok (l', st') → length l' = length l.
Proof.
  revert st l' st'. induction l as [|x l IH]; intros st l' st' H.
  - rewrite mapM_nil in H. inv_M H. reflexivity.
  - rewrite mapM_cons in H. inv_M H. simpl. f_equal. eauto.
Qed.

Lemma mapM_head {A B} (f : A → M B) x l st l' st' :
  mapM f (x :: l) st = Ok (l', st') →
  ∃ x' tl' st1, l' = x' :: tl' ∧ f x st = Ok (x', st1) ∧ mapM f l st1 = Ok (tl', st').
Proof. rewrite mapM_cons. intros H. inv_M H. eauto 7. Qed.

(** A relation that every step of [f] establishes holds along [mapM f]. *)
Lemma mapM_rel {A B} (f : A → M B) (R : state → state → Prop) l :
  (∀ st, R st st) → (∀ st1 st2 st3, R st1 st2 → R st2 st3 → R st1 st3) →
  Forall (λ x, ∀ st x' st', f x st = Ok (x', st') → R st st') l →
  ∀ st l' st', mapM f l st = Ok (l', st') → R st st'.
Proof.
  intros Hrefl Htrans. induction 1 as [|x l Hx _ IH]; intros st l' st' H.
  - rewrite mapM_nil in H. inv_M H. apply Hrefl.
  - rewrite mapM_cons in H. inv_M H. eapply Htrans; eauto.
Qed.

(** A relation that every step of [f] establishes on the elements that
    satisfy [P] holds along [mapM f] on a list of such elements. *)
Lemma mapM_rel_pre {A B} (f : A → M B) (R : state → state → Prop) (P : A → Prop) l :
  (∀ st, R st st) → (∀ st1 st2 st3, R st1 st2 → R st2 st3 → R st1 st3) →
  Forall (λ x, P x → ∀ st x' st', f x st = Ok (x', st') → R st st') l →
  Forall P l →
  ∀ st l' st', mapM f l st = Ok (l', st') → R st st'.
Proof.
  intros Hrefl Htrans HR HP. apply (mapM_rel f R l Hrefl Htrans).
  rewrite Forall_forall in HR, HP |- *. intros x Hx. apply HR; auto.
Qed.

Lemma imp_andb (P : Prop) (a b : bool) :
  (P → a && b = true) ↔ (P → a = true) ∧ (P → b = true).
Proof.
  split.
  - intros H. split; intros HP; specialize (H HP); apply andb_true_iff in H; tauto.
  - intros [Ha Hb] HP. apply andb_true_iff. auto.
Qed.

Lemma forallb_Forall {A} (f : A → bool) l :
  forallb f l = true ↔ Forall (λ x, f x = true) l.
Proof.
  induction l as [|x l IH]; simpl.
  - split; [constructor|done].
  - rewrite andb_true_iff, IH, Forall_cons. done.
Qed.

Lemma imp_forallb {A} (P : Prop) (f : A → bool) l :
  (P → forallb f l = true) ↔ Forall (λ x, P → f x = true) l.
Proof.
  induction l as [|x l IH]; simpl.
  - split; [constructor|done].
  - rewrite imp_andb, IH, Forall_cons. done.
Qed.


(** ** What the hooks return *)

Section HookFacts.
Context (env : Env) (entryScript : LuaScript).
Context (script : LuaScript) (is_entry : bool) (thisModuleId : Z).
Context (recurseResolve' : LuaScript → M (option Z)).

Abbreviation new_astnode := (new_astnode env entryScript script recurseResolve').
Abbreviation callExpression_hook := (callExpression_hook env entryScript script recurseResolve').
Abbreviation stringCallExpression_hook :=
  (stringCallExpression_hook env entryScript script recurseResolve').
Abbreviation assignmentStatement_hook := (assignmentStatement_hook script is_entry thisModuleId).
Abbreviation rw := (rewrite env entryScript script is_entry thisModuleId recurseResolve').

Lemma new_astnode_Ok module st n' st' :
  new_astnode module st = Ok (n', st') ↔
  ∃ required module_id st1,
    getRequiredModule env entryScript script module = Found required ∧
    recurseResolve' required st = Ok (Some module_id, st1) ∧
    n' = loader_call module_id ∧ st' = log_site (path required) module_id st1.
Proof.
  unfold new_astnode.
  destruct (getRequiredModule env entryScript script module) as [required| |].
  - rewrite bind_Ok. split.
    + intros ([module_id|] & st1 & Hrec & H); [|discriminate H].
      injection H as <- <-. eauto 8.
    + intros (r & module_id & st1 & [= <-] & Hrec & -> & ->). eauto.
  - split; [discriminate | intros (? & ? & ? & [=] & _)].
  - split; [discriminate | intros (? & ? & ? & [=] & _)].
Qed.

Lemma callExpression_hook_cases n st n' st' :
  callExpression_hook n st = Ok (n', st') →
  (n' = n ∧ st' = st) ∨ (∃ v, new_astnode v st = Ok (n', st')).
Proof.
  unfold callExpression_hook. intros H.
  repeat case_match; try discriminate H; eauto;
    apply ret_Ok in H as [<- <-]; auto.
Qed.

Lemma stringCallExpression_hook_cases n st n' st' :
  stringCallExpression_hook n st = Ok (n', st') →
  (n' = n ∧ st' = st) ∨ (∃ v, new_astnode v st = Ok (n', st')).
Proof.
  unfold stringCallExpression_hook. intros H.
  repeat case_match; try discriminate H; eauto;
    apply ret_Ok in H as [<- <-]; auto.
Qed.

Lemma assignmentStatement_hook_cases vars init st n' st' :
  assignmentStatement_hook (AssignmentStatement vars init) st = Ok (n', st') →
  (is_export_slot vars = false ∧ n' = AssignmentStatement vars init ∧ st' = st)
  ∨ (is_export_slot vars = true ∧ is_entry = false
     ∧ n' = AssignmentStatement [cache_write thisModuleId] init
     ∧ st' = set_modulesIds (path script) thisModuleId st).
Proof.
  unfold assignmentStatement_hook. intros H.
  destruct (is_export_slot vars); [destruct is_entry|].
  - discriminate H.
  - injection H as <- <-. auto.
  - apply ret_Ok in H as [<- <-]. auto.
Qed.

(** A node that carries a [name] is left as it is, and no other node is
    turned into one. *)
Lemma rewrite_name n st n' st' :
  rw n st = Ok (n', st') → node_name n' = node_name n.
Proof.
  destruct n; cbn [rewrite]; intros H; inv_M H; try reflexivity.
  - apply callExpression_hook_cases in H as [[-> _]|[v H]]; [reflexivity|].
    apply new_astnode_Ok in H as (? & ? & ? & _ & _ & -> & _). reflexivity.
  - apply stringCallExpression_hook_cases in H as [[-> _]|[v H]]; [reflexivity|].
    apply new_astnode_Ok in H as (? & ? & ? & _ & _ & -> & _). reflexivity.
  - apply assignmentStatement_hook_cases in H as [(_ & -> & _)|(_ & _ & -> & _)];
      reflexivity.
Qed.

Lemma is_require_name b : is_require b = bool_decide (node_name b = Some "require").
Proof.
  unfold is_require. destruct b; try reflexivity.
  cbn [node_name]. apply andb_false_r.
Qed.

Lemma rewrite_is_require n st n' st' :
  rw n st = Ok (n', st') → is_require n' = is_require n.
Proof. intros H. rewrite !is_require_name. by erewrite rewrite_name. Qed.
End HookFacts.

(** ** The export slot *)

(** The condition of the assignment hook holds exactly of a target list that
    starts with [<package>.<loaded>[...]]. *)
Lemma is_export_slot_spec vars :
  is_export_slot vars = true ↔
  ∃ ix idn bb raw rest,
    vars = IndexExpression (MemberExpression ix idn bb) (VarargLiteral "..." raw) :: rest
    ∧ node_name bb = Some "package" ∧ node_name idn = Some "loaded".
Proof.
  split.
  - destruct vars as [|v rest]; [discriminate|].
    unfold is_export_slot. cbn [head].
    rewrite !andb_true_iff, !bool_decide_eq_true.
    intros [[[[Ht Hb] Hi] Hty] Hv].
    destruct v as [| | | | |b i| | | | | | | | | | | |]; try discriminate Hty.
    cbn in Ht, Hb, Hi, Hty, Hv.
    destruct b as [| | | |ix idn bb| | | | | | | | | | | | |];
      try discriminate Ht; try discriminate Hb.
    destruct i as [| | |v raw| | | | | | | | | | | | | |];
      try discriminate Hty; try discriminate Hv.
    cbn in Hb, Hi, Hv. apply bool_decide_eq_true in Hv as ->.
    eauto 10.
  - intros (ix & idn & bb & raw & rest & -> & Hb & Hi).
    unfold is_export_slot. cbn. rewrite Hb, Hi. reflexivity.
Qed.

Section SlotFacts.
Context (env : Env) (entryScript : LuaScript).
Context (script : LuaScript) (is_entry : bool) (thisModuleId : Z).
Context (recurseResolve' : LuaScript → M (option Z)).

Abbreviation rw' := (rewrite env entryScript script is_entry thisModuleId recurseResolve').

Lemma rewrite_kind n st n' st' : rw' n st = Ok (n', st') → kind n' = kind n.
Proof.
  destruct n; cbn [rewrite]; intros H; inv_M H; try reflexivity.
  - apply callExpression_hook_cases in H as [[-> _]|[v H]]; [reflexivity|].
    apply new_astnode_Ok in H as (? & ? & ? & _ & _ & -> & _). reflexivity.
  - apply stringCallExpression_hook_cases in H as [[-> _]|[v H]]; [reflexivity|].
    apply new_astnode_Ok in H as (? & ? & ? & _ & _ & -> & _). reflexivity.
  - apply assignmentStatement_hook_cases in H as [(_ & -> & _)|(_ & _ & -> & _)];
      reflexivity.
Qed.

Lemma rewrite_IndexExpression b i st n' st' :
  rw' (IndexExpression b i) st = Ok (n', st') →
  ∃ b' i' st1, rw' b st = Ok (b', st1) ∧ rw' i st1 = Ok (i', st')
               ∧ n' = IndexExpression b' i'.
Proof.
  cbn [rewrite]. intros H.
  apply bind_Ok in H as (b' & st1 & Hb & H). apply bind_Ok in H as (i' & st2 & Hi & H).
  apply ret_Ok in H as [<- <-]. eauto 7.
Qed.

Lemma rewrite_MemberExpression ix idn bb st n' st' :
  rw' (MemberExpression ix idn bb) st = Ok (n', st') →
  ∃ idn' bb' st1, rw' bb st = Ok (bb', st1) ∧ rw' idn st1 = Ok (idn', st')
                  ∧ n' = MemberExpression ix idn' bb'.
Proof.
  cbn [rewrite]. intros H.
  apply bind_Ok in H as (b' & st1 & Hb & H). apply bind_Ok in H as (i' & st2 & Hi & H).
  apply ret_Ok in H as [<- <-]. eauto 7.
Qed.

Lemma rewrite_slot_head v st v' st' :
  rw' v st = Ok (v', st') → is_export_slot [v'] = is_export_slot [v].
Proof.
  intros H. apply eq_true_iff_eq. rewrite !is_export_slot_spec. split.
  - intros (ix & idn' & bb' & raw & rest & [= -> <-] & Hb & Hi).
    pose proof (rewrite_kind _ _ _ _ H) as Hk.
    destruct v as [| | | | |b i| | | | | | | | | | | |]; try discriminate Hk.
    apply rewrite_IndexExpression in H as (b' & i' & st1 & Hb' & Hi' & [= <- <-]).
    pose proof (rewrite_kind _ _ _ _ Hb') as Hkb.
    pose proof (rewrite_kind _ _ _ _ Hi') as Hki.
    destruct b as [| | | |ix0 idn bb| | | | | | | | | | | | |]; try discriminate Hkb.
    destruct i as [| | |v raw0| | | | | | | | | | | | | |]; try discriminate Hki.
    apply rewrite_MemberExpression in Hb' as (i1 & b1 & st2 & Hb1 & Hi1 & [= <- <- <-]).
    cbn [rewrite] in Hi'. apply ret_Ok in Hi' as [[= <- <-] _].
    apply rewrite_name in Hb1, Hi1.
    do 5 eexists. split; [reflexivity|]. split; congruence.
  - intros (ix & idn & bb & raw & rest & [= -> <-] & Hb & Hi).
    apply rewrite_IndexExpression in H as (b' & i' & st1 & Hb' & Hi' & ->).
    apply rewrite_MemberExpression in Hb' as (i1 & b1 & st2 & Hb1 & Hi1 & ->).
    cbn [rewrite] in Hi'. apply ret_Ok in Hi' as [<- _].
    apply rewrite_name in Hb1, Hi1.
    do 5 eexists. split; [reflexivity|]. split; congruence.
Qed.

Lemma is_export_slot_head v l : is_export_slot (v :: l) = is_export_slot [v].
Proof. reflexivity. Qed.

(** The hook sees the rewritten targets; they match exactly when the
    targets the parser built do. *)
Lemma rewrite_is_export_slot vars st vars' st' :
  mapM rw' vars st = Ok (vars', st') → is_export_slot vars' = is_export_slot vars.
Proof.
  destruct vars as [|v l]; intros H.
  - rewrite mapM_nil in H. inv_M H. reflexivity.
  - apply mapM_head in H as (v' & tl' & st1 & -> & Hv & _).
    rewrite (is_export_slot_head v'), (is_export_slot_head v).
    eapply rewrite_slot_head, Hv.
Qed.
End SlotFacts.

(** ** The emitter *)

Lemma StronglySorted_le_lt (l : list Z) :
  StronglySorted Z.le l → NoDup l → StronglySorted Z.lt l.
Proof.
  induction 1 as [|x l Hl IH Hx]; intros Hnd; [constructor|].
  apply NoDup_cons in Hnd as [Hnotin Hnd]. constructor; [auto|].
  rewrite Forall_forall in Hx |- *. intros y Hy.
  specialize (Hx y Hy). assert (x ≠ y) by (intros ->; auto). lia.
Qed.

Lemma Object_keys_sorted (m : gmap Z Chunk) : StronglySorted Z.lt (Object_keys m).
Proof.
  unfold Object_keys. apply StronglySorted_le_lt.
  - apply StronglySorted_merge_sort; apply _.
  - rewrite merge_sort_Permutation. apply NoDup_fst_map_to_list.
Qed.

Lemma elem_of_Object_keys (m : gmap Z Chunk) k : k ∈ Object_keys m ↔ is_Some (m !! k).
Proof.
  unfold Object_keys. rewrite merge_sort_Permutation, list_elem_of_fmap. split.
  - intros ([k' c] & -> & Hin). apply elem_of_map_to_list in Hin. eauto.
  - intros [c Hc]. exists (k, c). split; [reflexivity|]. by apply elem_of_map_to_list.
Qed.

(** The loop over [Object.keys(modulesAst)] appends one registry entry per
    key, in the order of the keys. *)
Lemma registry_loop (asts : gmap Z Chunk) keys finalAst :
  (∀ k, k ∈ keys → is_Some (asts !! k)) →
  ∃ bodies,
    Forall2 (λ k b, ∃ ast, asts !! k = Some ast ∧ b = chunk_body ast) keys bodies ∧
    chunk_body
      (foldl (λ finalAst id,
                match asts !! id with
                | Some ast =>
                    push_globals (push_body finalAst [createRequireDef id (chunk_body ast)])
                      (chunk_globals ast)
                | None => finalAst
                end) finalAst keys)
    = chunk_body finalAst ++ zip_with createRequireDef keys bodies.
Proof.
  revert finalAst. induction keys as [|k keys IH]; intros finalAst Hin.
  - exists []. split; [constructor|]. simpl. by rewrite app_nil_r.
  - destruct (Hin k) as [ast Hast]; [by left|].
    destruct (IH (push_globals (push_body finalAst [createRequireDef k (chunk_body ast)])
                    (chunk_globals ast))) as (bodies & Hb & Heq).
    { intros k' Hk'. apply Hin. by right. }
    exists (chunk_body ast :: bodies). split.
    + constructor; eauto.
    + simpl. rewrite Hast, Heq. simpl. by rewrite <- app_assoc.
Qed.

(** C6. The emitted program is, in this order: the forward declaration of
    the loader; the empty registry and the empty cache; one registry entry
    per key of [modulesAst], keys ascending, each a write of a function
    without parameters whose body is that module's rewritten body; the
    loader's definition, whose body returns the cached value when there is
    one and otherwise calls the factory, stores the result and returns it;
    then the statements of the entry script. *)
Theorem createFinalAst_layout (ids : gmap string Z) (asts : gmap Z Chunk) (main : Chunk) :
  ∃ keys bodies,
    StronglySorted Z.lt keys ∧
    (∀ k, k ∈ keys ↔ is_Some (asts !! k)) ∧
    Forall2 (λ k b, ∃ ast, asts !! k = Some ast ∧ b = chunk_body ast) keys bodies ∧
    chunk_body (createFinalAst ids asts main) =
      [ LocalStatement [Identifier "__OL__require" (Some true)] [] ] ++
      [ LocalStatement [Identifier "__OL__packages" (Some true)]
          [TableConstructorExpression []];
        LocalStatement [Identifier "__OL__cached_packages" (Some true)]
          [TableConstructorExpression []] ] ++
      zip_with
        (λ k b,
           AssignmentStatement
             [IndexExpression (Identifier "__OL__packages" (Some true))
                (NumericLiteral (JsString (toString k)) (toString k))]
             [FunctionDeclaration None false [] b])
        keys bodies ++
      [ AssignmentStatement [Identifier "__OL__require" (Some true)]
          [FunctionDeclaration None false [Identifier "id" (Some true)]
             [ IfStatement
                 [IfClause
                    (IndexExpression (Identifier "__OL__cached_packages" (Some true))
                       (Identifier "id" (Some true)))
                    [ReturnStatement
                       [IndexExpression (Identifier "__OL__cached_packages" (Some true))
                          (Identifier "id" (Some true))]]];
               LocalStatement [Identifier "package" (Some true)]
                 [CallExpression
                    (IndexExpression (Identifier "__OL__packages" (Some true))
                       (Identifier "id" (Some true))) []];
               AssignmentStatement
                 [IndexExpression (Identifier "__OL__cached_packages" (Some true))
                    (Identifier "id" (Some true))]
                 [Identifier "package" (Some true)];
               ReturnStatement [Identifier "package" (Some true)] ]] ] ++
      chunk_body main.
Proof.
  destruct (registry_loop asts (Object_keys asts)
              (push_body
                 (push_body (mkChunk [local_statement "__OL__require" []] [] [])
                    [local_statement "__OL__packages" [TableConstructorExpression []]])
                 [local_statement "__OL__cached_packages" [TableConstructorExpression []]]))
    as (bodies & Hbodies & Heq).
  { intros k Hk. by apply elem_of_Object_keys. }
  exists (Object_keys asts), bodies. split; [apply Object_keys_sorted|].
  split; [apply elem_of_Object_keys|]. split; [exact Hbodies|].
  unfold createFinalAst. cbn [chunk_body push_globals push_body].
  rewrite Heq. cbn [chunk_body push_body app].
  rewrite <- !app_assoc. reflexivity.
Qed.

(** ** The resolver *)

(** C4. Resolution is the first match of the four strategies in their
    order, and the lookup among installed packages finds a script only in a
    package whose manifest declares its entry file. *)
Theorem getRequiredModule_in_order env (entryScript base_script : LuaScript) module :
  getRequiredModule env entryScript base_script module
  = resolve_in_order env entryScript base_script module
  ∧ (∀ s, installed_lookup env (baseDir base_script) (dots_to_slashes module) = Found s →
       ∃ dir cfg main pkg,
         pkgPath (resolver env (dots_to_slashes module) (baseDir base_script)) = Some dir
         ∧ require_json env (path_join env dir "/package.json") = JsonObject cfg
         ∧ (pkg_onelua cfg ≫= onelua_main) = Some main
         ∧ package s = Some pkg ∧ packageConfig pkg = cfg)
  ∧ (∀ dir cfg,
       pkgPath (resolver env (dots_to_slashes module) (baseDir base_script)) = Some dir →
       require_json env (path_join env dir "/package.json") = JsonObject cfg →
       (pkg_onelua cfg ≫= onelua_main) = None →
       installed_lookup env (baseDir base_script) (dots_to_slashes module) = NotFound).
Proof.
  split; [|split].
  - unfold getRequiredModule, resolve_in_order, file_candidate. cbn [first_match].
    destruct (fs_existsSync env (path_join env (baseDir base_script) _)); [reflexivity|].
    destruct (package base_script) as [pkg|]; cbn.
    + destruct (fs_existsSync env (path_join env (mainDir pkg) _)); reflexivity.
    + destruct (fs_existsSync env (path_join env (baseDir entryScript) _)); reflexivity.
  - intros s. unfold installed_lookup, fromPackageJson, declared_main.
    destruct (nodeModPath _) as [p|]; [|discriminate].
    destruct (pkgPath _) as [dir|]; [|discriminate].
    destruct (require_json env _) as [| |cfg] eqn:Hj; try discriminate.
    destruct (pkg_onelua cfg) as [o|] eqn:Ho; [|discriminate].
    destruct (onelua_main o) as [m|] eqn:Hm; [|discriminate].
    case_bool_decide; [discriminate|].
    destruct (fs_existsSync env _); [|discriminate].
    intros [= <-]. exists dir, cfg, m. eexists. rewrite Ho. cbn. rewrite Hm.
    repeat split; first [exact Hj | reflexivity].
  - intros dir cfg Hdir Hjson Hmain.
    unfold installed_lookup, fromPackageJson, declared_main.
    rewrite Hdir, Hjson.
    destruct (nodeModPath _); [|reflexivity].
    destruct (pkg_onelua cfg) as [o|]; [|reflexivity].
    cbn in Hmain. rewrite Hmain. reflexivity.
Qed.

(** ** The rewrites of import calls and export assignments *)

Lemma mapM_throw {A B} (f : A → M B) pre x post st pre' st1 e :
  mapM f pre st = Ok (pre', st1) → f x st1 = Throw e →
  mapM f (pre ++ x :: post) st = Throw e.
Proof.
  revert st pre'. induction pre as [|y pre IH]; intros st pre' Hpre Hx.
  - rewrite mapM_nil in Hpre. apply ret_Ok in Hpre as [_ ->].
    simpl. rewrite mapM_cons. by apply bind_Throw.
  - apply mapM_head in Hpre as (y' & tl' & st2 & -> & Hy & Hpre).
    simpl. rewrite mapM_cons. rewrite (bind_step _ _ _ _ _ Hy).
    apply bind_Throw. eapply IH; eauto.
Qed.

(** The state in which the entry script is parsed. *)
Lemma recurseResolve_entry env entryScript fuel :
  recurseResolve env entryScript (S fuel) entryScript None init_state
  = match parse_with_hooks env entryScript entryScript true 0
            (λ required, recurseResolve env entryScript fuel required (Some entryScript))
            (log_parsed (path entryScript) 0
               (set_modulesIds (path entryScript) (-1) init_state)) with
    | Ok (ast, st) => Ok (None, set_mainAst ast st)
    | Throw e => Throw e
    | OutOfFuel => OutOfFuel
    end.
Proof. reflexivity. Qed.

(** An exception raised while the entry script is parsed leaves [process]
    without a result. *)
Lemma entry_throw_no_artifact env entry opts fuel entryScript e :
  OLProcessor_new env entry = Ok entryScript →
  parse_with_hooks env entryScript entryScript true 0
    (λ required, recurseResolve env entryScript fuel required (Some entryScript))
    (log_parsed (path entryScript) 0 (set_modulesIds (path entryScript) (-1) init_state))
  = Throw e →
  process env entry opts (S fuel) = Throw e.
Proof.
  intros Hnew Hparse. unfold process, bundle, build.
  rewrite Hnew, recurseResolve_entry, Hparse. reflexivity.
Qed.

(** An exception raised while a required script is parsed is an exception
    of the activation. *)
Lemma module_throw_propagates env entryScript fuel script previous st e :
  modulesIds st !! path script = None →
  parse_with_hooks env entryScript script false (currModuleId st + 1)
    (λ required, recurseResolve env entryScript fuel required (Some script))
    (log_parsed (path script) (currModuleId st + 1)
       (set_modulesIds (path script) (-1) (set_currModuleId (currModuleId st + 1) st)))
  = Throw e →
  recurseResolve env entryScript (S fuel) script (Some previous) st = Throw e.
Proof. intros Hnone Hparse. cbn. rewrite Hnone. cbn in Hparse. by rewrite Hparse. Qed.

Section HookClaims.
Context (env : Env) (entryScript : LuaScript).
Context (script : LuaScript) (is_entry : bool) (thisModuleId : Z).
Context (recurseResolve' : LuaScript → M (option Z)).

Abbreviation rw := (rewrite env entryScript script is_entry thisModuleId recurseResolve').

Lemma assignment_hook_on_slot vars init st vars' init' st1 st2 :
  is_export_slot vars = true →
  mapM rw vars st = Ok (vars', st1) →
  mapM rw init st1 = Ok (init', st2) →
  rw (AssignmentStatement vars init) st
  = if is_entry then Throw InvalidExportPosition
    else Ok (AssignmentStatement
               [IndexExpression (Identifier "__OL__cached_packages" None)
                  (NumericLiteral (JsNumber thisModuleId) (toString thisModuleId))]
               init',
             set_modulesIds (path script) thisModuleId st2).
Proof.
  intros Hslot Hvars Hinit. cbn [rewrite].
  rewrite (bind_step _ _ _ _ _ Hvars), (bind_step _ _ _ _ _ Hinit).
  unfold assignmentStatement_hook.
  rewrite (rewrite_is_export_slot _ _ _ _ _ _ _ _ _ _ Hvars), Hslot.
  destruct is_entry; reflexivity.
Qed.

(** C9. With several targets of which the first is the export slot, the
    rewritten assignment has the cache write as its only target: the other
    targets are gone, and every right-hand side is kept. *)
Theorem export_assignment_drops_other_targets vars init st vars' init' st1 st2 :
  is_entry = false →
  (1 < length vars)%nat →
  is_export_slot vars = true →
  mapM rw vars st = Ok (vars', st1) →
  mapM rw init st1 = Ok (init', st2) →
  ∃ targets,
    rw (AssignmentStatement vars init) st
    = Ok (AssignmentStatement targets init',
          set_modulesIds (path script) thisModuleId st2)
    ∧ targets
      = [IndexExpression (Identifier "__OL__cached_packages" None)
           (NumericLiteral (JsNumber thisModuleId) (toString thisModuleId))]
    ∧ (length targets < length vars')%nat
    ∧ length init' = length init.
Proof.
  intros Hentry Hlen Hslot Hvars Hinit. exists [cache_write thisModuleId].
  split; [|split; [reflexivity|split]].
  - cbn [rewrite].
    rewrite (bind_step _ _ _ _ _ Hvars), (bind_step _ _ _ _ _ Hinit).
    unfold assignmentStatement_hook.
    rewrite (rewrite_is_export_slot _ _ _ _ _ _ _ _ _ _ Hvars), Hslot, Hentry.
    reflexivity.
  - rewrite (mapM_length _ _ _ _ _ Hvars). exact Hlen.
  - exact (mapM_length _ _ _ _ _ Hinit).
Qed.

(** C10. A call [require(...)] whose first argument is a string literal
    is replaced by a call of the loader with one argument, the numeric
    literal of the id that the specifier resolved to; the other arguments
    do not appear in it. *)
Theorem import_call_keeps_first_argument
    b args st b' st1 v raw rest' st2 required module_id st3 :
  rw b st = Ok (b', st1) →
  is_require b' = true →
  mapM rw args st1 = Ok (StringLiteral v raw :: rest', st2) →
  getRequiredModule env entryScript script v = Found required →
  recurseResolve' required st2 = Ok (Some module_id, st3) →
  rw (CallExpression b args) st
  = Ok (CallExpression (Identifier "__OL__require" (Some true))
          [NumericLiteral (JsNumber module_id) (toString module_id)],
        log_site (path required) module_id st3).
Proof.
  intros Hb Hreq Hargs Hfound Hrec. cbn [rewrite].
  rewrite (bind_step _ _ _ _ _ Hb), (bind_step _ _ _ _ _ Hargs).
  unfold callExpression_hook. rewrite Hreq.
  rewrite bool_decide_eq_false_2 by (intros H; apply H; reflexivity).
  cbn [node_value_string]. apply new_astnode_Ok. eauto 10.
Qed.

Lemma call_hook_on_other_argument b args st b' st1 first_arg rest' st2 :
  rw b st = Ok (b', st1) →
  is_require b' = true →
  mapM rw args st1 = Ok (first_arg :: rest', st2) →
  node_type first_arg ≠ "StringLiteral" →
  rw (CallExpression b args) st = Throw (InvalidRequireArgument (node_type first_arg)).
Proof.
  intros Hb Hreq Hargs Htype. cbn [rewrite].
  rewrite (bind_step _ _ _ _ _ Hb), (bind_step _ _ _ _ _ Hargs).
  unfold callExpression_hook. rewrite Hreq, bool_decide_eq_true_2 by exact Htype.
  reflexivity.
Qed.
End HookClaims.

(** An exception raised while a statement of the entry script is rewritten
    leaves [process] without a result. *)
Lemma entry_statement_throw env entry opts fuel entryScript c pre stmt post pre' st0 e :
  OLProcessor_new env entry = Ok entryScript →
  luaparse_parse env (path entryScript) = Some c →
  chunk_body c = pre ++ stmt :: post →
  let rw := rewrite env entryScript entryScript true 0
              (λ required, recurseResolve env entryScript fuel required (Some entryScript)) in
  mapM rw pre
    (log_parsed (path entryScript) 0 (set_modulesIds (path entryScript) (-1) init_state))
  = Ok (pre', st0) →
  rw stmt st0 = Throw e →
  process env entry opts (S fuel) = Throw e.
Proof.
  intros Hnew Hc Hbody rw Hpre Hstmt.
  apply (entry_throw_no_artifact _ _ _ _ _ _ Hnew).
  unfold parse_with_hooks. rewrite Hc, Hbody.
  apply bind_Throw. eapply mapM_throw; eauto.
Qed.

(** C7. An assignment whose first target is the export slot
    [package.loaded[...]] is rewritten, in a required module, into a write
    to [__OL__cached_packages] at the module's own id (and the module's
    record becomes that id); in the entry script it raises
    InvalidExportPosition, and [process] ends with that exception. *)
Theorem export_assignment_rewrite :
  (∀ env entryScript script is_entry thisModuleId recurseResolve'
     vars init st vars' init' st1 st2,
     let rw := rewrite env entryScript script is_entry thisModuleId recurseResolve' in
     is_export_slot vars = true →
     mapM rw vars st = Ok (vars', st1) →
     mapM rw init st1 = Ok (init', st2) →
     rw (AssignmentStatement vars init) st
     = if is_entry then Throw InvalidExportPosition
       else Ok (AssignmentStatement
                  [IndexExpression (Identifier "__OL__cached_packages" None)
                     (NumericLiteral (JsNumber thisModuleId) (toString thisModuleId))]
                  init',
                set_modulesIds (path script) thisModuleId st2))
  ∧ (∀ env entry opts fuel entryScript c pre vars init post pre' st0 vars' st1 init' st2,
       let rw := rewrite env entryScript entryScript true 0
                   (λ required,
                      recurseResolve env entryScript fuel required (Some entryScript)) in
       OLProcessor_new env entry = Ok entryScript →
       luaparse_parse env (path entryScript) = Some c →
       chunk_body c = pre ++ AssignmentStatement vars init :: post →
       mapM rw pre
         (log_parsed (path entryScript) 0
            (set_modulesIds (path entryScript) (-1) init_state))
       = Ok (pre', st0) →
       is_export_slot vars = true →
       mapM rw vars st0 = Ok (vars', st1) →
       mapM rw init st1 = Ok (init', st2) →
       process env entry opts (S fuel) = Throw InvalidExportPosition).
Proof.
  split.
  - intros. by eapply assignment_hook_on_slot.
  - intros env entry opts fuel es c pre vars init post pre' st0 vars' st1 init' st2 rw
      Hnew Hc Hbody Hpre Hslot Hvars Hinit.
    eapply entry_statement_throw; eauto.
    by rewrite (assignment_hook_on_slot _ _ _ _ _ _ _ _ _ _ _ _ _ Hslot Hvars Hinit).
Qed.

(** C8, as the code has it. A call [require(...)] whose first argument is
    there and is not a string literal raises InvalidRequireArgument; when
    the call is a statement of the entry script, [process] ends with that
    exception. *)
Theorem import_call_first_argument_checked :
  (∀ env entryScript script is_entry thisModuleId recurseResolve'
     b args st b' st1 first_arg rest' st2,
     let rw := rewrite env entryScript script is_entry thisModuleId recurseResolve' in
     rw b st = Ok (b', st1) →
     is_require b' = true →
     mapM rw args st1 = Ok (first_arg :: rest', st2) →
     node_type first_arg ≠ "StringLiteral" →
     rw (CallExpression b args) st = Throw (InvalidRequireArgument (node_type first_arg)))
  ∧ (∀ env entry opts fuel entryScript c pre b args post pre' st0 b' st1 first_arg rest' st2,
       let rw := rewrite env entryScript entryScript true 0
                   (λ required,
                      recurseResolve env entryScript fuel required (Some entryScript)) in
       OLProcessor_new env entry = Ok entryScript →
       luaparse_parse env (path entryScript) = Some c →
       chunk_body c = pre ++ CallStatement (CallExpression b args) :: post →
       mapM rw pre
         (log_parsed (path entryScript) 0
            (set_modulesIds (path entryScript) (-1) init_state))
       = Ok (pre', st0) →
       rw b st0 = Ok (b', st1) →
       is_require b' = true →
       mapM rw args st1 = Ok (first_arg :: rest', st2) →
       node_type first_arg ≠ "StringLiteral" →
       process env entry opts (S fuel)
       = Throw (InvalidRequireArgument (node_type first_arg))).
Proof.
  split.
  - intros. by eapply call_hook_on_other_argument.
  - intros env entry opts fuel es c pre b args post pre' st0 b' st1 first_arg rest' st2 rw
      Hnew Hc Hbody Hpre Hb Hreq Hargs Htype.
    eapply entry_statement_throw; eauto.
    cbn [rewrite]. apply bind_Throw.
    by eapply call_hook_on_other_argument.
Qed.

(** ** A relation kept by every step of the rewrite pass *)

Lemma optM_rel_pre {A B} (f : A → M B) (R : state → state → Prop) (P : A → Prop) o :
  (∀ st, R st st) →
  from_option (λ x, P x → ∀ st x' st', f x st = Ok (x', st') → R st st') True o →
  from_option P True o →
  ∀ st o' st', optM f o st = Ok (o', st') → R st st'.
Proof.
  intros Hrefl Ho HP st o' st' H. destruct o as [x|]; simpl in *.
  - apply bind_Ok in H as (x' & st1 & Hx & H). apply ret_Ok in H as [_ <-]. eauto.
  - apply ret_Ok in H as [_ <-]. apply Hrefl.
Qed.

Lemma imp_from_option {A} (P : Prop) (f : A → bool) o :
  (P → from_option f true o = true) ↔ from_option (λ x, P → f x = true) True o.
Proof. destruct o; simpl; tauto. Qed.

Section RewriteRel.
Context (env : Env) (entryScript : LuaScript).
Context (script : LuaScript) (is_entry : bool) (thisModuleId : Z).
Context (recurseResolve' : LuaScript → M (option Z)).
Context (R : state → state → Prop) (exports : bool).

Hypothesis R_refl : ∀ st, R st st.
Hypothesis R_trans : ∀ st1 st2 st3, R st1 st2 → R st2 st3 → R st1 st3.
Hypothesis R_import : ∀ module required st module_id st1,
  getRequiredModule env entryScript script module = Found required →
  recurseResolve' required st = Ok (Some module_id, st1) →
  R st (log_site (path required) module_id st1).
Hypothesis R_export : exports = true → is_entry = false →
  ∀ st, R st (set_modulesIds (path script) thisModuleId st).

Abbreviation rwR := (rewrite env entryScript script is_entry thisModuleId recurseResolve').

Lemma new_astnode_rel module st n' st' :
  new_astnode env entryScript script recurseResolve' module st = Ok (n', st') → R st st'.
Proof.
  intros H. apply new_astnode_Ok in H as (required & id & st1 & Hf & Hrec & _ & ->).
  eauto.
Qed.

(** When [exports] is off, the trees are those without an export
    assignment. *)
Lemma rewrite_rel n :
  (exports = false → no_export n = true) →
  ∀ st n' st', rwR n st = Ok (n', st') → R st st'.
Proof.
  induction n using node_induction; cbn [no_export]; intros Hexp st n' st' Hrw;
    cbn [rewrite] in Hrw;
    repeat match goal with
      | H : _ → _ && _ = true |- _ => apply imp_andb in H as [? ?]
      | H : _ → forallb _ _ = true |- _ => apply imp_forallb in H
      | H : _ → from_option _ true _ = true |- _ => apply imp_from_option in H
      | H : Forall (λ n, (_ → no_export n = true) → _) ?l,
        H1 : Forall (λ x, _ → no_export x = true) ?l |- _ =>
          pose proof (mapM_rel_pre rwR R _ l R_refl R_trans H H1); clear H
      | H : from_option (λ n, (_ → no_export n = true) → _) True ?o,
        H1 : from_option (λ x, _ → no_export x = true) True ?o |- _ =>
          pose proof (optM_rel_pre rwR R _ o R_refl H H1); clear H
      end;
    repeat match type of Hrw with
      | bind _ _ _ = Ok _ =>
          let H1 := fresh "Hstep" in
          let s1 := fresh "st" in
          apply bind_Ok in Hrw as (? & s1 & H1 & Hrw);
          apply (R_trans _ s1); [solve [eauto]|]
      end.
  all: try (apply ret_Ok in Hrw as [_ <-]; apply R_refl).
  - apply callExpression_hook_cases in Hrw as [[_ ->]|[v Hrw]];
      [apply R_refl | eapply new_astnode_rel, Hrw].
  - apply stringCallExpression_hook_cases in Hrw as [[_ ->]|[v Hrw]];
      [apply R_refl | eapply new_astnode_rel, Hrw].
  - apply assignmentStatement_hook_cases in Hrw as [(_ & _ & ->)|(Hslot & He & _ & ->)];
      [apply R_refl|].
    destruct exports eqn:Hexports; [by apply R_export|].
    match goal with
    | Hs : mapM _ vars _ = Ok _, Hn : false = false → negb _ = true |- _ =>
        rewrite (rewrite_is_export_slot _ _ _ _ _ _ _ _ _ _ Hs) in Hslot;
        specialize (Hn eq_refl); rewrite Hslot in Hn; discriminate Hn
    end.
Qed.

Lemma parse_with_hooks_rel st ast st' :
  (exports = false →
   ∃ c, luaparse_parse env (path script) = Some c
        ∧ forallb no_export (chunk_body c) = true) →
  parse_with_hooks env entryScript script is_entry thisModuleId recurseResolve' st
  = Ok (ast, st') → R st st'.
Proof.
  intros Hexp. unfold parse_with_hooks.
  destruct (luaparse_parse env (path script)) as [c|];
    [|intros H; by apply bind_throw_Ok in H].
  intros H. apply bind_Ok in H as (body' & st1 & Hbody & H).
  apply ret_Ok in H as [_ <-].
  eapply (mapM_rel_pre rwR R (λ n, exports = false → no_export n = true));
    [exact R_refl|exact R_trans| | |exact Hbody].
  - apply Forall_forall. intros n _. apply rewrite_rel.
  - apply imp_forallb. intros He. destruct (Hexp He) as (c' & [= <-] & Hc). exact Hc.
Qed.
End RewriteRel.

(** ** The three ways an activation goes *)

Lemma recurseResolve_resolved env entryScript fuel script previousScript st v :
  modulesIds st !! path script = Some v → 0 < v →
  recurseResolve env entryScript (S fuel) script previousScript st = Ok (Some v, st).
Proof.
  intros Hv Hpos. cbn [recurseResolve]. rewrite Hv.
  rewrite bool_decide_eq_true_2 by exact Hpos. reflexivity.
Qed.

Lemma recurseResolve_in_progress env entryScript fuel script previous st v :
  modulesIds st !! path script = Some v → v < 0 →
  recurseResolve env entryScript (S fuel) script (Some previous) st
  = Throw (CircularDependency (path script) (path previous)).
Proof.
  intros Hv Hneg. cbn [recurseResolve]. rewrite Hv.
  rewrite bool_decide_eq_false_2 by lia.
  rewrite bool_decide_eq_true_2 by exact Hneg. reflexivity.
Qed.

Lemma recurseResolve_fresh env entryScript fuel script previous st :
  modulesIds st !! path script = None →
  recurseResolve env entryScript (S fuel) script (Some previous) st
  = match parse_with_hooks env entryScript script false (currModuleId st + 1)
            (λ required, recurseResolve env entryScript fuel required (Some script))
            (log_parsed (path script) (currModuleId st + 1)
               (set_modulesIds (path script) (-1)
                  (set_currModuleId (currModuleId st + 1) st))) with
    | Ok (ast, st4) =>
        Ok (Some (currModuleId st + 1),
            set_modulesAst (currModuleId st + 1) ast
              (set_modulesIds (path script) (currModuleId st + 1) st4))
    | Throw e => Throw e
    | OutOfFuel => OutOfFuel
    end.
Proof. intros Hv. cbn [recurseResolve]. rewrite Hv. reflexivity. Qed.

(** ** The invariant *)

Lemma elem_of_fst_unique {A B} (l : list (A * B)) a b1 b2 :
  NoDup l.*1 → (a, b1) ∈ l → (a, b2) ∈ l → b1 = b2.
Proof.
  induction l as [|[a' b'] l IH]; simpl; intros Hnd H1 H2.
  - by apply elem_of_nil in H1.
  - apply NoDup_cons in Hnd as [Hnotin Hnd].
    apply elem_of_cons in H1 as [[= -> ->]|H1], H2 as [[= <-]|H2]; auto.
    + exfalso. apply Hnotin. apply list_elem_of_fmap. by exists (a', b2).
    + exfalso. apply Hnotin. apply list_elem_of_fmap. by exists (a, b1).
Qed.

Lemma elem_of_snd_unique {A B} (l : list (A * B)) a1 a2 b :
  NoDup l.*2 → (a1, b) ∈ l → (a2, b) ∈ l → a1 = a2.
Proof.
  induction l as [|[a' b'] l IH]; simpl; intros Hnd H1 H2.
  - by apply elem_of_nil in H1.
  - apply NoDup_cons in Hnd as [Hnotin Hnd].
    apply elem_of_cons in H1 as [[= -> ->]|H1], H2 as [[= <-]|H2]; auto.
    + exfalso. apply Hnotin. apply list_elem_of_fmap. by exists (a2, b').
    + exfalso. apply Hnotin. apply list_elem_of_fmap. by exists (a1, b).
Qed.

Lemma seqZ_snoc (n : Z) : 0 ≤ n → seqZ 0 (n + 1) = seqZ 0 n ++ [n].
Proof.
  intros Hn. rewrite seqZ_app by lia. f_equal.
Qed.

Lemma ext_refl st : ext st st.
Proof. split; try reflexivity; auto. Qed.

Lemma ext_trans st1 st2 st3 : ext st1 st2 → ext st2 st3 → ext st1 st3.
Proof.
  intros [] []. split; try (etrans; eassumption); auto.
  intros p k Hin. destruct (ext_done1 p k Hin) as [Hin2|]; auto.
  destruct (ext_done0 p k Hin2); auto.
Qed.

(** A script on the trace is in progress or resolved with the id on the
    trace. *)
Lemma Inv_record e st p k :
  Inv e st → (p, k) ∈ parsed st → in_progress st p ∨ modulesIds st !! p = Some k.
Proof.
  intros HI Hin.
  assert (p ∈ (parsed st).*1) as Hp by (apply list_elem_of_fmap; by exists (p, k)).
  apply (inv_dom _ _ HI) in Hp as [v Hv].
  destruct (inv_val _ _ HI _ _ Hv) as [->|[_ Hin']]; [by left|right].
  rewrite Hv. f_equal. eapply elem_of_fst_unique; [apply (inv_nodup _ _ HI)|..]; eauto.
Qed.

(** The entry script is in progress all along. *)
Lemma Inv_entry_in_progress e st : Inv e st → in_progress st e.
Proof.
  intros HI. destruct (inv_entry _ _ HI) as [rest Hrest].
  assert ((e, 0) ∈ parsed st) as Hin by (rewrite Hrest; by left).
  assert (e ∈ (parsed st).*1) as He by (apply list_elem_of_fmap; by exists (e, 0)).
  apply (inv_dom _ _ HI) in He as [v Hv].
  destruct (inv_val _ _ HI _ _ Hv) as [->|[Hpos Hin']]; [exact Hv|].
  assert (v = 0) by (eapply elem_of_fst_unique; [apply (inv_nodup _ _ HI)|..]; eauto).
  lia.
Qed.

Lemma Inv_init e : Inv e (log_parsed e 0 (set_modulesIds e (-1) init_state)).
Proof.
  split; cbn.
  - by exists [].
  - lia.
  - reflexivity.
  - apply NoDup_singleton.
  - intros p. rewrite list_elem_of_singleton. split.
    + intros ->. rewrite lookup_insert_eq. eauto.
    + intros [v Hv]. apply lookup_insert_Some in Hv as [[-> _]|[_ Hv]]; [done|].
      by rewrite lookup_empty in Hv.
  - intros p v Hv. apply lookup_insert_Some in Hv as [[_ <-]|[_ Hv]]; [by left|].
    by rewrite lookup_empty in Hv.
  - intros k [c Hc]. by rewrite lookup_empty in Hc.
  - intros p i Hin. by apply elem_of_nil in Hin.
Qed.

(** Entering a script that has no record. *)
Lemma Inv_enter e st c :
  Inv e st → modulesIds st !! c = None →
  Inv e (log_parsed c (currModuleId st + 1)
           (set_modulesIds c (-1) (set_currModuleId (currModuleId st + 1) st))).
Proof.
  intros HI Hnone. pose proof (inv_cur _ _ HI) as Hcur.
  assert (c ∉ (parsed st).*1) as Hc.
  { intros Hin. apply (inv_dom _ _ HI) in Hin as [v Hv]. congruence. }
  split; cbn.
  - destruct (inv_entry _ _ HI) as [rest ->]. by eexists.
  - lia.
  - rewrite fmap_app, (inv_ids _ _ HI). cbn. by rewrite <- seqZ_snoc by lia.
  - rewrite fmap_app. cbn. apply NoDup_app. split; [apply (inv_nodup _ _ HI)|].
    split; [|apply NoDup_singleton].
    intros p Hp Hp'. apply list_elem_of_singleton in Hp' as ->. auto.
  - intros p. rewrite fmap_app, elem_of_app. cbn. rewrite list_elem_of_singleton.
    rewrite (inv_dom _ _ HI). destruct (decide (c = p)) as [->|Hne].
    + rewrite lookup_insert_eq. split; eauto.
    + rewrite lookup_insert_ne by done. split; [intros [|]; [done|congruence]|auto].
  - intros p v Hv. apply lookup_insert_Some in Hv as [[_ <-]|[_ Hv]]; [by left|].
    destruct (inv_val _ _ HI _ _ Hv) as [|[? ?]]; [by left|right].
    split; [done|]. apply elem_of_app. by left.
  - intros k Hk. destruct (inv_ast _ _ HI _ Hk) as [Hpos [p Hp]].
    split; [done|]. exists p. apply elem_of_app. by left.
  - intros p i Hin. destruct (inv_sites _ _ HI _ _ Hin) as [Hp Hpos].
    split; [|done]. cbn. rewrite lookup_insert_ne; [done|]. congruence.
Qed.

(** Writing, for a script on the trace, its id into its record. *)
Lemma Inv_set_id e st p k :
  Inv e st → (p, k) ∈ parsed st → 0 < k → Inv e (set_modulesIds p k st).
Proof.
  intros HI Hin Hpos.
  assert (p ∈ (parsed st).*1) as Hp by (apply list_elem_of_fmap; by exists (p, k)).
  split; cbn; try apply HI.
  - intros q. rewrite (inv_dom _ _ HI). destruct (decide (p = q)) as [->|Hne].
    + rewrite lookup_insert_eq. split; [eauto|]. intros _. by apply (inv_dom _ _ HI).
    + by rewrite lookup_insert_ne.
  - intros q v Hv. apply lookup_insert_Some in Hv as [[<- <-]|[_ Hv]]; [by right|].
    apply (inv_val _ _ HI _ _ Hv).
  - intros q i Hq. destruct (inv_sites _ _ HI _ _ Hq) as [Hv Hi]. split; [|done].
    cbn. destruct (decide (p = q)) as [->|Hne]; [|by rewrite lookup_insert_ne].
    rewrite lookup_insert_eq. f_equal.
    destruct (Inv_record _ _ _ _ HI Hin) as [Hprog|Hk]; unfold in_progress in *;
      [rewrite Hprog in Hv; injection Hv; lia | congruence].
Qed.

Lemma ext_set_id e st p k :
  Inv e st → (p, k) ∈ parsed st → 0 < k → ext st (set_modulesIds p k st).
Proof.
  intros HI Hin Hpos. split; cbn; auto; try reflexivity.
  - intros q v [Hv Hvpos]. split; [|done].
    cbn. destruct (decide (p = q)) as [->|Hne]; [|by rewrite lookup_insert_ne].
    rewrite lookup_insert_eq. f_equal.
    destruct (Inv_record _ _ _ _ HI Hin) as [Hprog|Hk]; unfold in_progress in *;
      [rewrite Hprog in Hv; injection Hv; lia | congruence].
  - intros q. unfold in_progress. cbn. intros Hq.
    apply lookup_insert_Some in Hq as [[_ ?]|[_ Hq]]; [lia|done].
Qed.

Lemma Inv_log_site e st p i : Inv e st → resolved st p i → Inv e (log_site p i st).
Proof.
  intros HI Hres. split; cbn; try apply HI.
  intros q j Hin. apply elem_of_app in Hin as [Hin|Hin].
  - apply (inv_sites _ _ HI _ _ Hin).
  - apply list_elem_of_singleton in Hin as [= -> ->]. exact Hres.
Qed.

Lemma ext_log_site st p i : ext st (log_site p i st).
Proof. split; cbn; auto; try reflexivity. by apply prefix_app_r. Qed.

Lemma Inv_set_ast e st p k ast :
  Inv e st → (p, k) ∈ parsed st → 0 < k → Inv e (set_modulesAst k ast st).
Proof.
  intros HI Hin Hpos. split; cbn; try apply HI.
  intros k' [c Hc]. apply lookup_insert_Some in Hc as [[<- _]|[_ Hc]]; [eauto|].
  apply (inv_ast _ _ HI). eauto.
Qed.

Lemma Inv_set_mainAst e st ast : Inv e st → Inv e (set_mainAst ast st).
Proof. intros HI. split; cbn; apply HI. Qed.

(** ** Every activation keeps the invariant *)

Lemma script_rel_refl e s tid st : script_rel e s tid st st.
Proof. intros HI _. split; [done|]. split; [apply ext_refl|]. by intros p _ Hp. Qed.

Lemma script_rel_trans e s tid st1 st2 st3 :
  script_rel e s tid st1 st2 → script_rel e s tid st2 st3 → script_rel e s tid st1 st3.
Proof.
  intros H12 H23 HI Hin. destruct (H12 HI Hin) as (HI2 & Hext12 & Hkeep12).
  assert ((s, tid) ∈ parsed st2) as Hin2.
  { destruct (ext_parsed _ _ Hext12) as [l ->]. apply elem_of_app. by left. }
  destruct (H23 HI2 Hin2) as (HI3 & Hext23 & Hkeep23).
  split; [done|]. split; [by eapply ext_trans|].
  intros p Hne Hp. auto.
Qed.

Lemma script_rel_export e s tid st :
  0 < tid → script_rel e s tid st (set_modulesIds s tid st).
Proof.
  intros Hpos HI Hin. split; [by apply Inv_set_id|]. split; [by eapply ext_set_id|].
  intros p Hne Hp. unfold in_progress in *. cbn. by rewrite lookup_insert_ne.
Qed.

Lemma script_rel_import e s tid c st id st1 :
  (Inv e st → activation_post e c st (Some id) st1) →
  script_rel e s tid st (log_site (path c) id st1).
Proof.
  intros Hpost HI Hin. destruct (Hpost HI) as (id' & [= <-] & HI1 & Hext & Hkeep & Hres).
  split; [by apply Inv_log_site|]. split.
  - eapply ext_trans; [exact Hext|apply ext_log_site].
  - intros p _ Hp. apply Hkeep in Hp. exact Hp.
Qed.

Lemma recurseResolve_sound env entryScript e fuel :
  ∀ c previous st r st',
    Inv e st →
    recurseResolve env entryScript fuel c (Some previous) st = Ok (r, st') →
    activation_post e c st r st'.
Proof.
  induction fuel as [|fuel IH]; intros c previous st r st' HI H; [discriminate|].
  destruct (modulesIds st !! path c) as [v|] eqn:Hv.
  - destruct (inv_val _ _ HI _ _ Hv) as [->|[Hpos Hin]].
    + rewrite (recurseResolve_in_progress _ _ _ _ _ _ _ Hv) in H by lia. discriminate.
    + rewrite (recurseResolve_resolved _ _ _ _ _ _ _ Hv Hpos) in H.
      injection H as <- <-. exists v.
      split; [done|]. split; [done|]. split; [apply ext_refl|]. split; [auto|]. by split.
  - rewrite recurseResolve_fresh in H by done.
    set (tid := currModuleId st + 1) in *.
    set (st3 := log_parsed (path c) tid
                  (set_modulesIds (path c) (-1) (set_currModuleId tid st))) in *.
    destruct (parse_with_hooks _ _ _ _ _ _ st3) as [[ast st4]| |] eqn:Hparse;
      try discriminate.
    injection H as <- <-.
    pose proof (inv_cur _ _ HI) as Hcur.
    assert (0 < tid) as Hpos by (unfold tid; lia).
    assert (Inv e st3) as HI3 by (by apply Inv_enter).
    assert ((path c, tid) ∈ parsed st3) as Hin3.
    { cbn. apply elem_of_app. right. by apply list_elem_of_singleton. }
    apply (parse_with_hooks_rel _ _ _ _ _ _ (script_rel e (path c) tid) true) in Hparse.
    + destruct (Hparse HI3 Hin3) as (HI4 & Hext & Hkeep).
      assert ((path c, tid) ∈ parsed st4) as Hin4.
      { destruct (ext_parsed _ _ Hext) as [l ->]. apply elem_of_app. by left. }
      exists tid. split; [done|]. split; [|split; [|split]].
      * eapply Inv_set_ast; [|exact Hin4|done]. by apply Inv_set_id.
      * split; cbn.
        -- destruct (ext_parsed _ _ Hext) as [l ->]. cbn. rewrite <- app_assoc.
           by apply prefix_app_r.
        -- apply (ext_sites _ _ Hext).
        -- pose proof (ext_cur _ _ Hext) as Hc. cbn in Hc. lia.
        -- intros p v [Hp Hvpos].
           assert (p ≠ path c) as Hne by congruence.
           assert (resolved st3 p v) as Hr3.
           { split; [|done]. cbn. by rewrite lookup_insert_ne. }
           apply (ext_resolved _ _ Hext) in Hr3 as [Hr4 _].
           split; [|done]. cbn. by rewrite lookup_insert_ne.
        -- intros p. unfold in_progress. cbn. intros Hp.
           apply lookup_insert_Some in Hp as [[_ ?]|[Hne Hp]]; [lia|].
           apply (ext_back _ _ Hext) in Hp. unfold in_progress in Hp. cbn in Hp.
           by rewrite lookup_insert_ne in Hp.
        -- intros k Hk. apply (ext_ast _ _ Hext k) in Hk as [a Ha].
           destruct (decide (tid = k)) as [->|Hne];
             [rewrite lookup_insert_eq|rewrite lookup_insert_ne by done]; eauto.
        -- intros p k Hin. destruct (ext_done _ _ Hext _ _ Hin) as [Hin'|[a Ha]].
           ++ cbn in Hin'. apply elem_of_app in Hin' as [Hin'|Hin']; [by left|].
              apply list_elem_of_singleton in Hin' as [= -> ->]. right.
              rewrite lookup_insert_eq. eauto.
           ++ right. destruct (decide (tid = k)) as [->|Hne];
                [rewrite lookup_insert_eq|rewrite lookup_insert_ne by done]; eauto.
      * intros p Hp. assert (p ≠ path c) as Hne by (unfold in_progress in Hp; congruence).
        assert (in_progress st3 p) as Hp3.
        { unfold in_progress in *. cbn. by rewrite lookup_insert_ne. }
        apply Hkeep in Hp3; [|done]. unfold in_progress in *. cbn.
        by rewrite lookup_insert_ne.
      * split; [|done]. cbn. by rewrite lookup_insert_eq.
    + apply script_rel_refl.
    + apply script_rel_trans.
    + intros module required st0 module_id st1 _ Hrec.
      apply script_rel_import. intros HI0. eapply IH; eauto.
    + intros _ _ st0. by apply script_rel_export.
    + discriminate.
Qed.

(** ** Successful builds *)

Lemma OLProcessor_new_Ok env entry entryScript :
  OLProcessor_new env entry = Ok entryScript →
  entryScript = new_LuaScript env (path_resolve env entry) None.
Proof.
  unfold OLProcessor_new. destruct (script_exists _ _); [|discriminate].
  by intros [= <-].
Qed.

(** The state a successful build ends in: the invariant holds of it, and it
    extends the state in which the entry script was entered. *)
Lemma build_sound env entry fuel st :
  build env entry fuel = Ok st →
  let e := path_resolve env entry in
  ∃ st4 ast,
    st = set_mainAst ast st4 ∧ Inv e st4
    ∧ ext (log_parsed e 0 (set_modulesIds e (-1) init_state)) st4.
Proof.
  intros H e. unfold build in H.
  destruct (OLProcessor_new env entry) as [es| |] eqn:Hnew; try discriminate H.
  apply OLProcessor_new_Ok in Hnew.
  destruct fuel as [|fuel]; [discriminate H|].
  rewrite recurseResolve_entry in H.
  assert (path es = e) as Hpath by (by subst es).
  rewrite Hpath in H.
  destruct (parse_with_hooks _ _ _ _ _ _ _) as [[ast st4]| |] eqn:Hparse;
    try discriminate H.
  injection H as <-. exists st4, ast. split; [done|].
  apply (parse_with_hooks_rel _ _ _ _ _ _ (script_rel e e 0) true) in Hparse.
  - destruct (Hparse (Inv_init e)) as (HI4 & Hext & _); [|done].
    cbn. by apply list_elem_of_singleton.
  - apply script_rel_refl.
  - apply script_rel_trans.
  - intros module required st0 module_id st1 _ Hrec.
    apply script_rel_import. intros HI0. eapply recurseResolve_sound; eauto.
  - discriminate.
  - discriminate.
Qed.

(** C2. In a successful build the entry script has id 0 and comes first;
    the ids, read in the order in which the scripts were first reached and
    parsed, are 0, 1, 2, ...; every other script has a positive id, which is
    its record and the key of its tree; and no two records hold the same
    id. The trace entry of a script is written when its id is taken, before
    its body is walked, so the order of the trace is the pre-order of the
    traversal. *)
Theorem module_ids_in_encounter_order env entry fuel st :
  build env entry fuel = Ok st →
  ∃ rest,
    parsed st = (path_resolve env entry, 0) :: rest
    ∧ (parsed st).*2 = seqZ 0 (Z.of_nat (length (parsed st)))
    ∧ NoDup (parsed st).*1
    ∧ (∀ p k, (p, k) ∈ rest →
         0 < k ∧ modulesIds st !! p = Some k ∧ is_Some (modulesAst st !! k))
    ∧ (∀ p k, modulesIds st !! p = Some k → 0 < k → (p, k) ∈ rest)
    ∧ (∀ k, is_Some (modulesAst st !! k) → ∃ p, (p, k) ∈ rest)
    ∧ (∀ p q k, 0 < k → modulesIds st !! p = Some k → modulesIds st !! q = Some k → p = q)
    ∧ modulesIds st !! path_resolve env entry = Some (-1).
Proof.
  intros H. apply build_sound in H as (st4 & ast & -> & HI & Hext).
  set (e := path_resolve env entry) in *. cbn [parsed modulesIds modulesAst set_mainAst].
  destruct (inv_entry _ _ HI) as [rest Hrest]. exists rest.
  pose proof (inv_nodup _ _ HI) as Hnd.
  pose proof (inv_ids _ _ HI) as Hids.
  pose proof (inv_cur _ _ HI) as Hcur.
  assert (NoDup (parsed st4).*2) as Hnd2 by (rewrite Hids; apply NoDup_seqZ).
  assert (∀ p k, (p, k) ∈ rest → p ≠ e) as Hrest_ne.
  { intros p k Hin ->. rewrite Hrest in Hnd. cbn in Hnd.
    apply NoDup_cons in Hnd as [Hnotin _]. apply Hnotin.
    apply list_elem_of_fmap. by exists (e, k). }
  assert (∀ p k, (p, k) ∈ rest →
            0 < k ∧ modulesIds st4 !! p = Some k ∧ is_Some (modulesAst st4 !! k)) as Hmod.
  { intros p k Hin.
    assert ((p, k) ∈ parsed st4) as Hin4 by (rewrite Hrest; by right).
    assert (modulesIds st4 !! p = Some k) as Hrec.
    { destruct (Inv_record _ _ _ _ HI Hin4) as [Hprog|Hk]; [|done].
      apply (ext_back _ _ Hext) in Hprog. unfold in_progress in Hprog. cbn in Hprog.
      apply lookup_insert_Some in Hprog as [[He _]|[_ Hprog]].
      - exfalso. by eapply Hrest_ne.
      - by rewrite lookup_empty in Hprog. }
    destruct (inv_val _ _ HI _ _ Hrec) as [->|[Hpos _]].
    - destruct (ext_done _ _ Hext _ _ Hin4) as [Hin0|Hast].
      + cbn in Hin0. apply list_elem_of_singleton in Hin0 as [= ? ?]; lia.
      + apply (inv_ast _ _ HI) in Hast as [? _]. lia.
    - split; [done|]. split; [done|].
      destruct (ext_done _ _ Hext _ _ Hin4) as [Hin0|Hast]; [|done].
      cbn in Hin0. apply list_elem_of_singleton in Hin0 as [= ? ?]; lia. }
  assert (∀ p k, (p, k) ∈ parsed st4 → 0 < k → (p, k) ∈ rest) as Hpos_rest.
  { intros p k Hin Hpos. rewrite Hrest in Hin.
    apply elem_of_cons in Hin as [[= _ ->]|Hin]; [lia|done]. }
  split; [done|]. split.
  { rewrite Hids. f_equal.
    rewrite <- (length_fmap snd), Hids, length_seqZ. lia. }
  split; [done|]. split; [done|]. split.
  { intros p k Hrec Hpos. apply Hpos_rest; [|done].
    destruct (inv_val _ _ HI _ _ Hrec) as [->|[_ Hin]]; [lia|done]. }
  split.
  { intros k Hk. destruct (inv_ast _ _ HI _ Hk) as [Hpos [p Hp]]. eauto. }
  split.
  { intros p q k Hpos Hp Hq.
    destruct (inv_val _ _ HI _ _ Hp) as [->|[_ Hinp]]; [lia|].
    destruct (inv_val _ _ HI _ _ Hq) as [->|[_ Hinq]]; [lia|].
    eapply elem_of_snd_unique; eauto. }
  apply (Inv_entry_in_progress _ _ HI).
Qed.

(** ** Well-formed trees are rewritten without an exception *)

Lemma mapM_total {A B} (f : A → M B) (Q : state → Prop) (P1 P2 : A → Prop) l :
  Forall (λ x, P1 x → P2 x → ∀ st, Q st → ∃ x' st', f x st = Ok (x', st') ∧ Q st') l →
  Forall P1 l → Forall P2 l →
  ∀ st, Q st → ∃ l' st', mapM f l st = Ok (l', st') ∧ Q st'.
Proof.
  induction 1 as [|x l Hx _ IH]; intros H1 H2 st HQ.
  - exists [], st. by rewrite mapM_nil.
  - apply Forall_cons in H1 as [H1x H1], H2 as [H2x H2].
    destruct (Hx H1x H2x st HQ) as (x' & st1 & Hfx & HQ1).
    destruct (IH H1 H2 st1 HQ1) as (l' & st2 & Hl & HQ2).
    exists (x' :: l'), st2. split; [|done].
    rewrite mapM_cons, (bind_step _ _ _ _ _ Hfx), (bind_step _ _ _ _ _ Hl). done.
Qed.

Section RewriteTotal.
Context (env : Env) (entryScript : LuaScript).
Context (script : LuaScript) (is_entry : bool) (thisModuleId : Z).
Context (recurseResolve' : LuaScript → M (option Z)).
Context (check : string → bool) (Q : state → Prop).

Hypothesis Q_import : ∀ v st, check v = true → Q st →
  ∃ required module_id st1,
    getRequiredModule env entryScript script v = Found required
    ∧ recurseResolve' required st = Ok (Some module_id, st1)
    ∧ Q (log_site (path required) module_id st1).
Hypothesis Q_export : is_entry = false →
  ∀ st, Q st → Q (set_modulesIds (path script) thisModuleId st).

Abbreviation rwT := (rewrite env entryScript script is_entry thisModuleId recurseResolve').

Lemma new_astnode_total v st :
  check v = true → Q st →
  ∃ n' st', new_astnode env entryScript script recurseResolve' v st = Ok (n', st') ∧ Q st'.
Proof.
  intros Hv HQ. destruct (Q_import v st Hv HQ) as (required & id & st1 & Hf & Hrec & HQ1).
  eexists _, _. split; [|exact HQ1]. apply new_astnode_Ok. eauto 10.
Qed.

Lemma optM_total idn :
  from_option
    (λ n, imports_ok check n = true → (is_entry = true → no_export n = true) →
          ∀ st, Q st → ∃ n' st', rwT n st = Ok (n', st') ∧ Q st') True idn →
  from_option (imports_ok check) true idn = true →
  (is_entry = true → from_option no_export true idn = true) →
  ∀ st, Q st → ∃ o' st', optM rwT idn st = Ok (o', st') ∧ Q st'.
Proof.
  destruct idn as [n|]; simpl; intros IH Himp Hexp st HQ.
  - destruct (IH Himp Hexp st HQ) as (n' & st1 & Hn & HQ1).
    exists (Some n'), st1. by rewrite (bind_step _ _ _ _ _ Hn).
  - by exists None, st.
Qed.

Lemma rewrite_StringLiteral v raw st : rwT (StringLiteral v raw) st = Ok (StringLiteral v raw, st).
Proof. reflexivity. Qed.

Lemma rewrite_total n :
  imports_ok check n = true → (is_entry = true → no_export n = true) →
  ∀ st, Q st → ∃ n' st', rwT n st = Ok (n', st') ∧ Q st'.
Proof.
  induction n using node_induction; cbn [imports_ok no_export rewrite];
    intros Himp Hexp st HQ;
    repeat match goal with
      | H : _ && _ = true |- _ => apply andb_true_iff in H as [? ?]
      | H : _ → _ && _ = true |- _ => apply imp_andb in H as [? ?]
      | H : forallb _ _ = true |- _ => apply forallb_Forall in H
      | H : _ → forallb _ _ = true |- _ => apply imp_forallb in H
      | H : Forall (λ n, imports_ok _ n = true → _) ?l,
        H1 : Forall (λ x, imports_ok _ x = true) ?l,
        H2 : Forall (λ x, _ → no_export x = true) ?l |- _ =>
          pose proof (mapM_total rwT Q _ _ l H H1 H2); clear H
      | H : from_option _ True ?o,
        H1 : from_option (imports_ok _) true ?o = true,
        H2 : _ → from_option no_export true ?o = true |- _ =>
          pose proof (optM_total o H H1 H2); clear H
      end;
    repeat match goal with
      | HQ : Q ?st |- ∃ n' st', bind ?m _ ?st = Ok _ ∧ _ =>
          let r := fresh "r" in
          let st1 := fresh "st" in
          let Hm := fresh "Hm" in
          let HQ1 := fresh "HQ" in
          assert (∃ r st1, m st = Ok (r, st1) ∧ Q st1) as (r & st1 & Hm & HQ1)
            by (solve [eauto]);
          rewrite (bind_step _ _ _ _ _ Hm)
      end;
    try (eexists _, _; split; [reflexivity|assumption]).
  - (* CallExpression *)
    unfold callExpression_hook. rewrite (rewrite_is_require _ _ _ _ _ _ _ _ _ _ Hm).
    destruct (is_require n) eqn:Hreq; [|by eexists _, _].
    destruct args as [|a args]; [discriminate|].
    destruct a; try discriminate.
    apply mapM_head in Hm0 as (a' & tl' & st2 & -> & Ha & _).
    rewrite rewrite_StringLiteral in Ha. injection Ha as <- <-.
    rewrite bool_decide_eq_false_2 by (intros Hne; apply Hne; reflexivity).
    cbn [node_value_string]. by apply new_astnode_total.
  - (* StringCallExpression *)
    unfold stringCallExpression_hook. rewrite (rewrite_is_require _ _ _ _ _ _ _ _ _ _ Hm).
    destruct (is_require n1) eqn:Hreq; [|by eexists _, _].
    destruct n2; try discriminate.
    rewrite rewrite_StringLiteral in Hm0. injection Hm0 as <- <-.
    cbn [node_value_string]. by apply new_astnode_total.
  - (* AssignmentStatement *)
    unfold assignmentStatement_hook.
    rewrite (rewrite_is_export_slot _ _ _ _ _ _ _ _ _ _ Hm).
    destruct (is_export_slot vars) eqn:Hslot; [|by eexists _, _].
    destruct is_entry eqn:Hentry.
    + match goal with H : true = true → negb true = true |- _ => by specialize (H eq_refl) end.
    + eexists _, _. split; [reflexivity|]. by apply Q_export.
Qed.

Lemma parse_with_hooks_total c st :
  luaparse_parse env (path script) = Some c →
  forallb (imports_ok check) (chunk_body c) = true →
  (is_entry = true → forallb no_export (chunk_body c) = true) →
  Q st →
  ∃ ast st',
    parse_with_hooks env entryScript script is_entry thisModuleId recurseResolve' st
    = Ok (ast, st') ∧ Q st'.
Proof.
  intros Hc Himp Hexp HQ. unfold parse_with_hooks. rewrite Hc.
  apply forallb_Forall in Himp. apply imp_forallb in Hexp.
  destruct (mapM_total rwT Q _ _ (chunk_body c)
              ltac:(apply Forall_forall; intros n _; apply rewrite_total) Himp Hexp st HQ)
    as (body' & st1 & Hbody & HQ1).
  eexists _, st1. split; [|exact HQ1].
  rewrite (bind_step _ _ _ _ _ Hbody). reflexivity.
Qed.
End RewriteTotal.

(** ** The rewritten trees are the linked trees *)

Lemma getRequiredModule_first_match env (entryScript base_script : LuaScript) module :
  getRequiredModule env entryScript base_script module
  = resolve_in_order env entryScript base_script module.
Proof.
  unfold getRequiredModule, resolve_in_order, file_candidate. cbn [first_match].
  destruct (fs_existsSync env (path_join env (baseDir base_script) _)); [reflexivity|].
  destruct (package base_script) as [pkg|]; cbn.
  - destruct (fs_existsSync env (path_join env (mainDir pkg) _)); reflexivity.
  - destruct (fs_existsSync env (path_join env (baseDir entryScript) _)); reflexivity.
Qed.

Lemma is_import_callee_is_require b : is_import_callee b = is_require b.
Proof.
  rewrite is_require_name. destruct b; try reflexivity. cbn.
  destruct (String.eqb_spec name "require") as [->|Hne]; [reflexivity|].
  symmetry. apply bool_decide_eq_false_2. congruence.
Qed.

Lemma is_export_target_is_export_slot vars :
  from_option is_export_target false (head vars) = is_export_slot vars.
Proof.
  apply eq_true_iff_eq. rewrite is_export_slot_spec. split.
  - destruct vars as [|v rest]; [discriminate|]. cbn [head from_option].
    destruct v as [| | | | |b i| | | | | | | | | | | |]; try discriminate.
    destruct b as [| | | |ix idn bb| | | | | | | | | | | | |]; try discriminate.
    destruct idn as [field ?| | | | | | | | | | | | | | | | |]; try discriminate.
    destruct bb as [table ?| | | | | | | | | | | | | | | | |]; try discriminate.
    destruct i as [| | |dots raw| | | | | | | | | | | | | |]; try discriminate.
    cbn [is_export_target]. rewrite !andb_true_iff, !String.eqb_eq.
    intros [[-> ->] ->]. eauto 10.
  - intros (ix & idn & bb & raw & rest & -> & Hb & Hi).
    destruct bb; try discriminate Hb. destruct idn; try discriminate Hi.
    cbn in Hb, Hi. injection Hb as ->. injection Hi as ->. reflexivity.
Qed.

Lemma covers_mono st st' ids :
  (∀ p v, resolved st p v → resolved st' p v) → covers st' ids → covers st ids.
Proof. intros Hres Hc p v Hp. apply Hc, Hres, Hp. Qed.

Lemma covers_ext st st' ids : ext st st' → covers st' ids → covers st ids.
Proof. intros Hext. apply covers_mono, (ext_resolved _ _ Hext). Qed.

(** Stored trees stay linked as long as [modulesAst] is left alone, the
    trace grows and positive records stay. *)
Lemma stored_linked_mono env es st st' :
  modulesAst st' = modulesAst st →
  parsed st `prefix_of` parsed st' →
  (∀ p v, resolved st p v → resolved st' p v) →
  stored_linked env es st → stored_linked env es st'.
Proof.
  intros Hast [l Hl] Hres Hst k ast Hk. rewrite Hast in Hk.
  destruct (Hst k ast Hk) as (s & c & Hin & Hc & Hlk).
  exists s, c. split; [rewrite Hl; apply elem_of_app; by left|].
  split; [exact Hc|]. intros ids Hcov. apply Hlk. by eapply covers_mono.
Qed.

Lemma stored_linked_ext env es st st' :
  modulesAst st' = modulesAst st → ext st st' →
  stored_linked env es st → stored_linked env es st'.
Proof.
  intros Hast Hext. apply stored_linked_mono;
    [exact Hast | apply (ext_parsed _ _ Hext) | apply (ext_resolved _ _ Hext)].
Qed.

Lemma elem_of_parsed_ext st st' p k : ext st st' → (p, k) ∈ parsed st → (p, k) ∈ parsed st'.
Proof.
  intros Hext Hin. destruct (ext_parsed _ _ Hext) as [l ->]. apply elem_of_app. by left.
Qed.

Section StepOk.
Context (env : Env) (entryScript : LuaScript) (e s : string) (tid : Z).

Abbreviation step := (step_ok env entryScript e s tid).

Lemma step_ret {A} (a : A) : step (λ _, Some a) (ret a).
Proof.
  intros st a' st' HP H. apply ret_Ok in H as [<- <-].
  split; [exact HP|]. split; [apply ext_refl|done].
Qed.

(** The continuation may use that its argument is a result of [m]. *)
Lemma step_bind {A B} (lk1 : gmap string Z → option A) (m : M A)
    (lk2 : A → gmap string Z → option B) (k : A → M B) :
  step lk1 m →
  (∀ a, (∃ st st1, m st = Ok (a, st1)) → step (lk2 a) (k a)) →
  step (λ ids, lk1 ids ≫= λ a, lk2 a ids) (bind m k).
Proof.
  intros Hm Hk st b st' HP H. apply bind_Ok in H as (a & st1 & H1 & H2).
  destruct (Hm _ _ _ HP H1) as (HP1 & Hext1 & Hlk1).
  destruct (Hk a ltac:(eauto) _ _ _ HP1 H2) as (HP2 & Hext2 & Hlk2).
  split; [exact HP2|]. split; [by eapply ext_trans|].
  intros ids Hcov. rewrite (Hlk1 ids) by (by eapply covers_ext). cbn. by apply Hlk2.
Qed.

Lemma step_mapM {A B} (f' : gmap string Z → A → option B) (f : A → M B) l :
  Forall (λ x, step (λ ids, f' ids x) (f x)) l →
  step (λ ids, mapO (f' ids) l) (mapM f l).
Proof.
  induction 1 as [|x l Hx _ IH].
  - rewrite mapM_nil. apply step_ret.
  - rewrite mapM_cons. cbn [mapO].
    apply (step_bind (λ ids, f' ids x) (f x)
             (λ x' ids, mapO (f' ids) l ≫= λ tl', Some (x' :: tl'))); [exact Hx|].
    intros x' _.
    apply (step_bind (λ ids, mapO (f' ids) l) (mapM f l) (λ tl' _, Some (x' :: tl')));
      [exact IH|].
    intros tl' _. apply step_ret.
Qed.

Lemma step_optM {A B} (f' : gmap string Z → A → option B) (f : A → M B) o :
  from_option (λ x, step (λ ids, f' ids x) (f x)) True o →
  step (λ ids, optO (f' ids) o) (optM f o).
Proof.
  destruct o as [x|]; cbn [from_option optO optM]; intros Hx.
  - apply (step_bind (λ ids, f' ids x) (f x) (λ x' _, Some (Some x'))); [exact Hx|].
    intros x' _. apply step_ret.
  - apply step_ret.
Qed.
End StepOk.

Section RewriteLinked.
Context (env : Env) (entryScript : LuaScript) (e : string).
Context (script : LuaScript) (is_entry : bool) (thisModuleId : Z).
Context (recurseResolve' : LuaScript → M (option Z)).

Hypothesis tid_pos : is_entry = false → 0 < thisModuleId.
Hypothesis rec_post : ∀ required st module_id st1,
  Inv e st → stored_linked env entryScript st →
  recurseResolve' required st = Ok (Some module_id, st1) →
  activation_post e required st (Some module_id) st1
  ∧ stored_linked env entryScript st1.

Abbreviation rwL := (rewrite env entryScript script is_entry thisModuleId recurseResolve').
Abbreviation lkL := (linked env entryScript script is_entry thisModuleId).
Abbreviation stepL := (step_ok env entryScript e (path script) thisModuleId).

(** A literal is rewritten into itself, and nothing else into a literal. *)
Lemma rewrite_literal n st n' st' :
  rwL n st = Ok (n', st') → (0 < kind n' < 4)%nat → n = n'.
Proof.
  intros H Hk. pose proof (rewrite_kind _ _ _ _ _ _ _ _ _ _ H) as Hkind.
  destruct n; cbn [kind] in Hkind; try lia;
    cbn [rewrite] in H; apply ret_Ok in H as [<- _]; reflexivity.
Qed.

Lemma import_linked v :
  stepL (λ ids, linked_import env entryScript script ids v)
    (new_astnode env entryScript script recurseResolve' v).
Proof.
  intros st a st' (HI & Hin & Hst) H.
  apply new_astnode_Ok in H as (required & id & st1 & Hf & Hrec & -> & ->).
  destruct (rec_post _ _ _ _ HI Hst Hrec)
    as ((id' & [= <-] & HI1 & Hext & _ & Hres) & Hst1).
  assert (ext st (log_site (path required) id st1)) as Hext'.
  { eapply ext_trans; [exact Hext|apply ext_log_site]. }
  split; [split; [by apply Inv_log_site|split]|split; [exact Hext'|]].
  - by eapply elem_of_parsed_ext.
  - eapply stored_linked_ext; [|apply ext_log_site|exact Hst1]. reflexivity.
  - intros ids Hcov. unfold linked_import.
    rewrite <- getRequiredModule_first_match, Hf.
    rewrite (Hcov (path required) id) by exact Hres. cbn.
    rewrite bool_decide_eq_true_2 by apply Hres. reflexivity.
Qed.

Lemma call_hook_linked b args b' args' :
  (∃ st st1, rwL b st = Ok (b', st1)) →
  (∃ st st1, mapM rwL args st = Ok (args', st1)) →
  stepL (λ ids,
           if is_import_callee b then
             match args with
             | StringLiteral v _ :: _ => linked_import env entryScript script ids v
             | _ => None
             end
           else Some (CallExpression b' args'))
    (callExpression_hook env entryScript script recurseResolve' (CallExpression b' args')).
Proof.
  intros (st0 & st0' & Hb) (st1 & st1' & Hargs).
  rewrite is_import_callee_is_require,
    <- (rewrite_is_require _ _ _ _ _ _ _ _ _ _ Hb).
  unfold callExpression_hook. destruct (is_require b'); [|apply step_ret].
  destruct args as [|first rest].
  { rewrite mapM_nil in Hargs. apply ret_Ok in Hargs as [<- _].
    intros st a st' _ H. discriminate H. }
  apply mapM_head in Hargs as (first' & rest' & st2 & -> & Hfirst & _).
  case_bool_decide as Hty; [intros st a st' _ H; discriminate H|].
  destruct first'; try discriminate Hty; cbn [node_value_string];
    try (intros st a st' _ H; discriminate H).
  apply rewrite_literal in Hfirst as ->; [|cbn; lia].
  apply import_linked.
Qed.

Lemma string_call_hook_linked b arg b' arg' :
  (∃ st st1, rwL b st = Ok (b', st1)) →
  (∃ st st1, rwL arg st = Ok (arg', st1)) →
  stepL (λ ids,
           if is_import_callee b then
             match arg with
             | StringLiteral v _ => linked_import env entryScript script ids v
             | VarargLiteral v _ => linked_import env entryScript script ids v
             | NumericLiteral (JsString v) _ =>
                 linked_import env entryScript script ids v
             | _ => None
             end
           else Some (StringCallExpression b' arg'))
    (stringCallExpression_hook env entryScript script recurseResolve'
       (StringCallExpression b' arg')).
Proof.
  intros (st0 & st0' & Hb) (st1 & st1' & Harg).
  rewrite is_import_callee_is_require,
    <- (rewrite_is_require _ _ _ _ _ _ _ _ _ _ Hb).
  unfold stringCallExpression_hook. destruct (is_require b'); [|apply step_ret].
  destruct (node_value_string arg') as [v|] eqn:Hv;
    [|intros st a st' _ H; discriminate H].
  assert (arg = arg') as ->.
  { apply (rewrite_literal _ _ _ _ Harg). destruct arg'; try discriminate Hv; cbn; lia. }
  destruct arg' as [|v0 ?|[|v0] ?|v0 ?| | | | | | | | | | | | | |];
    try discriminate Hv; injection Hv as ->; apply import_linked.
Qed.

Lemma assignment_hook_linked vars vars' init' :
  (∃ st st1, mapM rwL vars st = Ok (vars', st1)) →
  stepL (λ _,
           if from_option is_export_target false (head vars) then
             if is_entry then None
             else Some (AssignmentStatement
                          [IndexExpression (Identifier "__OL__cached_packages" None)
                             (NumericLiteral (JsNumber thisModuleId)
                                (toString thisModuleId))]
                          init')
           else Some (AssignmentStatement vars' init'))
    (assignmentStatement_hook script is_entry thisModuleId
       (AssignmentStatement vars' init')).
Proof.
  intros (st0 & st0' & Hvars).
  rewrite is_export_target_is_export_slot,
    <- (rewrite_is_export_slot _ _ _ _ _ _ _ _ _ _ Hvars).
  intros st a st' (HI & Hin & Hst) H.
  apply assignmentStatement_hook_cases in H
    as [(-> & -> & ->)|(-> & Hentry & -> & ->)].
  - split; [done|]. split; [apply ext_refl|done].
  - rewrite Hentry. specialize (tid_pos Hentry).
    assert (ext st (set_modulesIds (path script) thisModuleId st)) as Hext
      by (by eapply ext_set_id).
    split; [split; [by apply Inv_set_id|split; [exact Hin|]]|split; [exact Hext|done]].
    eapply stored_linked_ext; [|exact Hext|exact Hst]. reflexivity.
Qed.

Lemma rewrite_linked n : stepL (λ ids, lkL ids n) (rwL n).
Proof.
  induction n using node_induction; cbn [linked rewrite];
    repeat match goal with
      | H : Forall (λ n, step_ok _ _ _ _ _ _ (rwL n)) ?l |- _ =>
          apply (step_mapM env entryScript e (path script) thisModuleId
                   (λ ids n, lkL ids n) rwL l) in H
      | H : from_option (λ n, step_ok _ _ _ _ _ _ (rwL n)) True ?o |- _ =>
          apply (step_optM env entryScript e (path script) thisModuleId
                   (λ ids n, lkL ids n) rwL o) in H
      end;
    repeat (eapply step_bind; [eassumption|]; intros ? ?);
    try apply step_ret.
  - by apply call_hook_linked.
  - by apply string_call_hook_linked.
  - by apply assignment_hook_linked.
Qed.

Lemma parse_linked st ast st' :
  pass_state env entryScript e (path script) thisModuleId st →
  parse_with_hooks env entryScript script is_entry thisModuleId recurseResolve' st
  = Ok (ast, st') →
  ∃ c,
    luaparse_parse env (path script) = Some c
    ∧ pass_state env entryScript e (path script) thisModuleId st'
    ∧ ext st st'
    ∧ ∀ ids, covers st' ids →
             linked_chunk env entryScript script is_entry thisModuleId ids c = Some ast.
Proof.
  intros HP. unfold parse_with_hooks.
  destruct (luaparse_parse env (path script)) as [c|];
    [|intros H; by apply bind_throw_Ok in H].
  intros H. apply bind_Ok in H as (body' & st1 & Hbody & H).
  apply ret_Ok in H as [<- <-]. exists c. split; [done|].
  destruct (step_mapM env entryScript e (path script) thisModuleId
              (λ ids n, lkL ids n) rwL (chunk_body c)
              ltac:(apply Forall_forall; intros n _; apply rewrite_linked)
              _ _ _ HP Hbody) as (HP1 & Hext & Hlk).
  split; [exact HP1|]. split; [exact Hext|].
  intros ids Hcov. unfold linked_chunk.
  replace (mapO (lkL ids) (chunk_body c)) with (Some body')
    by (symmetry; exact (Hlk ids Hcov)).
  reflexivity.
Qed.
End RewriteLinked.

(** Every activation that returns leaves the stored trees linked. *)
Lemma recurseResolve_linked env entryScript e fuel :
  ∀ c previous st r st',
    Inv e st → stored_linked env entryScript st →
    recurseResolve env entryScript fuel c (Some previous) st = Ok (r, st') →
    stored_linked env entryScript st'.
Proof.
  induction fuel as [|fuel IH]; intros c previous st r st' HI Hst H; [discriminate|].
  destruct (modulesIds st !! path c) as [v|] eqn:Hv.
  - destruct (inv_val _ _ HI _ _ Hv) as [->|[Hpos Hin]].
    + rewrite (recurseResolve_in_progress _ _ _ _ _ _ _ Hv) in H by lia. discriminate.
    + rewrite (recurseResolve_resolved _ _ _ _ _ _ _ Hv Hpos) in H.
      by injection H as <- <-.
  - rewrite recurseResolve_fresh in H by done.
    set (tid := currModuleId st + 1) in *.
    set (st3 := log_parsed (path c) tid
                  (set_modulesIds (path c) (-1) (set_currModuleId tid st))) in *.
    destruct (parse_with_hooks _ _ _ _ _ _ st3) as [[ast st4]| |] eqn:Hparse;
      try discriminate.
    injection H as <- <-.
    pose proof (inv_cur _ _ HI) as Hcur.
    assert (0 < tid) as Hpos by (unfold tid; lia).
    assert (pass_state env entryScript e (path c) tid st3) as HP3.
    { split; [by apply Inv_enter|]. split.
      - cbn. apply elem_of_app. right. by apply list_elem_of_singleton.
      - eapply stored_linked_mono; [| |  |exact Hst]; cbn.
        + reflexivity.
        + by apply prefix_app_r.
        + intros p v [Hp Hvpos]. split; [|done]. cbn.
          rewrite lookup_insert_ne; [done|congruence]. }
    apply (parse_linked env entryScript e c false tid) in Hparse
        as (chunk & Hchunk & (HI4 & Hin4 & Hst4) & Hext & Hlk); [|done| |exact HP3].
    + assert (ext st4 (set_modulesIds (path c) tid st4)) as Hext4
        by (by eapply ext_set_id).
      intros k ast' Hk. cbn in Hk.
      apply lookup_insert_Some in Hk as [[<- <-]|[Hne Hk]].
      * exists c, chunk. split; [exact Hin4|]. split; [exact Hchunk|].
        intros ids Hcov. apply Hlk. eapply covers_ext; [exact Hext4|].
        intros p v Hp. by apply Hcov.
      * destruct (Hst4 k ast' Hk) as (s' & c' & Hin' & Hc' & Hlk').
        exists s', c'. split; [exact Hin'|]. split; [exact Hc'|].
        intros ids Hcov. apply Hlk'. eapply covers_ext; [exact Hext4|].
        intros p v Hp. by apply Hcov.
    + intros required st0 id st1 HI0 Hst0 Hrec. split.
      * eapply recurseResolve_sound; eauto.
      * eapply IH; eauto.
Qed.

(** The state a successful build ends in: the entry's tree and the stored
    trees are the linked chunks of the files on the trace, for the ids the
    build recorded. *)
Lemma build_linked env entry fuel st :
  build env entry fuel = Ok st →
  let entryScript := new_LuaScript env (path_resolve env entry) None in
  (∃ c main,
     luaparse_parse env (path_resolve env entry) = Some c
     ∧ mainAst st = Some main
     ∧ linked_chunk env entryScript entryScript true 0 (modulesIds st) c = Some main)
  ∧ stored_linked env entryScript st.
Proof.
  intros H es. unfold build in H.
  destruct (OLProcessor_new env entry) as [es'| |] eqn:Hnew; try discriminate H.
  apply OLProcessor_new_Ok in Hnew. fold es in Hnew. subst es'.
  destruct fuel as [|fuel]; [discriminate H|].
  rewrite recurseResolve_entry in H.
  set (e := path_resolve env entry) in *.
  assert (path es = e) as Hpath by reflexivity.
  destruct (parse_with_hooks _ _ _ _ _ _ _) as [[ast st4]| |] eqn:Hparse;
    try discriminate H.
  injection H as <-.
  apply (parse_linked env es e es true 0) in Hparse
    as (c & Hc & (HI4 & Hin4 & Hst4) & Hext & Hlk).
  - split.
    + exists c, ast. split; [exact Hc|]. split; [reflexivity|].
      apply Hlk. by intros p v [Hp _].
    + intros k ast' Hk. destruct (Hst4 k ast' Hk) as (s' & c' & ? & ? & Hlk').
      exists s', c'. split; [done|]. split; [done|]. intros ids Hcov. by apply Hlk'.
  - discriminate.
  - intros required st0 id st1 HI0 Hst0 Hrec. split.
    + eapply recurseResolve_sound; eauto.
    + eapply recurseResolve_linked; eauto.
  - rewrite Hpath. split; [apply Inv_init|]. split.
    + cbn. by apply list_elem_of_singleton.
    + intros k ast' Hk. cbn in Hk. by rewrite lookup_empty in Hk.
Qed.

(** ** Acyclic projects build *)

Section AcyclicBuild.
Context (env : Env) (entryScript : LuaScript) (e : string).
Context (rank : string → nat) (scripts : list LuaScript).
Hypothesis scripts_ok : Forall (λ s, script_ok env entryScript rank scripts s = true) scripts.

Lemma import_target_ok_inv s module :
  import_target_ok env entryScript rank scripts s module = true →
  ∃ c, getRequiredModule env entryScript s module = Found c
       ∧ c ∈ scripts ∧ (rank (path c) < rank (path s))%nat.
Proof.
  unfold import_target_ok.
  destruct (getRequiredModule env entryScript s module) as [c| |]; try discriminate.
  rewrite andb_true_iff, !bool_decide_eq_true. eauto.
Qed.

(** The imports of a script of the project, from a state reached within
    its rewrite pass, when every script of lower rank can be activated. *)
Lemma import_step fuel s st3 :
  (∀ c previous st,
     c ∈ scripts → (rank (path c) < rank (path s))%nat → Inv e st →
     (∀ p, in_progress st p → (rank (path c) < rank p)%nat) →
     ∃ id st', recurseResolve env entryScript fuel c (Some previous) st
               = Ok (Some id, st')) →
  (∀ p, in_progress st3 p → (rank (path s) ≤ rank p)%nat) →
  ∀ v st,
    import_target_ok env entryScript rank scripts s v = true → pass_inv e st3 st →
    ∃ required module_id st1,
      getRequiredModule env entryScript s v = Found required
      ∧ recurseResolve env entryScript fuel required (Some s) st
        = Ok (Some module_id, st1)
      ∧ pass_inv e st3 (log_site (path required) module_id st1).
Proof.
  intros Hrec Hrank v st Hv [HI Hext].
  apply import_target_ok_inv in Hv as (c & Hfound & Hin & Hlt).
  destruct (Hrec c s st Hin Hlt HI) as (id & st1 & Hrun).
  { intros p Hp. apply (ext_back _ _ Hext) in Hp. apply Hrank in Hp. lia. }
  exists c, id, st1. split; [done|]. split; [done|].
  destruct (recurseResolve_sound _ _ _ _ _ _ _ _ _ HI Hrun)
    as (id' & [= <-] & HI1 & Hext1 & _ & Hres).
  split; [by apply Inv_log_site|].
  eapply ext_trans; [exact Hext|]. eapply ext_trans; [exact Hext1|apply ext_log_site].
Qed.

Lemma recurseResolve_total fuel :
  ∀ c previous st,
    c ∈ scripts → (rank (path c) < fuel)%nat → Inv e st →
    (∀ p, in_progress st p → (rank (path c) < rank p)%nat) →
    ∃ id st', recurseResolve env entryScript fuel c (Some previous) st = Ok (Some id, st').
Proof.
  induction fuel as [|fuel IH]; intros c previous st Hin Hfuel HI Hrank; [lia|].
  destruct (modulesIds st !! path c) as [v|] eqn:Hv.
  - destruct (inv_val _ _ HI _ _ Hv) as [->|[Hpos _]].
    + apply Hrank in Hv. lia.
    + exists v, st. by apply recurseResolve_resolved.
  - rewrite recurseResolve_fresh by done.
    set (tid := currModuleId st + 1).
    set (st3 := log_parsed (path c) tid
                  (set_modulesIds (path c) (-1) (set_currModuleId tid st))).
    pose proof (inv_cur _ _ HI) as Hcur.
    assert (0 < tid) as Hpos by (unfold tid; lia).
    assert (Inv e st3) as HI3 by (by apply Inv_enter).
    assert ((path c, tid) ∈ parsed st3) as Hin3.
    { cbn. apply elem_of_app. right. by apply list_elem_of_singleton. }
    assert (∀ p, in_progress st3 p → (rank (path c) ≤ rank p)%nat) as Hrank3.
    { intros p. unfold in_progress. cbn. intros Hp.
      apply lookup_insert_Some in Hp as [[<- _]|[_ Hp]]; [lia|].
      apply Hrank in Hp. lia. }
    pose proof (proj1 (Forall_forall _ _) scripts_ok c Hin) as Hok.
    unfold script_ok in Hok.
    destruct (luaparse_parse env (path c)) as [chunk|] eqn:Hchunk; [|discriminate].
    destruct (parse_with_hooks_total env entryScript c false tid
                (λ required, recurseResolve env entryScript fuel required (Some c))
                (import_target_ok env entryScript rank scripts c) (pass_inv e st3))
      with (c := chunk) (st := st3) as (ast & st4 & Hparse & _).
    + apply import_step; [|exact Hrank3].
      intros c' previous' st' Hin' Hlt'. apply IH; [done|lia].
    + intros _ st0 [HI0 Hext0].
      assert ((path c, tid) ∈ parsed st0) as Hin0.
      { destruct (ext_parsed _ _ Hext0) as [l ->]. apply elem_of_app. by left. }
      split; [by apply Inv_set_id|].
      eapply ext_trans; [exact Hext0|by eapply ext_set_id].
    + done.
    + done.
    + discriminate.
    + split; [done|apply ext_refl].
    + rewrite Hparse. eauto.
Qed.
End AcyclicBuild.

(** A script on the trace of a finished build, the entry script apart, has
    its id as its record and a tree stored under it. *)
Lemma parsed_module_stored e st p k :
  Inv e st → ext (log_parsed e 0 (set_modulesIds e (-1) init_state)) st →
  (p, k) ∈ parsed st → 0 < k →
  modulesIds st !! p = Some k ∧ is_Some (modulesAst st !! k).
Proof.
  intros HI Hext Hin Hpos.
  destruct (ext_done _ _ Hext _ _ Hin) as [Hin0|Hast].
  { cbn in Hin0. apply list_elem_of_singleton in Hin0 as [= _ ->]. lia. }
  split; [|exact Hast].
  destruct (Inv_record _ _ _ _ HI Hin) as [Hprog|Hk]; [|exact Hk].
  apply (ext_back _ _ Hext) in Hprog. unfold in_progress in Hprog. cbn in Hprog.
  apply lookup_insert_Some in Hprog as [[<- _]|[_ Hprog]];
    [|by rewrite lookup_empty in Hprog].
  destruct (inv_entry _ _ HI) as [rest Hrest].
  assert ((e, 0) ∈ parsed st) as Hin0 by (rewrite Hrest; by left).
  assert (k = 0); [|lia].
  eapply elem_of_fst_unique; [apply (inv_nodup _ _ HI)|exact Hin|exact Hin0].
Qed.

(** C5. A project whose imports are well formed and lead to scripts of
    strictly lower rank, so that its dependency graph has no cycle, builds.
    The file of the entry script is parsed, under id 0, and the tree kept
    for it is its linked chunk: the parser's tree with every import call
    replaced by the call of the loader on the id recorded for the path the
    specifier resolves to. Every positive record is on the trace of the
    parsed scripts, no path is on it twice, and every script on it, the
    entry script apart, has its id as its record and has its file's linked
    chunk stored under that id. So each file reached is parsed, once, the
    path of every import call was parsed, and the loader calls written for
    one path, in whichever file, all carry the one id recorded for it. *)
Theorem acyclic_build_succeeds env entry rank scripts fuel :
  acyclic_project env entry rank scripts = true →
  (rank (path_resolve env entry) < fuel)%nat →
  ∃ st finalAst,
    build env entry fuel = Ok st
    ∧ bundle env entry fuel = Ok finalAst
    ∧ NoDup (parsed st).*1
    ∧ (∀ p i, (p, i) ∈ sites st → p ∈ (parsed st).*1)
    ∧ (∀ p i j, (p, i) ∈ sites st → (p, j) ∈ sites st → i = j)
    ∧ (path_resolve env entry, 0) ∈ parsed st
    ∧ (∃ c main,
         luaparse_parse env (path_resolve env entry) = Some c
         ∧ mainAst st = Some main
         ∧ linked_chunk env (new_LuaScript env (path_resolve env entry) None)
             (new_LuaScript env (path_resolve env entry) None) true 0
             (modulesIds st) c
           = Some main)
    ∧ (∀ p k, modulesIds st !! p = Some k → 0 < k → (p, k) ∈ parsed st)
    ∧ (∀ p k, (p, k) ∈ parsed st → 0 < k →
         ∃ s c ast,
           path s = p
           ∧ luaparse_parse env p = Some c
           ∧ modulesIds st !! p = Some k
           ∧ modulesAst st !! k = Some ast
           ∧ linked_chunk env (new_LuaScript env (path_resolve env entry) None)
               s false k (modulesIds st) c
             = Some ast).
Proof.
  unfold acyclic_project. set (es := new_LuaScript env (path_resolve env entry) None).
  rewrite !andb_true_iff, bool_decide_eq_true, forallb_Forall.
  intros [[[Hexists Hin] Hscripts] Hentry] Hfuel.
  set (e := path_resolve env entry) in *.
  assert (path es = e) as Hpath by reflexivity.
  destruct (luaparse_parse env (path es)) as [chunk|] eqn:Hchunk; [|discriminate].
  destruct fuel as [|fuel]; [lia|].
  set (st3 := log_parsed e 0 (set_modulesIds e (-1) init_state)).
  pose proof (proj1 (Forall_forall _ _) Hscripts es Hin) as Hok.
  unfold script_ok in Hok. rewrite Hchunk in Hok.
  destruct (parse_with_hooks_total env es es true 0
              (λ required, recurseResolve env es fuel required (Some es))
              (import_target_ok env es rank scripts es)
              (pass_inv e st3))
    with (c := chunk) (st := st3) as (ast & st4 & Hparse & _).
  - apply (import_step env es e rank scripts).
    + intros c previous st Hc Hlt HI Hr.
      apply (recurseResolve_total env es e rank scripts Hscripts); [done| |done|done].
      rewrite Hpath in Hlt. lia.
    + intros p. unfold in_progress, st3. cbn. intros Hp.
      apply lookup_insert_Some in Hp as [[<- _]|[_ Hp]]; [cbn; lia|].
      by rewrite lookup_empty in Hp.
  - discriminate.
  - done.
  - done.
  - done.
  - split; [apply Inv_init|apply ext_refl].
  - assert (build env entry (S fuel) = Ok (set_mainAst ast st4)) as Hbuild.
    { assert (OLProcessor_new env entry = Ok es) as Hnew.
      { unfold OLProcessor_new.
        change (new_LuaScript env (path_resolve env entry) None) with es.
        by rewrite Hexists. }
      unfold build. rewrite Hnew, recurseResolve_entry.
      change (log_parsed (path es) 0 (set_modulesIds (path es) (-1) init_state)) with st3.
      by rewrite Hparse. }
    exists (set_mainAst ast st4). eexists. split; [exact Hbuild|].
    split; [unfold bundle; rewrite Hbuild; reflexivity|].
    destruct (build_linked _ _ _ _ Hbuild) as [Hmain Hstored].
    apply build_sound in Hbuild as (st4' & ast' & Heq & HI & Hext).
    fold e in HI, Hext, Hmain. fold es in Hmain, Hstored.
    rewrite Heq in Hmain, Hstored |- *.
    cbn [parsed sites modulesIds modulesAst set_mainAst] in *.
    split; [apply (inv_nodup _ _ HI)|]. split.
    { intros p i Hsite. apply (inv_sites _ _ HI) in Hsite as [Hres _].
      apply (inv_dom _ _ HI). eauto. }
    split.
    { intros p i j Hi Hj.
      apply (inv_sites _ _ HI) in Hi as [Hi _], Hj as [Hj _]. congruence. }
    split.
    { destruct (inv_entry _ _ HI) as [rest ->]. by left. }
    split; [exact Hmain|]. split.
    { intros p k Hrec Hpos.
      destruct (inv_val _ _ HI _ _ Hrec) as [->|[_ Hk]]; [lia|exact Hk]. }
    intros p k Hk Hpos.
    destruct (parsed_module_stored _ _ _ _ HI Hext Hk Hpos) as [Hrec [tree Htree]].
    destruct (Hstored k tree Htree) as (s & c & Hs & Hc & Hlk).
    cbn [parsed set_mainAst] in Hs.
    assert (path s = p) as Hp.
    { eapply elem_of_snd_unique; [|exact Hs|exact Hk].
      rewrite (inv_ids _ _ HI). apply NoDup_seqZ. }
    exists s, c, tree. split; [exact Hp|]. rewrite <- Hp at 1.
    split; [exact Hc|]. split; [exact Hrec|]. split; [exact Htree|].
    apply Hlk. by intros q v [Hq _].
Qed.

(** ** The life of a record *)

Lemma stays_in_progress_refl e s tid st : stays_in_progress e s tid st st.
Proof. intros HI _ Hp. split; [done|]. split; [apply ext_refl|done]. Qed.

Lemma stays_in_progress_trans e s tid st1 st2 st3 :
  stays_in_progress e s tid st1 st2 → stays_in_progress e s tid st2 st3 →
  stays_in_progress e s tid st1 st3.
Proof.
  intros H12 H23 HI Hin Hp. destruct (H12 HI Hin Hp) as (HI2 & Hext12 & Hp2).
  assert ((s, tid) ∈ parsed st2) as Hin2.
  { destruct (ext_parsed _ _ Hext12) as [l ->]. apply elem_of_app. by left. }
  destruct (H23 HI2 Hin2 Hp2) as (HI3 & Hext23 & Hp3).
  split; [done|]. split; [by eapply ext_trans|done].
Qed.

Lemma stays_in_progress_import e s tid c st id st1 :
  (Inv e st → activation_post e c st (Some id) st1) →
  stays_in_progress e s tid st (log_site (path c) id st1).
Proof.
  intros Hpost HI Hin Hp.
  destruct (Hpost HI) as (id' & [= <-] & HI1 & Hext & Hkeep & Hres).
  split; [by apply Inv_log_site|]. split.
  - eapply ext_trans; [exact Hext|apply ext_log_site].
  - apply Hkeep in Hp. exact Hp.
Qed.

(** C3, as the code has it. During a build, reaching a script whose record
    is in progress raises CircularDependency. A script that has no record
    gets one, in progress, before it is parsed; when its activation returns
    the record holds the script's id; and if the script has no export
    assignment, its record is still in progress when its rewrite pass ends:
    it became resolved only once the script was fully parsed and
    rewritten. *)
Theorem record_lifecycle env entryScript e fuel script previous st :
  Inv e st →
  (in_progress st (path script) →
   recurseResolve env entryScript (S fuel) script (Some previous) st
   = Throw (CircularDependency (path script) (path previous)))
  ∧ (modulesIds st !! path script = None →
     let tid := currModuleId st + 1 in
     let st3 := log_parsed (path script) tid
                  (set_modulesIds (path script) (-1) (set_currModuleId tid st)) in
     in_progress st3 (path script)
     ∧ ∀ r st',
         recurseResolve env entryScript (S fuel) script (Some previous) st = Ok (r, st') →
         r = Some tid ∧ resolved st' (path script) tid
         ∧ ∃ ast st4,
             parse_with_hooks env entryScript script false tid
               (λ required, recurseResolve env entryScript fuel required (Some script)) st3
             = Ok (ast, st4)
             ∧ st' = set_modulesAst tid ast (set_modulesIds (path script) tid st4)
             ∧ ((∃ c, luaparse_parse env (path script) = Some c
                      ∧ forallb no_export (chunk_body c) = true) →
                in_progress st4 (path script))).
Proof.
  intros HI. split.
  - intros Hp. by apply (recurseResolve_in_progress _ _ _ _ _ _ _ Hp).
  - intros Hnone tid st3.
    assert (in_progress st3 (path script)) as Hp3.
    { unfold in_progress, st3. cbn. by rewrite lookup_insert_eq. }
    split; [exact Hp3|]. intros r st' Hrun.
    rewrite recurseResolve_fresh in Hrun by done. fold tid st3 in Hrun.
    destruct (parse_with_hooks _ _ _ _ _ _ st3) as [[ast st4]| |] eqn:Hparse;
      try discriminate Hrun.
    injection Hrun as <- <-.
    pose proof (inv_cur _ _ HI) as Hcur.
    split; [done|]. split.
    { split; [|unfold tid; lia]. cbn. by rewrite lookup_insert_eq. }
    exists ast, st4. split; [done|]. split; [done|]. intros Hfree.
    apply (parse_with_hooks_rel _ _ _ _ _ _ (stays_in_progress e (path script) tid) false)
      in Hparse.
    + destruct Hparse as (_ & _ & Hp4); [by apply Inv_enter| |exact Hp3|exact Hp4].
      cbn. apply elem_of_app. right. by apply list_elem_of_singleton.
    + apply stays_in_progress_refl.
    + apply stays_in_progress_trans.
    + intros module required st0 module_id st1 _ Hrec.
      apply stays_in_progress_import. intros HI0. eapply recurseResolve_sound; eauto.
    + discriminate.
    + intros _. exact Hfree.
Qed.

(** ** The loader at run time *)

(** A truthy cached value is returned as it is, and no body runs. *)
Lemma OL_require_cached packages fuel id s :
  Runtime.truthy (Runtime.table_get (Runtime.cached_packages s) id) = true →
  Runtime.OL_require packages (S fuel) id s
  = Some (Runtime.table_get (Runtime.cached_packages s) id, s).
Proof. intros H. cbn. by rewrite H. Qed.

(** X9. After a factory returned a truthy value, the next call of the
    loader for the same id returns that value and runs no body. *)
Lemma OL_require_twice packages fuel fuel' id s v s1 :
  Runtime.OL_require packages fuel id s = Some (v, s1) →
  Runtime.truthy v = true →
  Runtime.OL_require packages (S fuel') id s1 = Some (v, s1).
Proof.
  destruct fuel as [|fuel]; [discriminate|]. cbn.
  destruct (Runtime.truthy (Runtime.table_get (Runtime.cached_packages s) id)) eqn:Hc.
  - intros [= <- <-] _. by rewrite Hc.
  - destruct (packages !! id) as [f|]; [|discriminate].
    destruct (f _ _) as [[package s']|]; [|discriminate].
    intros [= <- <-] Hv.
    assert (Runtime.table_get (Runtime.cached_packages (Runtime.set_cached id package s')) id
            = package) as Hget.
    { unfold Runtime.table_get, Runtime.set_cached, Runtime.table_set. cbn.
      destruct package; try discriminate; by rewrite lookup_insert_eq. }
    by rewrite Hget, Hv.
Qed.

(** C1 fails on the code. The module [m.lua] of [Sample.required_twice]
    writes its export slot and returns nothing; bundled with id 1, its
    factory returns [nil], the loader stores [nil] over the value the body
    cached, and the second call of the loader for id 1 runs the body
    again. *)
Theorem loader_reruns_module_without_return :
  let packages : gmap Z Runtime.factory := {[ 1 := Sample.m_factory (Runtime.VRef 0) ]} in
  match Runtime.OL_require packages 1 1 Runtime.rt_init with
  | Some (v1, s1) =>
      v1 = Runtime.VNil
      ∧ Runtime.cached_packages s1 !! 1 = None
      ∧ Runtime.executed s1 = [1]
      ∧ match Runtime.OL_require packages 1 1 s1 with
        | Some (v2, s2) => v2 = Runtime.VNil ∧ Runtime.executed s2 = [1; 1]
        | None => False
        end
  | None => False
  end.
Proof. vm_compute. repeat split; reflexivity. Qed.

(** The bundle of that project: the registry entry of id 1 holds the body
    with the export rewritten and without a [return], and the entry script
    calls the loader for id 1 twice. *)
Lemma required_twice_bundle :
  chunk_body <$> (match bundle Sample.required_twice "/proj/main.lua" 2 with
                  | Ok c => Some c
                  | _ => None
                  end)
  = Some
      [ local_statement "__OL__require" [];
        local_statement "__OL__packages" [TableConstructorExpression []];
        local_statement "__OL__cached_packages" [TableConstructorExpression []];
        createRequireDef 1
          [ Sample.local_table "M";
            CallStatement (CallExpression (Sample.global "print") [Sample.str "loaded"]);
            AssignmentStatement [cache_write 1] [local_identifier "M"] ];
        loader_definition;
        CallStatement (loader_call 1);
        CallStatement (loader_call 1) ].
Proof. vm_compute. reflexivity. Qed.

(** ** Sample builds *)

(** A cycle between two scripts without export assignment aborts the
    build. *)
Lemma cycle_aborts :
  bundle Sample.cycle "/proj/main.lua" 4
  = Throw (CircularDependency "/proj/a.lua" "/proj/b.lua").
Proof. vm_compute. reflexivity. Qed.

(** C3 fails as stated. In [Sample.cycle_after_export] the script [a.lua]
    requires [b.lua] and [b.lua] requires [a.lua]; [a.lua] assigns its
    export slot first, so its record is resolved while it is still being
    parsed, and the build succeeds. *)
Lemma cycle_after_export_builds :
  let env := Sample.cycle_after_export in
  let main := new_LuaScript env "/proj/main.lua" None in
  let a := new_LuaScript env "/proj/a.lua" None in
  let b := new_LuaScript env "/proj/b.lua" None in
  luaparse_parse env (path a)
  = Some (Sample.chunk [ Sample.local_table "M";
                         AssignmentStatement [Sample.export_slot] [local_identifier "M"];
                         CallStatement (Sample.require_call "b") ])
  ∧ luaparse_parse env (path b)
    = Some (Sample.chunk [ CallStatement (Sample.require_call "a"); Sample.return_table ])
  ∧ getRequiredModule env main a "b" = Found b
  ∧ getRequiredModule env main b "a" = Found a
  ∧ succeeded (bundle env "/proj/main.lua" 4) = true
  ∧ match build env "/proj/main.lua" 4 with
    | Ok st => sites st = [("/proj/a.lua", 1); ("/proj/b.lua", 2); ("/proj/a.lua", 1)]
    | _ => False
    end.
Proof. cbv zeta. repeat split; vm_compute; reflexivity. Qed.

(** C8 fails as stated. The entry script of [Sample.extra_argument] is
    [require("m", x)]: the arguments of the import call are not a single
    string literal, and the build succeeds. *)
Lemma extra_argument_builds :
  let env := Sample.extra_argument in
  let args := [Sample.str "m"; Sample.global "x"] in
  luaparse_parse env "/proj/main.lua"
  = Some (Sample.chunk [ CallStatement (CallExpression (Sample.global "require") args) ])
  ∧ (∀ v raw, args ≠ [StringLiteral v raw])
  ∧ succeeded (process env "/proj/main.lua" {| debug := false; minify := false |} 2) = true.
Proof.
  cbv zeta. split; [vm_compute; reflexivity|]. split; [discriminate|].
  vm_compute. reflexivity.
Qed.

(** A specifier that names an installed package resolves to the file the
    package's manifest declares. *)
Lemma with_package_resolves :
  let env := Sample.with_package in
  let main := new_LuaScript env "/proj/main.lua" None in
  match getRequiredModule env main main "dep" with
  | Found dep =>
      path dep = "/proj/node_modules/dep/src/start.lua"
      ∧ (mainDir <$> package dep) = Some "/proj/node_modules/dep/src"
      ∧ (path <$> match getRequiredModule env main dep "util" with
                  | Found s => Some s
                  | _ => None
                  end) = Some "/proj/node_modules/dep/src/util.lua"
  | _ => False
  end.
Proof. vm_compute. repeat split; reflexivity. Qed.

(** ** Further properties of the code *)

(** *** Packages *)

(** X1. A package that [fromPackageJson] returns comes from a manifest that
    declares a non-empty [onelua.main]; its directory is the manifest's, its
    main script is that entry resolved against the directory, and the main
    script exists. *)
Theorem fromPackageJson_package env package_json_path pkg :
  fromPackageJson env package_json_path = Some (Some pkg) →
  ∃ cfg main,
    require_json env package_json_path = JsonObject cfg
    ∧ (pkg_onelua cfg ≫= onelua_main) = Some main
    ∧ main ≠ ""
    ∧ packageConfig pkg = cfg
    ∧ packageDir pkg = path_dirname env package_json_path
    ∧ mainScriptPath pkg = path_resolve2 env (path_dirname env package_json_path) main
    ∧ mainDir pkg = path_dirname env (mainScriptPath pkg)
    ∧ fs_existsSync env (mainScriptPath pkg) = true.
Proof.
  unfold fromPackageJson, declared_main.
  destruct (require_json env package_json_path) as [| |cfg]; try discriminate.
  destruct (pkg_onelua cfg) as [o|] eqn:Ho; [|discriminate].
  destruct (onelua_main o) as [m|] eqn:Hm; [|discriminate].
  case_bool_decide as Hempty; [discriminate|].
  destruct (fs_existsSync env _) eqn:Hexists; [|discriminate].
  intros [= <-]. exists cfg, m. cbn. rewrite Ho. cbn. rewrite Hm.
  repeat split; first [done | exact Hexists].
Qed.

(** *** The processor *)

(** X2. When the entry path names no file, [process] raises EntryNotFound
    before anything is parsed, whatever the options. *)
Theorem missing_entry_aborts env entry opts fuel :
  fs_existsSync env (path_resolve env entry) = false →
  build env entry fuel = Throw EntryNotFound
  ∧ process env entry opts fuel = Throw EntryNotFound.
Proof.
  intros Hmissing.
  assert (OLProcessor_new env entry = Throw EntryNotFound) as Hnew.
  { unfold OLProcessor_new, script_exists. cbn. by rewrite Hmissing. }
  assert (build env entry fuel = Throw EntryNotFound) as Hbuild.
  { unfold build. by rewrite Hnew. }
  split; [exact Hbuild|]. unfold process, bundle. by rewrite Hbuild.
Qed.

(** *** Import calls *)

Section ImportCalls.
Context (env : Env) (entryScript : LuaScript).
Context (script : LuaScript) (is_entry : bool) (thisModuleId : Z).
Context (recurseResolve' : LuaScript → M (option Z)).

Abbreviation rwX := (rewrite env entryScript script is_entry thisModuleId recurseResolve').

Lemma call_hook_not_found b args st b' st1 v raw rest' st2 :
rwX b st = Ok (b', st1) →
is_require b' = true →
mapM rwX args st1 = Ok (StringLiteral v raw :: rest', st2) →
getRequiredModule env entryScript script v = NotFound →
rwX (CallExpression b args) st = Throw (ModuleNotFound v (path script)).
Proof.
intros Hb Hreq Hargs Hnone. cbn [rewrite].
rewrite (bind_step _ _ _ _ _ Hb), (bind_step _ _ _ _ _ Hargs).
unfold callExpression_hook. rewrite Hreq.
rewrite bool_decide_eq_false_2 by (intros H; apply H; reflexivity).
cbn [node_value_string]. unfold new_astnode. by rewrite Hnone.
Qed.

(** X4. The string-call form [require "m"] is replaced like the general
  form: by a call of the loader with the numeric literal of the id that
  the specifier resolved to. *)
Theorem string_import_call_rewritten b st b' st1 v raw required module_id st2 :
rwX b st = Ok (b', st1) →
is_require b' = true →
getRequiredModule env entryScript script v = Found required →
recurseResolve' required st1 = Ok (Some module_id, st2) →
rwX (StringCallExpression b (StringLiteral v raw)) st
= Ok (CallExpression (Identifier "__OL__require" (Some true))
        [NumericLiteral (JsNumber module_id) (toString module_id)],
      log_site (path required) module_id st2).
Proof.
intros Hb Hreq Hfound Hrec. cbn [rewrite].
rewrite (bind_step _ _ _ _ _ Hb). unfold bind at 1. cbn [ret].
unfold stringCallExpression_hook. rewrite Hreq. cbn [node_value_string].
apply new_astnode_Ok. eauto 10.
Qed.

Lemma mapM_verbatim (P1 P2 : node → Prop) l :
Forall (λ n, P1 n → P2 n → ∀ st, rwX n st = Ok (n, st)) l →
Forall P1 l → Forall P2 l →
∀ st, mapM rwX l st = Ok (l, st).
Proof.
induction 1 as [|x l Hx _ IH]; intros H1 H2 st.
- reflexivity.
- apply Forall_cons in H1 as [H1x H1], H2 as [H2x H2].
  rewrite mapM_cons, (bind_step _ _ _ _ _ (Hx H1x H2x st)).
  rewrite (bind_step _ _ _ _ _ (IH H1 H2 st)). reflexivity.
Qed.

Lemma optM_verbatim (f1 f2 : node → bool) o :
from_option (λ n, f1 n = true → f2 n = true → ∀ st, rwX n st = Ok (n, st)) True o →
from_option f1 true o = true → from_option f2 true o = true →
∀ st, optM rwX o st = Ok (o, st).
Proof.
destruct o as [n|]; simpl; intros IH H1 H2 st; [|reflexivity].
rewrite (bind_step _ _ _ _ _ (IH H1 H2 st)). reflexivity.
Qed.

Lemma rewrite_verbatim n :
imports_ok (λ _, false) n = true → no_export n = true →
∀ st, rwX n st = Ok (n, st).
Proof.
induction n using node_induction; cbn [imports_ok no_export rewrite];
  intros Himp Hexp st;
  repeat match goal with
    | H : _ && _ = true |- _ => apply andb_true_iff in H as [? ?]
    | H : forallb _ _ = true |- _ => apply forallb_Forall in H
    | H : Forall (λ n, imports_ok _ n = true → _) ?l,
      H1 : Forall (λ x, imports_ok _ x = true) ?l,
      H2 : Forall (λ x, no_export x = true) ?l |- _ =>
        pose proof (mapM_verbatim _ _ l H H1 H2); clear H
    | H : from_option _ True ?o,
      H1 : from_option (imports_ok _) true ?o = true,
      H2 : from_option no_export true ?o = true |- _ =>
        pose proof (optM_verbatim _ _ o H H1 H2); clear H
    end;
  repeat (erewrite bind_step; [|solve [eauto]]);
  try reflexivity.
- (* CallExpression *)
  unfold callExpression_hook. destruct (is_require n); [|reflexivity].
  destruct args as [|[] ?]; discriminate.
- (* StringCallExpression *)
  unfold stringCallExpression_hook. destruct (is_require n1); [|reflexivity].
  destruct n2; discriminate.
- (* AssignmentStatement *)
  unfold assignmentStatement_hook.
  destruct (is_export_slot vars); [discriminate|reflexivity].
Qed.

Lemma untouched_list_verbatim l :
forallb untouched l = true → ∀ st, mapM rwX l st = Ok (l, st).
Proof.
intros Hl st.
apply (mapM_verbatim (λ n, imports_ok (λ _, false) n = true) (λ n, no_export n = true)).
- apply Forall_forall. intros n _. apply rewrite_verbatim.
- apply forallb_Forall in Hl. eapply Forall_impl; [exact Hl|].
  intros n Hn. unfold untouched in Hn. by apply andb_true_iff in Hn as [? _].
- apply forallb_Forall in Hl. eapply Forall_impl; [exact Hl|].
  intros n Hn. unfold untouched in Hn. by apply andb_true_iff in Hn as [_ ?].
Qed.

(** X5. A tree without import call and without export assignment is
  returned as it is, and the state is left as it is; in particular the
  table-call form [require{...}], a call of a member named [require] and
  a write to [package.loaded] at another key than [...] stay in the
  bundle verbatim. *)
Theorem untouched_tree_verbatim n :
untouched n = true → ∀ st, rwX n st = Ok (n, st).
Proof.
unfold untouched. intros Hn st.
apply andb_true_iff in Hn as [Himp Hexp].
apply rewrite_verbatim; [exact Himp|exact Hexp].
Qed.

Lemma call_hook_lookup_throws b args st b' st1 v raw rest' st2 :
rwX b st = Ok (b', st1) →
is_require b' = true →
mapM rwX args st1 = Ok (StringLiteral v raw :: rest', st2) →
getRequiredModule env entryScript script v = LookupThrows →
rwX (CallExpression b args) st = Throw TypeError.
Proof.
intros Hb Hreq Hargs Hnone. cbn [rewrite].
rewrite (bind_step _ _ _ _ _ Hb), (bind_step _ _ _ _ _ Hargs).
unfold callExpression_hook. rewrite Hreq.
rewrite bool_decide_eq_false_2 by (intros H; apply H; reflexivity).
cbn [node_value_string]. unfold new_astnode. by rewrite Hnone.
Qed.

Lemma mapM_kind l : ∀ st l' st',
mapM rwX l st = Ok (l', st') → Forall2 (λ n n', kind n' = kind n) l l'.
Proof.
induction l as [|x l IH]; intros st l' st' H.
- rewrite mapM_nil in H. apply ret_Ok in H as [<- _]. constructor.
- apply mapM_head in H as (x' & tl' & st1 & -> & Hx & Hl).
  constructor; [by eapply rewrite_kind|by eapply IH].
Qed.

(** X16. Parsing a script with the hooks installed keeps the number and the
  kinds of its statements, and keeps its comments and its globals as the
  parser gave them. *)
Theorem parse_with_hooks_keeps_shape st ast st' :
parse_with_hooks env entryScript script is_entry thisModuleId recurseResolve' st
= Ok (ast, st') →
∃ c,
  luaparse_parse env (path script) = Some c
  ∧ Forall2 (λ n n', kind n' = kind n) (chunk_body c) (chunk_body ast)
  ∧ length (chunk_body ast) = length (chunk_body c)
  ∧ chunk_comments ast = chunk_comments c
  ∧ chunk_globals ast = chunk_globals c.
Proof.
unfold parse_with_hooks.
destruct (luaparse_parse env (path script)) as [c|];
  [|intros H; by apply bind_throw_Ok in H].
intros H. apply bind_Ok in H as (body' & st1 & Hbody & H).
apply ret_Ok in H as [<- _]. exists c. cbn.
split; [done|]. split; [by eapply mapM_kind|].
split; [by eapply mapM_length|done].
Qed.

(** X13. Once the assignment hook has rewritten an export assignment of a
  required script, importing that script again returns its id and leaves
  the state as it is: the script is not parsed a second time and no
  CircularDependency is raised, although its own parse has not ended. *)
Theorem import_after_export_returns_id vars init st n' st' fuel previous :
is_entry = false →
0 < thisModuleId →
is_export_slot vars = true →
assignmentStatement_hook script is_entry thisModuleId (AssignmentStatement vars init) st
= Ok (n', st') →
recurseResolve env entryScript (S fuel) script previous st' = Ok (Some thisModuleId, st').
Proof.
intros Hentry Hpos Hslot Hhook.
apply assignmentStatement_hook_cases in Hhook as [(Hno & _)|(_ & _ & _ & ->)];
  [congruence|].
apply recurseResolve_resolved; [|exact Hpos].
cbn. by rewrite lookup_insert_eq.
Qed.
End ImportCalls.

(** X3. An import call whose specifier no strategy resolves raises
    ModuleNotFound, which names the specifier and the requiring script; when
    the call is a statement of the entry script, [process] ends with that
    exception. *)
Theorem unresolved_import_aborts :
  (∀ env entryScript script is_entry thisModuleId recurseResolve'
     b args st b' st1 v raw rest' st2,
     let rw := rewrite env entryScript script is_entry thisModuleId recurseResolve' in
     rw b st = Ok (b', st1) →
     is_require b' = true →
     mapM rw args st1 = Ok (StringLiteral v raw :: rest', st2) →
     getRequiredModule env entryScript script v = NotFound →
     rw (CallExpression b args) st = Throw (ModuleNotFound v (path script)))
  ∧ (∀ env entry opts fuel entryScript c pre b args post pre' st0 b' st1 v raw rest' st2,
       let rw := rewrite env entryScript entryScript true 0
                   (λ required,
                      recurseResolve env entryScript fuel required (Some entryScript)) in
       OLProcessor_new env entry = Ok entryScript →
       luaparse_parse env (path entryScript) = Some c →
       chunk_body c = pre ++ CallStatement (CallExpression b args) :: post →
       mapM rw pre
         (log_parsed (path entryScript) 0
            (set_modulesIds (path entryScript) (-1) init_state))
       = Ok (pre', st0) →
       rw b st0 = Ok (b', st1) →
       is_require b' = true →
       mapM rw args st1 = Ok (StringLiteral v raw :: rest', st2) →
       getRequiredModule env entryScript entryScript v = NotFound →
       process env entry opts (S fuel) = Throw (ModuleNotFound v (path entryScript))).
Proof.
  split.
  - intros. by eapply call_hook_not_found.
  - intros env entry opts fuel es c pre b args post pre' st0 b' st1 v raw rest' st2 rw
      Hnew Hc Hbody Hpre Hb Hreq Hargs Hnone.
    eapply entry_statement_throw; eauto.
    cbn [rewrite]. apply bind_Throw.
    by eapply call_hook_not_found.
Qed.

(** *** The resolver *)

Lemma dots_to_slashes_idemp s : dots_to_slashes (dots_to_slashes s) = dots_to_slashes s.
Proof.
  induction s as [|c s IH]; [reflexivity|]. cbn. rewrite IH. f_equal.
  destruct (bool_decide (c = "."%char)) eqn:Hc; [reflexivity|]. by rewrite Hc.
Qed.

(** X10. Dots and slashes are the same to the resolver: a specifier and the
    specifier with its dots turned into slashes resolve alike, and no dot is
    left in the name that is looked up. *)
Theorem dotted_specifier_resolves_as_path env entryScript base_script module :
  getRequiredModule env entryScript base_script (dots_to_slashes module)
  = getRequiredModule env entryScript base_script module
  ∧ ∀ i, String.get i (dots_to_slashes module) ≠ Some "."%char.
Proof.
  split.
  - unfold getRequiredModule. rewrite dots_to_slashes_idemp. reflexivity.
  - induction module as [|c s IH]; intros i; [by destruct i|].
    destruct i as [|i]; cbn.
    + destruct (bool_decide (c = "."%char)) eqn:Hc; [discriminate|].
      apply bool_decide_eq_false in Hc. congruence.
    + apply IH.
Qed.

(** X11. A script that is found by one of the three strategies on files
    exists, lies where the strategy looked and belongs to the package of the
    requiring script; any other script comes from the lookup among
    installed packages. *)
Theorem found_script_origin env entryScript base_script module s :
  getRequiredModule env entryScript base_script module = Found s →
  (fs_existsSync env (path s) = true
   ∧ package s = package base_script
   ∧ baseDir s = path_dirname env (path s)
   ∧ ∃ dir, path s = path_join env dir (dots_to_slashes module +:+ ".lua")
            ∧ (dir = baseDir base_script
               ∨ (∃ pkg, package base_script = Some pkg ∧ dir = mainDir pkg)
               ∨ (package base_script = None ∧ dir = baseDir entryScript)))
  ∨ installed_lookup env (baseDir base_script) (dots_to_slashes module) = Found s.
Proof.
  unfold getRequiredModule.
  destruct (fs_existsSync env (path_join env (baseDir base_script) _)) eqn:H1.
  { intros [= <-]. left. cbn. eauto 10. }
  destruct (package base_script) as [pkg|] eqn:Hpkg.
  - destruct (fs_existsSync env (path_join env (mainDir pkg) _)) eqn:H2.
    + intros [= <-]. left. cbn. eauto 12.
    + intros H. by right.
  - destruct (fs_existsSync env (path_join env (baseDir entryScript) _)) eqn:H3.
    + intros [= <-]. left. cbn. eauto 12.
    + intros H. by right.
Qed.

(** X12. When the [resolve] package returns a path but no manifest was
    handed to the package filter ([pkgPath] stays undefined), the lookup
    ends in a JavaScript exception, not in a not-found answer, and an import
    call that comes to it raises that exception instead of ModuleNotFound. *)
Theorem lookup_without_manifest_throws :
  (∀ env base_dir module p,
     nodeModPath (resolver env module base_dir) = Some p →
     pkgPath (resolver env module base_dir) = None →
     installed_lookup env base_dir module = LookupThrows)
  ∧ (∀ env entryScript script is_entry thisModuleId recurseResolve'
       b args st b' st1 v raw rest' st2,
       let rw := rewrite env entryScript script is_entry thisModuleId recurseResolve' in
       rw b st = Ok (b', st1) →
       is_require b' = true →
       mapM rw args st1 = Ok (StringLiteral v raw :: rest', st2) →
       getRequiredModule env entryScript script v = LookupThrows →
       rw (CallExpression b args) st = Throw TypeError).
Proof.
  split.
  - intros env base_dir module p Hp Hdir. unfold installed_lookup. by rewrite Hp, Hdir.
  - intros. by eapply call_hook_lookup_throws.
Qed.

(** X17. The condition of the assignment hook holds exactly of a list of
    targets whose first one is an index expression at the vararg literal
    [...] on a member expression whose base is an identifier named
    [package] and whose member is an identifier named [loaded]; the other
    targets, the indexer and the scope of the identifiers play no part. *)
Theorem export_slot_pattern vars :
  is_export_slot vars = true ↔
  ∃ indexer loaded_loc package_loc raw rest,
    vars = IndexExpression
             (MemberExpression indexer (Identifier "loaded" loaded_loc)
                (Identifier "package" package_loc))
             (VarargLiteral "..." raw) :: rest.
Proof.
  rewrite is_export_slot_spec. split.
  - intros (ix & idn & bb & raw & rest & -> & Hb & Hi).
    destruct bb; try discriminate Hb. destruct idn; try discriminate Hi.
    cbn in Hb, Hi. injection Hb as ->. injection Hi as ->. eauto 10.
  - intros (ix & l1 & l2 & raw & rest & ->). eauto 10.
Qed.


(** *** What a successful build leaves *)

(** The tables at the end of a build that returned. *)
Lemma build_final_tables env entry fuel st :
  build env entry fuel = Ok st →
  ∃ st4 ast,
    st = set_mainAst ast st4
    ∧ Inv (path_resolve env entry) st4
    ∧ ∀ p k, (p, k) ∈ parsed st4 → 0 < k →
             modulesIds st4 !! p = Some k ∧ is_Some (modulesAst st4 !! k).
Proof.
  intros H. apply build_sound in H as (st4 & ast & -> & HI & Hext).
  exists st4, ast. split; [done|]. split; [done|]. intros p k Hin Hpos.
  assert (is_Some (modulesAst st4 !! k)) as Hast.
  { destruct (ext_done _ _ Hext _ _ Hin) as [Hin0|Hast]; [|done].
    cbn in Hin0. apply list_elem_of_singleton in Hin0 as [= ? ?]; lia. }
  split; [|done].
  destruct (Inv_record _ _ _ _ HI Hin) as [Hprog|Hk]; [|done].
  apply (ext_back _ _ Hext) in Hprog. unfold in_progress in Hprog. cbn in Hprog.
  apply lookup_insert_Some in Hprog as [[<- _]|[_ Hprog]].
  - pose proof (Inv_entry_in_progress _ _ HI) as He.
    destruct (inv_entry _ _ HI) as [rest Hrest].
    assert (k = 0); [|lia].
    eapply (elem_of_fst_unique (parsed st4)); [apply (inv_nodup _ _ HI)|exact Hin|].
    rewrite Hrest. by left.
  - by rewrite lookup_empty in Hprog.
Qed.

(** X6. When the traversal returns, so does [process]: the entry script's
    tree was stored, the final tree is [createFinalAst] of the tables the
    traversal left, and the output is what the printer chosen by [minify]
    makes of it. *)
Theorem process_after_build env entry opts fuel st :
  build env entry fuel = Ok st →
  ∃ main,
    mainAst st = Some main
    ∧ bundle env entry fuel = Ok (createFinalAst (modulesIds st) (modulesAst st) main)
    ∧ process env entry opts fuel
      = Ok (if minify opts
            then luamin_minify env (createFinalAst (modulesIds st) (modulesAst st) main)
            else luaprint env (createFinalAst (modulesIds st) (modulesAst st) main)).
Proof.
  intros Hbuild.
  destruct (build_sound _ _ _ _ Hbuild) as (st4 & ast & Hst & _ & _).
  exists ast. assert (mainAst st = Some ast) as Hmain by (by rewrite Hst).
  split; [exact Hmain|].
  assert (bundle env entry fuel = Ok (createFinalAst (modulesIds st) (modulesAst st) ast))
    as Hbundle by (unfold bundle; by rewrite Hbuild, Hmain).
  split; [exact Hbundle|]. unfold process. by rewrite Hbundle.
Qed.

Lemma seq_StronglySorted len : ∀ start, StronglySorted lt (seq start len).
Proof.
  induction len as [|len IH]; intros start; cbn; constructor; [apply IH|].
  apply Forall_forall. intros y Hy. apply list_elem_of_In, in_seq in Hy. lia.
Qed.

Lemma seqZ_StronglySorted m n : StronglySorted Z.lt (seqZ m n).
Proof.
  unfold seqZ. eapply (StronglySorted_fmap _ lt); [|apply seq_StronglySorted].
  intros x y Hxy. lia.
Qed.

(** X14. After a successful build the keys of [modulesAst], in the order
    of [Object.keys], are 1, 2, ..., [currModuleId]: the registry of the
    bundle has one entry for every id handed out, none for the entry script,
    and no gap. *)
Theorem registry_keys_consecutive env entry fuel st :
  build env entry fuel = Ok st →
  Object_keys (modulesAst st) = seqZ 1 (currModuleId st)
  ∧ Z.of_nat (length (parsed st)) = currModuleId st + 1.
Proof.
  intros H. apply build_final_tables in H as (st4 & ast & -> & HI & Hfinal).
  cbn [modulesAst currModuleId parsed set_mainAst].
  pose proof (inv_ids _ _ HI) as Hids. pose proof (inv_cur _ _ HI) as Hcur.
  split.
  - apply (StronglySorted_unique_strong Z.lt).
    + intros x1 x2 _ _ ? ?. lia.
    + apply StronglySorted_le_lt.
      * apply StronglySorted_merge_sort; apply _.
      * unfold Object_keys. rewrite merge_sort_Permutation. apply NoDup_fst_map_to_list.
    + apply seqZ_StronglySorted.
    + apply NoDup_Permutation.
      * unfold Object_keys. rewrite merge_sort_Permutation. apply NoDup_fst_map_to_list.
      * apply NoDup_seqZ.
      * intros k. rewrite elem_of_Object_keys, elem_of_seqZ. split.
        -- intros Hk. destruct (inv_ast _ _ HI _ Hk) as [Hpos [p Hp]].
           assert (k ∈ (parsed st4).*2) as Hk2.
           { apply list_elem_of_fmap. by exists (p, k). }
           rewrite Hids in Hk2. apply elem_of_seqZ in Hk2. lia.
        -- intros Hk. assert (k ∈ (parsed st4).*2) as Hk2.
           { rewrite Hids. apply elem_of_seqZ. lia. }
           apply list_elem_of_fmap in Hk2 as ([p k'] & -> & Hin).
           apply (Hfinal p k' Hin). cbn in Hk. lia.
  - rewrite <- (length_fmap snd), Hids, length_seqZ. lia.
Qed.

(** X15. After a successful build every loader call that was written for an
    import carries the id recorded for the script the import resolved to,
    that id has a registry entry, calls for one path carry one id, and no
    call refers to the entry script. *)
Theorem loader_calls_have_registry_entries env entry fuel st p i :
  build env entry fuel = Ok st →
  (p, i) ∈ sites st →
  modulesIds st !! p = Some i
  ∧ 0 < i
  ∧ is_Some (modulesAst st !! i)
  ∧ p ≠ path_resolve env entry
  ∧ ∀ j, (p, j) ∈ sites st → j = i.
Proof.
  intros H Hsite. apply build_final_tables in H as (st4 & ast & -> & HI & Hfinal).
  cbn [modulesIds modulesAst sites set_mainAst] in *.
  destruct (inv_sites _ _ HI _ _ Hsite) as [Hrec Hpos].
  split; [done|]. split; [done|]. split; [|split].
  - destruct (inv_val _ _ HI _ _ Hrec) as [->|[_ Hin]]; [lia|].
    by apply (Hfinal p i Hin).
  - intros ->. pose proof (Inv_entry_in_progress _ _ HI) as He.
    unfold in_progress in He. rewrite He in Hrec. injection Hrec. lia.
  - intros j Hj. destruct (inv_sites _ _ HI _ _ Hj) as [Hrecj _]. congruence.
Qed.

(** *** The emitter *)

Lemma globals_loop (asts : gmap Z Chunk) keys finalAst :
  (∀ k, k ∈ keys → is_Some (asts !! k)) →
  ∃ gss,
    Forall2 (λ k gs, ∃ ast, asts !! k = Some ast ∧ gs = chunk_globals ast) keys gss
    ∧ chunk_globals
        (foldl (λ finalAst id,
                  match asts !! id with
                  | Some ast =>
                      push_globals
                        (push_body finalAst [createRequireDef id (chunk_body ast)])
                        (chunk_globals ast)
                  | None => finalAst
                  end) finalAst keys)
      = chunk_globals finalAst ++ concat gss
    ∧ chunk_comments
        (foldl (λ finalAst id,
                  match asts !! id with
                  | Some ast =>
                      push_globals
                        (push_body finalAst [createRequireDef id (chunk_body ast)])
                        (chunk_globals ast)
                  | None => finalAst
                  end) finalAst keys)
      = chunk_comments finalAst.
Proof.
  revert finalAst. induction keys as [|k keys IH]; intros finalAst Hin.
  - exists []. split; [constructor|]. simpl. by rewrite app_nil_r.
  - destruct (Hin k) as [ast Hast]; [by left|].
    destruct (IH (push_globals (push_body finalAst [createRequireDef k (chunk_body ast)])
                    (chunk_globals ast))) as (gss & Hgs & Heq & Hcom).
    { intros k' Hk'. apply Hin. by right. }
    exists (chunk_globals ast :: gss). split; [constructor; eauto|].
    simpl. rewrite Hast, Heq, Hcom. simpl. by rewrite <- app_assoc.
Qed.

(** X8. The globals of the emitted program are the globals of the modules,
    in ascending order of their ids, followed by those of the entry script;
    the emitted program carries no comment, whatever comments the scripts
    had. *)
Theorem createFinalAst_globals (ids : gmap string Z) (asts : gmap Z Chunk) (main : Chunk) :
  ∃ gss,
    Forall2 (λ k gs, ∃ ast, asts !! k = Some ast ∧ gs = chunk_globals ast)
      (Object_keys asts) gss
    ∧ chunk_globals (createFinalAst ids asts main) = concat gss ++ chunk_globals main
    ∧ chunk_comments (createFinalAst ids asts main) = [].
Proof.
  destruct (globals_loop asts (Object_keys asts)
              (push_body
                 (push_body (mkChunk [local_statement "__OL__require" []] [] [])
                    [local_statement "__OL__packages" [TableConstructorExpression []]])
                 [local_statement "__OL__cached_packages" [TableConstructorExpression []]]))
    as (gss & Hgs & Heq & Hcom).
  { intros k Hk. by apply elem_of_Object_keys. }
  exists gss. split; [exact Hgs|].
  unfold createFinalAst. cbn [chunk_globals chunk_comments push_globals push_body].
  rewrite Heq, Hcom. split; reflexivity.
Qed.

(** *** Activations *)

(** X7. The entry script cannot be required: its record stays in progress
    for the whole build, so an import that resolves to it raises
    CircularDependency, naming the entry script and the requiring script. *)
Theorem importing_entry_aborts env entryScript e fuel required script st :
  Inv e st →
  path required = e →
  in_progress st e
  ∧ recurseResolve env entryScript (S fuel) required (Some script) st
    = Throw (CircularDependency e (path script)).
Proof.
  intros HI Hpath. pose proof (Inv_entry_in_progress _ _ HI) as He.
  split; [exact He|]. rewrite <- Hpath in *.
  apply (recurseResolve_in_progress _ _ _ _ _ _ (-1)); [exact He|lia].
Qed.

(** X18. A required script that has no record and whose file has neither
    import call nor export assignment is parsed once and stored verbatim:
    the activation takes the next id, records it for the path, stores the
    parser's tree under it and returns it. *)
Theorem leaf_module_stored_verbatim env entryScript fuel script previous st c :
  modulesIds st !! path script = None →
  luaparse_parse env (path script) = Some c →
  forallb untouched (chunk_body c) = true →
  let id := currModuleId st + 1 in
  recurseResolve env entryScript (S fuel) script (Some previous) st
  = Ok (Some id,
        set_modulesAst id c
          (set_modulesIds (path script) id
             (log_parsed (path script) id
                (set_modulesIds (path script) (-1) (set_currModuleId id st))))).
Proof.
  intros Hnone Hc Hleaf id. rewrite recurseResolve_fresh by exact Hnone. fold id.
  unfold parse_with_hooks. rewrite Hc.
  rewrite (bind_step _ _ _ _ _ (untouched_list_verbatim _ _ _ _ _ _ _ Hleaf _)).
  cbn [ret]. destruct c as [body comments globals]. reflexivity.
Qed.

(** X19. A parse error is not caught, and by then the hooks have run on
    what the parser completed before it. When the parser rejects the file of
    a script that has no record, the activation ends as the rewriting of the
    trees completed before the error ends when that raises an exception,
    and with the syntax error when it does not; so does [process] when the
    parser rejects the entry script. In particular the syntax error is
    raised when those trees hold neither an import call nor an export
    assignment, and ModuleNotFound is raised instead when the first of them
    is the statement [require("v")] for a specifier that resolves to no
    file. *)
Theorem syntax_error_aborts :
  (∀ env entryScript fuel script previous st,
     modulesIds st !! path script = None →
     luaparse_parse env (path script) = None →
     recurseResolve env entryScript (S fuel) script (Some previous) st
     = match mapM (rewrite env entryScript script false (currModuleId st + 1)
                     (λ required,
                        recurseResolve env entryScript fuel required (Some script)))
               (luaparse_built env (path script))
               (log_parsed (path script) (currModuleId st + 1)
                  (set_modulesIds (path script) (-1)
                     (set_currModuleId (currModuleId st + 1) st))) with
       | Ok _ => Throw (SyntaxError (path script))
       | Throw e => Throw e
       | OutOfFuel => OutOfFuel
       end)
  ∧ (∀ env entry opts fuel entryScript,
       OLProcessor_new env entry = Ok entryScript →
       luaparse_parse env (path entryScript) = None →
       process env entry opts (S fuel)
       = match mapM (rewrite env entryScript entryScript true 0
                       (λ required,
                          recurseResolve env entryScript fuel required
                            (Some entryScript)))
                 (luaparse_built env (path entryScript))
                 (log_parsed (path entryScript) 0
                    (set_modulesIds (path entryScript) (-1) init_state)) with
         | Ok _ => Throw (SyntaxError (path entryScript))
         | Throw e => Throw e
         | OutOfFuel => OutOfFuel
         end)
  ∧ (∀ env entryScript fuel script previous st,
       modulesIds st !! path script = None →
       luaparse_parse env (path script) = None →
       forallb untouched (luaparse_built env (path script)) = true →
       recurseResolve env entryScript (S fuel) script (Some previous) st
       = Throw (SyntaxError (path script)))
  ∧ (∀ env entryScript fuel script previous st l v raw rest,
       modulesIds st !! path script = None →
       luaparse_parse env (path script) = None →
       luaparse_built env (path script)
       = CallStatement (CallExpression (Identifier "require" l) [StringLiteral v raw])
         :: rest →
       getRequiredModule env entryScript script v = NotFound →
       recurseResolve env entryScript (S fuel) script (Some previous) st
       = Throw (ModuleNotFound v (path script))).
Proof.
  split; [|split; [|split]].
  - intros env es fuel script previous st Hnone Hparse.
    rewrite recurseResolve_fresh by exact Hnone.
    unfold parse_with_hooks. rewrite Hparse. unfold bind, throw.
    destruct (mapM _ _ _) as [[built' st4]| |]; reflexivity.
  - intros env entry opts fuel es Hnew Hparse.
    unfold process, bundle, build. rewrite Hnew, recurseResolve_entry.
    unfold parse_with_hooks. rewrite Hparse. unfold bind, throw.
    destruct (mapM _ _ _) as [[built' st4]| |]; reflexivity.
  - intros env es fuel script previous st Hnone Hparse Hleaf.
    apply module_throw_propagates; [exact Hnone|].
    unfold parse_with_hooks. rewrite Hparse.
    rewrite (bind_step _ _ _ _ _ (untouched_list_verbatim _ _ _ _ _ _ _ Hleaf _)).
    reflexivity.
  - intros env es fuel script previous st l v raw rest Hnone Hparse Hbuilt Hmissing.
    apply module_throw_propagates; [exact Hnone|].
    unfold parse_with_hooks. rewrite Hparse, Hbuilt, mapM_cons.
    do 2 apply bind_Throw.
    apply (bind_Throw
             (rewrite env es script false (currModuleId st + 1)
                (λ required, recurseResolve env es fuel required (Some script))
                (CallExpression (Identifier "require" l) [StringLiteral v raw]))
             (λ e', ret (CallStatement e'))).
    eapply call_hook_not_found; [reflexivity|reflexivity|reflexivity|exact Hmissing].
Qed.

(** ** The theorems at sample inputs *)

Lemma module_ids_in_encounter_order_witness :
  let st := Sample.shared_state in
    build Sample.shared "/proj/main.lua" 3 = Ok st
    ∧ ∃ rest,
        parsed st = ("/proj/main.lua", 0) :: rest
        ∧ (parsed st).*2 = seqZ 0 (Z.of_nat (length (parsed st)))
        ∧ NoDup (parsed st).*1
        ∧ (∀ p k, (p, k) ∈ rest →
             0 < k ∧ modulesIds st !! p = Some k ∧ is_Some (modulesAst st !! k))
        ∧ (∀ p k, modulesIds st !! p = Some k → 0 < k → (p, k) ∈ rest)
        ∧ (∀ k, is_Some (modulesAst st !! k) → ∃ p, (p, k) ∈ rest)
        ∧ (∀ p q k, 0 < k → modulesIds st !! p = Some k →
                    modulesIds st !! q = Some k → p = q)
        ∧ modulesIds st !! "/proj/main.lua" = Some (-1).
Proof.
  cbv zeta. split; [vm_compute; reflexivity|].
  apply (module_ids_in_encounter_order Sample.shared "/proj/main.lua" 3).
  vm_compute. reflexivity.
Defined.

Lemma acyclic_build_succeeds_witness :
  let env := Sample.shared in
  let entry := "/proj/main.lua" in
  acyclic_project env entry Sample.shared_rank Sample.shared_scripts = true
  ∧ (Sample.shared_rank (path_resolve env entry) < 3)%nat
  ∧ ∃ st finalAst,
      build env entry 3 = Ok st
      ∧ bundle env entry 3 = Ok finalAst
      ∧ NoDup (parsed st).*1
      ∧ (∀ p i, (p, i) ∈ sites st → p ∈ (parsed st).*1)
      ∧ (∀ p i j, (p, i) ∈ sites st → (p, j) ∈ sites st → i = j)
      ∧ (path_resolve env entry, 0) ∈ parsed st
      ∧ (∃ c main,
           luaparse_parse env (path_resolve env entry) = Some c
           ∧ mainAst st = Some main
           ∧ linked_chunk env (new_LuaScript env (path_resolve env entry) None)
               (new_LuaScript env (path_resolve env entry) None) true 0
               (modulesIds st) c
             = Some main)
      ∧ (∀ p k, modulesIds st !! p = Some k → 0 < k → (p, k) ∈ parsed st)
      ∧ (∀ p k, (p, k) ∈ parsed st → 0 < k →
           ∃ s c ast,
             path s = p
             ∧ luaparse_parse env p = Some c
             ∧ modulesIds st !! p = Some k
             ∧ modulesAst st !! k = Some ast
             ∧ linked_chunk env (new_LuaScript env (path_resolve env entry) None)
                 s false k (modulesIds st) c
               = Some ast).
Proof.
  cbv zeta. split; [vm_compute; reflexivity|]. split; [vm_compute; lia|].
  apply (acyclic_build_succeeds Sample.shared "/proj/main.lua" Sample.shared_rank
           Sample.shared_scripts 3).
  - vm_compute. reflexivity.
  - vm_compute. lia.
Defined.

Lemma record_lifecycle_witness :
  let env := Sample.cycle in
  let main := new_LuaScript env "/proj/main.lua" None in
  let a := new_LuaScript env "/proj/a.lua" None in
  let st := log_parsed "/proj/main.lua" 0 (set_modulesIds "/proj/main.lua" (-1) init_state) in
  Inv "/proj/main.lua" st
  ∧ in_progress st (path main)
  ∧ recurseResolve env main 1 main (Some a) st
    = Throw (CircularDependency "/proj/main.lua" "/proj/a.lua").
Proof.
  cbv zeta. split; [apply Inv_init|]. split; [reflexivity|].
  apply (record_lifecycle Sample.cycle (new_LuaScript Sample.cycle "/proj/main.lua" None)
           "/proj/main.lua" 0 (new_LuaScript Sample.cycle "/proj/main.lua" None)
           (new_LuaScript Sample.cycle "/proj/a.lua" None) _ (Inv_init _)).
  reflexivity.
Defined.

Lemma export_assignment_rewrite_witness :
  let env := Sample.cycle_after_export in
  let main := new_LuaScript env "/proj/main.lua" None in
  let a := new_LuaScript env "/proj/a.lua" None in
  let rw := rewrite env main a false 1 (λ _, ret (Some 2)) in
  let vars := [Sample.export_slot] in
  let init := [Sample.global "M"] in
  (is_export_slot vars = true
   ∧ mapM rw vars init_state = Ok (vars, init_state)
   ∧ mapM rw init init_state = Ok (init, init_state)
   ∧ rw (AssignmentStatement vars init) init_state
     = Ok (AssignmentStatement
             [IndexExpression (Identifier "__OL__cached_packages" None)
                (NumericLiteral (JsNumber 1) "1")]
             init,
           set_modulesIds "/proj/a.lua" 1 init_state))
  ∧ process Sample.entry_exports "/proj/main.lua" {| debug := false; minify := false |} 1
    = Throw InvalidExportPosition.
Proof.
  cbv zeta. split.
  - split; [reflexivity|]. split; [reflexivity|]. split; [reflexivity|].
    apply (proj1 export_assignment_rewrite Sample.cycle_after_export
             (new_LuaScript Sample.cycle_after_export "/proj/main.lua" None)
             (new_LuaScript Sample.cycle_after_export "/proj/a.lua" None)
             false 1 (λ _, ret (Some 2))
             [Sample.export_slot] [Sample.global "M"] init_state
             [Sample.export_slot] [Sample.global "M"] init_state init_state);
      reflexivity.
  - apply (proj2 export_assignment_rewrite Sample.entry_exports "/proj/main.lua"
             {| debug := false; minify := false |} 0%nat
             (new_LuaScript Sample.entry_exports "/proj/main.lua" None)
             (Sample.chunk [AssignmentStatement [Sample.export_slot] [Sample.global "M"]])
             [] [Sample.export_slot] [Sample.global "M"] [] []
             (log_parsed "/proj/main.lua" 0 (set_modulesIds "/proj/main.lua" (-1) init_state))
             [Sample.export_slot]
             (log_parsed "/proj/main.lua" 0 (set_modulesIds "/proj/main.lua" (-1) init_state))
             [Sample.global "M"]
             (log_parsed "/proj/main.lua" 0 (set_modulesIds "/proj/main.lua" (-1) init_state)));
      reflexivity.
Defined.

Lemma export_assignment_drops_other_targets_witness :
  let env := Sample.cycle_after_export in
  let main := new_LuaScript env "/proj/main.lua" None in
  let a := new_LuaScript env "/proj/a.lua" None in
  let rw := rewrite env main a false 1 (λ _, ret (Some 2)) in
  let vars := [Sample.export_slot; Sample.global "x"] in
  let init := [Sample.global "M"; Sample.global "y"] in
  (1 < length vars)%nat
  ∧ is_export_slot vars = true
  ∧ mapM rw vars init_state = Ok (vars, init_state)
  ∧ mapM rw init init_state = Ok (init, init_state)
  ∧ ∃ targets,
      rw (AssignmentStatement vars init) init_state
      = Ok (AssignmentStatement targets init, set_modulesIds "/proj/a.lua" 1 init_state)
      ∧ targets
        = [IndexExpression (Identifier "__OL__cached_packages" None)
             (NumericLiteral (JsNumber 1) "1")]
      ∧ (length targets < length vars)%nat
      ∧ length init = length init.
Proof.
  cbv zeta. split; [simpl; lia|]. split; [reflexivity|]. split; [reflexivity|].
  split; [reflexivity|].
  apply (export_assignment_drops_other_targets Sample.cycle_after_export
           (new_LuaScript Sample.cycle_after_export "/proj/main.lua" None)
           (new_LuaScript Sample.cycle_after_export "/proj/a.lua" None)
           false 1 (λ _, ret (Some 2))
           [Sample.export_slot; Sample.global "x"] [Sample.global "M"; Sample.global "y"]
           init_state
           [Sample.export_slot; Sample.global "x"] [Sample.global "M"; Sample.global "y"]
           init_state init_state);
    first [reflexivity | simpl; lia].
Defined.

Lemma import_call_keeps_first_argument_witness :
  let env := Sample.extra_argument in
  let main := new_LuaScript env "/proj/main.lua" None in
  let m := new_LuaScript env "/proj/m.lua" None in
  let rec : LuaScript → M (option Z) := λ _, ret (Some 1) in
  let rw := rewrite env main main true 0 rec in
  let args := [Sample.str "m"; Sample.global "x"] in
  rw (Sample.global "require") init_state = Ok (Sample.global "require", init_state)
  ∧ is_require (Sample.global "require") = true
  ∧ mapM rw args init_state = Ok (args, init_state)
  ∧ getRequiredModule env main main "m" = Found m
  ∧ rec m init_state = Ok (Some 1, init_state)
  ∧ rw (CallExpression (Sample.global "require") args) init_state
    = Ok (CallExpression (Identifier "__OL__require" (Some true))
            [NumericLiteral (JsNumber 1) "1"],
          log_site "/proj/m.lua" 1 init_state).
Proof.
  cbv zeta. repeat (split; [reflexivity|]).
  apply (import_call_keeps_first_argument Sample.extra_argument
           (new_LuaScript Sample.extra_argument "/proj/main.lua" None)
           (new_LuaScript Sample.extra_argument "/proj/main.lua" None)
           true 0 (λ _, ret (Some 1))
           (Sample.global "require") [Sample.str "m"; Sample.global "x"] init_state
           (Sample.global "require") init_state "m" "'m'" [Sample.global "x"] init_state
           (new_LuaScript Sample.extra_argument "/proj/m.lua" None) 1 init_state);
    reflexivity.
Defined.

Lemma import_call_first_argument_checked_witness :
  let env := Sample.variable_argument in
  let main := new_LuaScript env "/proj/main.lua" None in
  let rw := rewrite env main main true 0 (λ _, ret (Some 1)) in
  let args := [Sample.global "x"; Sample.str "m"] in
  (rw (Sample.global "require") init_state = Ok (Sample.global "require", init_state)
   ∧ is_require (Sample.global "require") = true
   ∧ mapM rw args init_state = Ok (args, init_state)
   ∧ node_type (Sample.global "x") ≠ "StringLiteral"
   ∧ rw (CallExpression (Sample.global "require") args) init_state
     = Throw (InvalidRequireArgument "Identifier"))
  ∧ process env "/proj/main.lua" {| debug := false; minify := false |} 1
    = Throw (InvalidRequireArgument "Identifier").
Proof.
  cbv zeta. split.
  - repeat (split; [first [reflexivity | discriminate]|]).
    apply (proj1 import_call_first_argument_checked Sample.variable_argument
             (new_LuaScript Sample.variable_argument "/proj/main.lua" None)
             (new_LuaScript Sample.variable_argument "/proj/main.lua" None)
             true 0 (λ _, ret (Some 1))
             (Sample.global "require") [Sample.global "x"; Sample.str "m"] init_state
             (Sample.global "require") init_state (Sample.global "x") [Sample.str "m"]
             init_state);
      first [reflexivity | discriminate].
  - apply (proj2 import_call_first_argument_checked Sample.variable_argument "/proj/main.lua"
             {| debug := false; minify := false |} 0%nat
             (new_LuaScript Sample.variable_argument "/proj/main.lua" None)
             (Sample.chunk
                [CallStatement (CallExpression (Sample.global "require") [Sample.global "x"])])
             [] (Sample.global "require") [Sample.global "x"] [] []
             (log_parsed "/proj/main.lua" 0 (set_modulesIds "/proj/main.lua" (-1) init_state))
             (Sample.global "require")
             (log_parsed "/proj/main.lua" 0 (set_modulesIds "/proj/main.lua" (-1) init_state))
             (Sample.global "x") []
             (log_parsed "/proj/main.lua" 0 (set_modulesIds "/proj/main.lua" (-1) init_state)));
      first [reflexivity | discriminate].
Defined.


Lemma getRequiredModule_in_order_witness :
  let env := Sample.with_package in
  let main := new_LuaScript env "/proj/main.lua" None in
  getRequiredModule env main main "dep" = resolve_in_order env main main "dep"
  ∧ (path <$> match getRequiredModule env main main "dep" with
              | Found s => Some s
              | _ => None
              end) = Some "/proj/node_modules/dep/src/start.lua".
Proof.
  cbv zeta. split.
  - exact (proj1 (getRequiredModule_in_order Sample.with_package
                    (new_LuaScript Sample.with_package "/proj/main.lua" None)
                    (new_LuaScript Sample.with_package "/proj/main.lua" None) "dep")).
  - vm_compute. reflexivity.
Defined.

Lemma fromPackageJson_package_witness :
  let env := Sample.with_package in
  let pkg := new_LuaPackage env Sample.dep_manifest "/proj/node_modules/dep"
               "/proj/node_modules/dep/src/start.lua" in
  fromPackageJson env "/proj/node_modules/dep/package.json" = Some (Some pkg)
  ∧ ∃ cfg main,
      require_json env "/proj/node_modules/dep/package.json" = JsonObject cfg
      ∧ (pkg_onelua cfg ≫= onelua_main) = Some main
      ∧ main ≠ ""
      ∧ packageConfig pkg = cfg
      ∧ packageDir pkg = path_dirname env "/proj/node_modules/dep/package.json"
      ∧ mainScriptPath pkg
        = path_resolve2 env (path_dirname env "/proj/node_modules/dep/package.json") main
      ∧ mainDir pkg = path_dirname env (mainScriptPath pkg)
      ∧ fs_existsSync env (mainScriptPath pkg) = true.
Proof.
  cbv zeta. split; [vm_compute; reflexivity|].
  apply (fromPackageJson_package Sample.with_package "/proj/node_modules/dep/package.json").
  vm_compute. reflexivity.
Defined.

Lemma missing_entry_aborts_witness :
  fs_existsSync Sample.shared (path_resolve Sample.shared "/proj/none.lua") = false
  ∧ build Sample.shared "/proj/none.lua" 3 = Throw EntryNotFound
  ∧ process Sample.shared "/proj/none.lua" {| debug := false; minify := true |} 3
    = Throw EntryNotFound.
Proof.
  split; [vm_compute; reflexivity|].
  apply (missing_entry_aborts Sample.shared "/proj/none.lua"
           {| debug := false; minify := true |} 3).
  vm_compute. reflexivity.
Defined.

Lemma unresolved_import_aborts_witness :
  let env := Sample.missing_module in
  let main := new_LuaScript env "/proj/main.lua" None in
  getRequiredModule env main main "nope" = NotFound
  ∧ process env "/proj/main.lua" {| debug := false; minify := false |} 1
    = Throw (ModuleNotFound "nope" "/proj/main.lua").
Proof.
  cbv zeta. split; [vm_compute; reflexivity|].
  apply (proj2 unresolved_import_aborts Sample.missing_module "/proj/main.lua"
           {| debug := false; minify := false |} 0%nat
           (new_LuaScript Sample.missing_module "/proj/main.lua" None)
           (Sample.chunk [CallStatement (Sample.require_call "nope")])
           [] (Sample.global "require") [Sample.str "nope"] [] []
           (log_parsed "/proj/main.lua" 0 (set_modulesIds "/proj/main.lua" (-1) init_state))
           (Sample.global "require")
           (log_parsed "/proj/main.lua" 0 (set_modulesIds "/proj/main.lua" (-1) init_state))
           "nope" "'nope'" []
           (log_parsed "/proj/main.lua" 0 (set_modulesIds "/proj/main.lua" (-1) init_state)));
    vm_compute; reflexivity.
Defined.

Lemma string_import_call_rewritten_witness :
  let env := Sample.string_call in
  let main := new_LuaScript env "/proj/main.lua" None in
  let m := new_LuaScript env "/proj/m.lua" None in
  let rec : LuaScript → M (option Z) := λ _, ret (Some 1) in
  let rw := rewrite env main main true 0 rec in
  rw (Sample.global "require") init_state = Ok (Sample.global "require", init_state)
  ∧ is_require (Sample.global "require") = true
  ∧ getRequiredModule env main main "m" = Found m
  ∧ rec m init_state = Ok (Some 1, init_state)
  ∧ rw (StringCallExpression (Sample.global "require") (Sample.str "m")) init_state
    = Ok (CallExpression (Identifier "__OL__require" (Some true))
            [NumericLiteral (JsNumber 1) "1"],
          log_site "/proj/m.lua" 1 init_state).
Proof.
  cbv zeta. repeat (split; [reflexivity|]).
  apply (string_import_call_rewritten Sample.string_call
           (new_LuaScript Sample.string_call "/proj/main.lua" None)
           (new_LuaScript Sample.string_call "/proj/main.lua" None)
           true 0 (λ _, ret (Some 1))
           (Sample.global "require") init_state (Sample.global "require") init_state
           "m" "'m'" (new_LuaScript Sample.string_call "/proj/m.lua" None) 1 init_state);
    reflexivity.
Defined.

Lemma untouched_tree_verbatim_witness :
  let env := Sample.shared in
  let main := new_LuaScript env "/proj/main.lua" None in
  let rw := rewrite env main main true 0 (λ _, throw TypeError) in
  forallb untouched Sample.lookalikes = true
  ∧ Forall (λ n, rw n init_state = Ok (n, init_state)) Sample.lookalikes.
Proof.
  cbv zeta. split; [reflexivity|].
  apply Forall_forall. intros n Hn.
  apply (untouched_tree_verbatim Sample.shared
           (new_LuaScript Sample.shared "/proj/main.lua" None)
           (new_LuaScript Sample.shared "/proj/main.lua" None)
           true 0 (λ _, throw TypeError) n).
  unfold Sample.lookalikes in Hn.
  repeat (apply elem_of_cons in Hn as [->|Hn]; [reflexivity|]).
  by apply elem_of_nil in Hn.
Defined.

Lemma process_after_build_witness :
  let st := Sample.shared_state in
  build Sample.shared "/proj/main.lua" 3 = Ok st
  ∧ ∃ main,
      mainAst st = Some main
      ∧ bundle Sample.shared "/proj/main.lua" 3
        = Ok (createFinalAst (modulesIds st) (modulesAst st) main)
      ∧ process Sample.shared "/proj/main.lua" {| debug := false; minify := false |} 3
        = Ok (luaprint Sample.shared (createFinalAst (modulesIds st) (modulesAst st) main)).
Proof.
  cbv zeta. split; [vm_compute; reflexivity|].
  apply (process_after_build Sample.shared "/proj/main.lua"
           {| debug := false; minify := false |} 3 Sample.shared_state).
  vm_compute. reflexivity.
Defined.

Lemma importing_entry_aborts_witness :
  let env := Sample.requires_entry in
  let main := new_LuaScript env "/proj/main.lua" None in
  let a := new_LuaScript env "/proj/a.lua" None in
  let st := log_parsed "/proj/main.lua" 0 (set_modulesIds "/proj/main.lua" (-1) init_state) in
  Inv "/proj/main.lua" st
  ∧ path main = "/proj/main.lua"
  ∧ in_progress st "/proj/main.lua"
  ∧ recurseResolve env main 1 main (Some a) st
    = Throw (CircularDependency "/proj/main.lua" "/proj/a.lua").
Proof.
  cbv zeta. split; [apply Inv_init|]. split; [reflexivity|].
  apply (importing_entry_aborts Sample.requires_entry
           (new_LuaScript Sample.requires_entry "/proj/main.lua" None) "/proj/main.lua" 0
           (new_LuaScript Sample.requires_entry "/proj/main.lua" None)
           (new_LuaScript Sample.requires_entry "/proj/a.lua" None) _ (Inv_init _)).
  reflexivity.
Defined.

Lemma OL_require_twice_witness :
  let packages : gmap Z Runtime.factory := {[ 1 := Sample.table_factory ]} in
  let s1 := Runtime.set_cached 1 (Runtime.VRef 0) (Runtime.log_executed 1 Runtime.rt_init) in
  Runtime.OL_require packages 1 1 Runtime.rt_init = Some (Runtime.VRef 0, s1)
  ∧ Runtime.truthy (Runtime.VRef 0) = true
  ∧ Runtime.OL_require packages 1 1 s1 = Some (Runtime.VRef 0, s1).
Proof.
  cbv zeta. split; [vm_compute; reflexivity|]. split; [reflexivity|].
  apply (OL_require_twice {[ 1 := Sample.table_factory ]} 1 0 1 Runtime.rt_init
           (Runtime.VRef 0)).
  - vm_compute. reflexivity.
  - reflexivity.
Defined.

Lemma found_script_origin_witness :
  let env := Sample.shared in
  let main := new_LuaScript env "/proj/main.lua" None in
  let a := new_LuaScript env "/proj/a.lua" None in
  getRequiredModule env main main "a" = Found a
  ∧ ((fs_existsSync env (path a) = true
      ∧ package a = package main
      ∧ baseDir a = path_dirname env (path a)
      ∧ ∃ dir, path a = path_join env dir (dots_to_slashes "a" +:+ ".lua")
               ∧ (dir = baseDir main
                  ∨ (∃ pkg, package main = Some pkg ∧ dir = mainDir pkg)
                  ∨ (package main = None ∧ dir = baseDir main)))
     ∨ installed_lookup env (baseDir main) (dots_to_slashes "a") = Found a).
Proof.
  cbv zeta. split; [vm_compute; reflexivity|].
  apply (found_script_origin Sample.shared
           (new_LuaScript Sample.shared "/proj/main.lua" None)
           (new_LuaScript Sample.shared "/proj/main.lua" None) "a").
  vm_compute. reflexivity.
Defined.

Lemma lookup_without_manifest_throws_witness :
  let env := Sample.stray_file in
  nodeModPath (resolver env "stray" "/proj") = Some "/proj/node_modules/stray.lua"
  ∧ pkgPath (resolver env "stray" "/proj") = None
  ∧ installed_lookup env "/proj" "stray" = LookupThrows
  ∧ process env "/proj/main.lua" {| debug := false; minify := false |} 1 = Throw TypeError.
Proof.
  cbv zeta. split; [reflexivity|]. split; [reflexivity|]. split.
  - apply (proj1 lookup_without_manifest_throws Sample.stray_file "/proj" "stray"
             "/proj/node_modules/stray.lua"); reflexivity.
  - vm_compute. reflexivity.
Defined.

Lemma import_after_export_returns_id_witness :
  let env := Sample.cycle_after_export in
  let main := new_LuaScript env "/proj/main.lua" None in
  let a := new_LuaScript env "/proj/a.lua" None in
  let b := new_LuaScript env "/proj/b.lua" None in
  let vars := [Sample.export_slot] in
  let init := [local_identifier "M"] in
  let st' := set_modulesIds "/proj/a.lua" 1 init_state in
  0 < 1
  ∧ is_export_slot vars = true
  ∧ assignmentStatement_hook a false 1 (AssignmentStatement vars init) init_state
    = Ok (AssignmentStatement [cache_write 1] init, st')
  ∧ recurseResolve env main 1 a (Some b) st' = Ok (Some 1, st').
Proof.
  cbv zeta. split; [lia|]. split; [reflexivity|]. split; [reflexivity|].
  apply (import_after_export_returns_id Sample.cycle_after_export
           (new_LuaScript Sample.cycle_after_export "/proj/main.lua" None)
           (new_LuaScript Sample.cycle_after_export "/proj/a.lua" None) false 1
           [Sample.export_slot] [local_identifier "M"] init_state
           (AssignmentStatement [cache_write 1] [local_identifier "M"])
           (set_modulesIds "/proj/a.lua" 1 init_state) 0
           (Some (new_LuaScript Sample.cycle_after_export "/proj/b.lua" None)));
    first [reflexivity | lia].
Defined.

Lemma registry_keys_consecutive_witness :
  let st := Sample.shared_state in
  build Sample.shared "/proj/main.lua" 3 = Ok st
  ∧ Object_keys (modulesAst st) = seqZ 1 (currModuleId st)
  ∧ Z.of_nat (length (parsed st)) = currModuleId st + 1.
Proof.
  cbv zeta. split; [vm_compute; reflexivity|].
  apply (registry_keys_consecutive Sample.shared "/proj/main.lua" 3 Sample.shared_state).
  vm_compute. reflexivity.
Defined.

Lemma loader_calls_have_registry_entries_witness :
  let st := Sample.shared_state in
  build Sample.shared "/proj/main.lua" 3 = Ok st
  ∧ ("/proj/b.lua", 2) ∈ sites st
  ∧ modulesIds st !! "/proj/b.lua" = Some 2
  ∧ 0 < 2
  ∧ is_Some (modulesAst st !! 2)
  ∧ "/proj/b.lua" ≠ path_resolve Sample.shared "/proj/main.lua"
  ∧ ∀ j, ("/proj/b.lua", j) ∈ sites st → j = 2.
Proof.
  cbv zeta. split; [vm_compute; reflexivity|]. split; [by left|].
  apply (loader_calls_have_registry_entries Sample.shared "/proj/main.lua" 3
           Sample.shared_state "/proj/b.lua" 2).
  - vm_compute. reflexivity.
  - by left.
Defined.

Lemma parse_with_hooks_keeps_shape_witness :
  let env := Sample.shared in
  let main := new_LuaScript env "/proj/main.lua" None in
  let a := new_LuaScript env "/proj/a.lua" None in
  let ast := Sample.chunk [ local_statement "b" [loader_call 7]; Sample.return_table ] in
  let st' := log_site "/proj/b.lua" 7 init_state in
  parse_with_hooks env main a false 1 (λ _, ret (Some 7)) init_state = Ok (ast, st')
  ∧ ∃ c,
      luaparse_parse env (path a) = Some c
      ∧ Forall2 (λ n n', kind n' = kind n) (chunk_body c) (chunk_body ast)
      ∧ length (chunk_body ast) = length (chunk_body c)
      ∧ chunk_comments ast = chunk_comments c
      ∧ chunk_globals ast = chunk_globals c.
Proof.
  cbv zeta. split; [vm_compute; reflexivity|].
  apply (parse_with_hooks_keeps_shape Sample.shared
           (new_LuaScript Sample.shared "/proj/main.lua" None)
           (new_LuaScript Sample.shared "/proj/a.lua" None)
           false 1 (λ _, ret (Some 7)) init_state _
           (log_site "/proj/b.lua" 7 init_state)).
  vm_compute. reflexivity.
Defined.

Lemma leaf_module_stored_verbatim_witness :
  let env := Sample.shared in
  let main := new_LuaScript env "/proj/main.lua" None in
  let b := new_LuaScript env "/proj/b.lua" None in
  let c := Sample.chunk [ Sample.return_table ] in
  modulesIds init_state !! path b = None
  ∧ luaparse_parse env (path b) = Some c
  ∧ forallb untouched (chunk_body c) = true
  ∧ recurseResolve env main 1 b (Some main) init_state
    = Ok (Some 1,
          set_modulesAst 1 c
            (set_modulesIds "/proj/b.lua" 1
               (log_parsed "/proj/b.lua" 1
                  (set_modulesIds "/proj/b.lua" (-1) (set_currModuleId 1 init_state))))).
Proof.
  cbv zeta. split; [reflexivity|]. split; [vm_compute; reflexivity|].
  split; [reflexivity|].
  apply (leaf_module_stored_verbatim Sample.shared
           (new_LuaScript Sample.shared "/proj/main.lua" None) 0
           (new_LuaScript Sample.shared "/proj/b.lua" None)
           (new_LuaScript Sample.shared "/proj/main.lua" None) init_state
           (Sample.chunk [ Sample.return_table ]));
    first [reflexivity | vm_compute; reflexivity].
Defined.

Lemma syntax_error_aborts_witness :
  let env := Sample.broken_module in
  let env' := Sample.broken_after_import in
  let main := new_LuaScript env "/proj/main.lua" None in
  let broken := new_LuaScript env "/proj/broken.lua" None in
  let main' := new_LuaScript env' "/proj/main.lua" None in
  let broken' := new_LuaScript env' "/proj/broken.lua" None in
  modulesIds init_state !! path broken = None
  ∧ luaparse_parse env (path broken) = None
  ∧ forallb untouched (luaparse_built env (path broken)) = true
  ∧ recurseResolve env main 1 broken (Some main) init_state
    = Throw (SyntaxError "/proj/broken.lua")
  ∧ luaparse_parse env' (path broken') = None
  ∧ recurseResolve env' main' 1 broken' (Some main') init_state
    = Throw (ModuleNotFound "missing" "/proj/broken.lua")
  ∧ process env' "/proj/main.lua" {| debug := false; minify := false |} 2
    = Throw (ModuleNotFound "missing" "/proj/broken.lua").
Proof.
  cbv zeta. split; [reflexivity|]. split; [reflexivity|]. split; [reflexivity|].
  split; [|split; [reflexivity|split]].
  - apply (proj1 (proj2 (proj2 syntax_error_aborts)) Sample.broken_module
             (new_LuaScript Sample.broken_module "/proj/main.lua" None) 0%nat
             (new_LuaScript Sample.broken_module "/proj/broken.lua" None)
             (new_LuaScript Sample.broken_module "/proj/main.lua" None) init_state);
      reflexivity.
  - apply (proj2 (proj2 (proj2 syntax_error_aborts)) Sample.broken_after_import
             (new_LuaScript Sample.broken_after_import "/proj/main.lua" None) 0%nat
             (new_LuaScript Sample.broken_after_import "/proj/broken.lua" None)
             (new_LuaScript Sample.broken_after_import "/proj/main.lua" None)
             init_state (Some false) "missing" "'missing'" []); reflexivity.
  - vm_compute. reflexivity.
Defined.
